(** * SerotonylSite: the pendulum lamp and its mood loop

    A shallow embedding of [setupLamp] and the helpers it uses (the second
    script of the page bundle): the pendulum physics, the grab handlers, the
    anxiety smoothing, the beam visibility of the hidden logo and the hum
    synthesizer started from the first pointer gesture.

    JavaScript numbers are modelled by the real numbers of the Standard
    Library: arithmetic is exact, there is no NaN, no infinity and no signed
    zero.  [Math.random], [performance.now] and the geometry read from the
    DOM are inputs of the handlers.  Number formatting ([toFixed]) is not
    modelled: a style property is its numeric value, and the literal ["0px"]
    is the number [0]. *)

From Stdlib Require Import Reals Lra Lia ZArith QArith Qreals Qround List Bool.
From Stdlib Require String.
Import ListNotations String.StringSyntax.
Delimit Scope string_scope with string.
Open Scope R_scope.

(** ** Numeric helpers *)

(** [const clamp = (v, a, b) => Math.max(a, Math.min(b, v))] *)
Definition clamp (v a b : R) : R := Rmax a (Rmin b v).

(** [const lerp = (a, b, t) => a + (b - a) * t] *)
Definition lerp (a b t : R) : R := a + (b - a) * t.

(** [const smoothstep = (a, b, x) => { const t = clamp((x - a) / (b - a), 0, 1);
    return t * t * (3 - 2 * t); }] *)
Definition smoothstep (a b x : R) : R :=
  let t := clamp ((x - a) / (b - a)) 0 1 in
  t * t * (3 - 2 * t).

(** [Math.sign] *)
Definition Math_sign (x : R) : R :=
  if Rlt_dec 0 x then 1 else if Rlt_dec x 0 then -1 else 0.

(** [Math.hypot] on two arguments. *)
Definition Math_hypot (x y : R) : R := sqrt (x * x + y * y).

(** [Math.atan2 (y, x)], by the cases of the language definition (the zeros
    are unsigned here, so [atan2 (0, 0)] is [0]). *)
Definition Math_atan2 (y x : R) : R :=
  if Rlt_dec 0 x then atan (y / x)
  else if Rlt_dec x 0 then
         if Rle_dec 0 y then atan (y / x) + PI else atan (y / x) - PI
       else if Rlt_dec 0 y then PI / 2
            else if Rlt_dec y 0 then - (PI / 2) else 0.

(** Boolean tests on numbers, as the conditions of the source read them. *)
Definition num_lt (a b : R) : bool := if Rlt_dec a b then true else false.
Definition num_gt (a b : R) : bool := num_lt b a.

(** ** The lamp *)

Definition MAX : R := 0.72.
Definition OMEGA_MAX : R := 3.6.
Definition BASE_L : R := 182.
Definition BASE_BEAM_MAX : R := 520.
Definition BEAM_HALF_ANGLE : R := 0.44.
Definition BASE_PROXIMITY : R := 160.
Definition BASE_NEAR : R := 200.

(** The [let] variables of [setupLamp]. *)
Record Lamp : Type := mkLamp {
  theta : R;
  omega : R;
  px : R;
  py : R;
  pvx : R;
  pvy : R;
  lastPtT : R;
  pivotX : R;
  pivotY : R;
  lampScale : R;
  scaledL : R;
  scaledBeamMax : R;
  scaledProximity : R;
  scaledNear : R;
  lastScaleCheck : R;
  grabbing : bool;
  grabLastT : R;
  grabLastTheta : R;
  lastT : R
}.

Definition set_theta (v : R) (l : Lamp) : Lamp :=
  mkLamp v (omega l) (px l) (py l) (pvx l) (pvy l) (lastPtT l) (pivotX l)
    (pivotY l) (lampScale l) (scaledL l) (scaledBeamMax l) (scaledProximity l)
    (scaledNear l) (lastScaleCheck l) (grabbing l) (grabLastT l)
    (grabLastTheta l) (lastT l).

Definition set_omega (v : R) (l : Lamp) : Lamp :=
  mkLamp (theta l) v (px l) (py l) (pvx l) (pvy l) (lastPtT l) (pivotX l)
    (pivotY l) (lampScale l) (scaledL l) (scaledBeamMax l) (scaledProximity l)
    (scaledNear l) (lastScaleCheck l) (grabbing l) (grabLastT l)
    (grabLastTheta l) (lastT l).

Definition set_pointer (x y vx vy t : R) (l : Lamp) : Lamp :=
  mkLamp (theta l) (omega l) x y vx vy t (pivotX l)
    (pivotY l) (lampScale l) (scaledL l) (scaledBeamMax l) (scaledProximity l)
    (scaledNear l) (lastScaleCheck l) (grabbing l) (grabLastT l)
    (grabLastTheta l) (lastT l).

Definition set_pivot (x y : R) (l : Lamp) : Lamp :=
  mkLamp (theta l) (omega l) (px l) (py l) (pvx l) (pvy l) (lastPtT l) x y
    (lampScale l) (scaledL l) (scaledBeamMax l) (scaledProximity l)
    (scaledNear l) (lastScaleCheck l) (grabbing l) (grabLastT l)
    (grabLastTheta l) (lastT l).

Definition set_scale (sc : R) (l : Lamp) : Lamp :=
  mkLamp (theta l) (omega l) (px l) (py l) (pvx l) (pvy l) (lastPtT l)
    (pivotX l) (pivotY l) sc (BASE_L * sc) (BASE_BEAM_MAX * sc)
    (BASE_PROXIMITY * sc) (BASE_NEAR * sc) (lastScaleCheck l) (grabbing l)
    (grabLastT l) (grabLastTheta l) (lastT l).

Definition set_lastScaleCheck (t : R) (l : Lamp) : Lamp :=
  mkLamp (theta l) (omega l) (px l) (py l) (pvx l) (pvy l) (lastPtT l)
    (pivotX l) (pivotY l) (lampScale l) (scaledL l) (scaledBeamMax l)
    (scaledProximity l) (scaledNear l) t (grabbing l) (grabLastT l)
    (grabLastTheta l) (lastT l).

Definition set_grab (g : bool) (t th : R) (l : Lamp) : Lamp :=
  mkLamp (theta l) (omega l) (px l) (py l) (pvx l) (pvy l) (lastPtT l)
    (pivotX l) (pivotY l) (lampScale l) (scaledL l) (scaledBeamMax l)
    (scaledProximity l) (scaledNear l) (lastScaleCheck l) g t th (lastT l).

Definition set_grabbing (g : bool) (l : Lamp) : Lamp :=
  set_grab g (grabLastT l) (grabLastTheta l) l.

Definition set_lastT (t : R) (l : Lamp) : Lamp :=
  mkLamp (theta l) (omega l) (px l) (py l) (pvx l) (pvy l) (lastPtT l)
    (pivotX l) (pivotY l) (lampScale l) (scaledL l) (scaledBeamMax l)
    (scaledProximity l) (scaledNear l) (lastScaleCheck l) (grabbing l)
    (grabLastT l) (grabLastTheta l) t.

(** [readLampScale]: the parsed custom property, [None] when [parseFloat]
    gives NaN; anything that is not a positive number reads as [1]. *)
Definition readLampScale (parsed : option R) : R :=
  match parsed with
  | None => 1
  | Some p => if Rle_dec p 0 then 1 else p
  end.

Definition updateLampScale (parsed : option R) (l : Lamp) : Lamp :=
  set_scale (readLampScale parsed) l.

(** [recalcPivot], from the bounding rectangle of the lamp. *)
Definition recalcPivot (left top width : R) (l : Lamp) : Lamp :=
  set_pivot (left + width / 2) top l.

(** [trackPointer], the window-level pointermove listener. *)
Definition trackPointer (clientX clientY t : R) (l : Lamp) : Lamp :=
  let dt := Rmax 1 (t - lastPtT l) in
  set_pointer clientX clientY
    (clamp ((clientX - px l) / dt) (-1.35) 1.35)
    (clamp ((clientY - py l) / dt) (-1.35) 1.35)
    t l.

(** [angleFromPointer]: the angle from the downward vertical, with the sign
    of the pointer's side of the pivot. *)
Definition angleFromPointer (l : Lamp) (x y : R) : R :=
  let dx := x - pivotX l in
  let dy := y - pivotY l in
  let th := Math_atan2 (Rabs dx) dy in
  let s := if Req_dec_T dx 0 then 1 else Math_sign dx in
  clamp (th * s) (- MAX) MAX.

(** ** The shared mood state and the audio graph *)

(** [state.audio = { ctx, master, osc, humGain, noiseGain }]: the objects
    are named by their index among the audio objects of the page. *)
Record AudioHandles : Type := mkHandles {
  h_ctx : nat;
  h_master : nat;
  h_osc : nat;
  h_humGain : nat;
  h_noiseGain : nat
}.

(** [const state = { anx: 0, camx: 0, ... }] *)
Record MoodState : Type := mkMood {
  anx : R;
  camx : R;
  camy : R;
  blackoutUntil : R;
  spikeUntil : R;
  rippleOff : bool;
  audioStarted : bool;
  audio : option AudioHandles
}.

Definition state0 : MoodState := mkMood 0 0 0 0 0 false false None.

Definition set_anx (v : R) (m : MoodState) : MoodState :=
  mkMood v (camx m) (camy m) (blackoutUntil m) (spikeUntil m) (rippleOff m)
    (audioStarted m) (audio m).

Definition set_cam (x y : R) (m : MoodState) : MoodState :=
  mkMood (anx m) x y (blackoutUntil m) (spikeUntil m) (rippleOff m)
    (audioStarted m) (audio m).

Definition set_blackoutUntil (v : R) (m : MoodState) : MoodState :=
  mkMood (anx m) (camx m) (camy m) v (spikeUntil m) (rippleOff m)
    (audioStarted m) (audio m).

Definition set_spikeUntil (v : R) (m : MoodState) : MoodState :=
  mkMood (anx m) (camx m) (camy m) (blackoutUntil m) v (rippleOff m)
    (audioStarted m) (audio m).

Definition set_rippleOff (v : bool) (m : MoodState) : MoodState :=
  mkMood (anx m) (camx m) (camy m) (blackoutUntil m) (spikeUntil m) v
    (audioStarted m) (audio m).

Definition set_audio (h : AudioHandles) (m : MoodState) : MoodState :=
  mkMood (anx m) (camx m) (camy m) (blackoutUntil m) (spikeUntil m)
    (rippleOff m) true (Some h).

(** The audio objects the page has asked the browser for. *)
Inductive NodeKind : Type :=
| KContext | KGain | KOscillator | KBuffer | KBufferSource
| KHighpass | KLowpass.

Definition NodeKind_eqb (a b : NodeKind) : bool :=
  match a, b with
  | KContext, KContext | KGain, KGain | KOscillator, KOscillator
  | KBuffer, KBuffer | KBufferSource, KBufferSource
  | KHighpass, KHighpass | KLowpass, KLowpass => true
  | _, _ => false
  end.

(** A node and the value of its one parameter: the gain, the frequency, or
    the length of a buffer (its samples are not kept). *)
Record AudioNode : Type := mkNode { kind : NodeKind; value : R }.

Record AudioWorld : Type := mkWorld {
  nodes : list AudioNode;      (* created objects, oldest first *)
  wires : list (nat * nat);    (* connect (source, destination) *)
  running : list nat;          (* sources that were started *)
  targets : list (nat * R);    (* setTargetAtTime requests, newest first *)
  resumes : nat;               (* ctx.resume () requests *)
  calls : nat                  (* Web Audio calls made so far *)
}.

Definition world0 : AudioWorld := mkWorld [] [] [] [] 0 0.

(** What the browser gives the page: whether an [AudioContext] constructor
    exists, which of the Web Audio calls of the session throw (by their
    position in the sequence of calls), and the sample rate of a context. *)
Record AudioEnv : Type := mkEnv {
  hasAC : bool;
  faults : nat -> bool;
  sampleRate : R
}.

(** The page: the shared state, the lamp's variables, the audio objects. *)
Record Session : Type := mkSession {
  mood : MoodState;
  lamp : Lamp;
  web : AudioWorld
}.

Definition with_mood (f : MoodState -> MoodState) (s : Session) : Session :=
  mkSession (f (mood s)) (lamp s) (web s).
Definition with_lamp (f : Lamp -> Lamp) (s : Session) : Session :=
  mkSession (mood s) (f (lamp s)) (web s).
Definition with_web (f : AudioWorld -> AudioWorld) (s : Session) : Session :=
  mkSession (mood s) (lamp s) (f (web s)).

(** ** Statements that may throw *)

Inductive completion (A : Type) : Type :=
| Normal (a : A)
| Throw.
Arguments Normal {A} a.
Arguments Throw {A}.

(** A statement runs on the page and ends normally or by throwing; what it
    wrote before throwing stays written. *)
Definition JS (A : Type) : Type := Session -> Session * completion A.

Definition ret {A} (a : A) : JS A := fun s => (s, Normal a).

Definition bind {A B} (m : JS A) (k : A -> JS B) : JS B :=
  fun s =>
    match m s with
    | (s1, Normal a) => k a s1
    | (s1, Throw) => (s1, Throw)
    end.

Notation "x <- m ;; k" := (bind m (fun x => k))
  (at level 61, m at next level, right associativity).
Notation "m ;;; k" := (bind m (fun _ => k))
  (at level 61, right associativity).

(** [try { body } catch { }] with an empty handler. *)
Definition try_catch (body : JS unit) : JS unit :=
  fun s =>
    match body s with
    | (s1, _) => (s1, Normal tt)
    end.

(** A write to the page that cannot throw. *)
Definition modify (f : Session -> Session) : JS unit :=
  fun s => (f s, Normal tt).

Definition get {A} (f : Session -> A) : JS A :=
  fun s => (s, Normal (f s)).

Section WebAudio.
Variable env : AudioEnv.

Definition bump (w : AudioWorld) : AudioWorld :=
  mkWorld (nodes w) (wires w) (running w) (targets w) (resumes w)
    (S (calls w)).

(** One call into Web Audio: counted, and thrown out of when the browser
    says so. *)
Definition call : JS unit :=
  fun s =>
    if faults env (calls (web s))
    then (with_web bump s, Throw)
    else (with_web bump s, Normal tt).

Definition add_node (n : AudioNode) (w : AudioWorld) : AudioWorld :=
  mkWorld (nodes w ++ [n]) (wires w) (running w) (targets w) (resumes w)
    (calls w).

(** Creating an object: the call, then the new object's index. *)
Definition create (k : NodeKind) (v : R) : JS nat :=
  call ;;;
  i <- get (fun s => length (nodes (web s))) ;;
  modify (with_web (add_node (mkNode k v))) ;;;
  ret i.

Fixpoint set_nth_value (i : nat) (v : R) (l : list AudioNode)
  : list AudioNode :=
  match l, i with
  | [], _ => []
  | n :: r, O => mkNode (kind n) v :: r
  | n :: r, S j => n :: set_nth_value j v r
  end.

(** [node.gain.value = v], [node.frequency.value = v]: plain assignments. *)
Definition set_value (i : nat) (v : R) : JS unit :=
  modify (with_web (fun w =>
    mkWorld (set_nth_value i v (nodes w)) (wires w) (running w) (targets w)
      (resumes w) (calls w))).

Definition connect (a b : nat) : JS unit :=
  call ;;;
  modify (with_web (fun w =>
    mkWorld (nodes w) (wires w ++ [(a, b)]) (running w) (targets w)
      (resumes w) (calls w))).

(** [source.buffer = buf; source.loop = true]: plain assignments, kept as a
    wire from the buffer to its source. *)
Definition set_buffer (source buf : nat) : JS unit :=
  modify (with_web (fun w =>
    mkWorld (nodes w) (wires w ++ [(buf, source)]) (running w) (targets w)
      (resumes w) (calls w))).

Definition start (a : nat) : JS unit :=
  call ;;;
  modify (with_web (fun w =>
    mkWorld (nodes w) (wires w) (running w ++ [a]) (targets w)
      (resumes w) (calls w))).

Definition setTargetAtTime (a : nat) (v : R) : JS unit :=
  call ;;;
  modify (with_web (fun w =>
    mkWorld (nodes w) (wires w) (running w) ((a, v) :: targets w)
      (resumes w) (calls w))).

Definition resume : JS unit :=
  modify (with_web (fun w =>
    mkWorld (nodes w) (wires w) (running w) (targets w)
      (S (resumes w)) (calls w))).

(** The body of the [try] of [ensureHum]. *)
Definition buildHum : JS unit :=
  ctx <- create KContext 0 ;;
  master <- create KGain 1 ;;
  set_value master 0 ;;;
  connect master ctx ;;;
  osc <- create KOscillator 440 ;;
  set_value osc 44 ;;;
  humGain <- create KGain 1 ;;
  set_value humGain 0.12 ;;;
  connect osc humGain ;;;
  connect humGain master ;;;
  buf <- create KBuffer (sampleRate env * 2) ;;
  call ;;;  (* buf.getChannelData (0), then the loop filling the samples *)
  noise <- create KBufferSource 0 ;;
  set_buffer noise buf ;;;
  hp <- create KHighpass 350 ;;
  set_value hp 500 ;;;
  lp <- create KLowpass 350 ;;
  set_value lp 2400 ;;;
  noiseGain <- create KGain 1 ;;
  set_value noiseGain 0.03 ;;;
  connect noise hp ;;;
  connect hp lp ;;;
  connect lp noiseGain ;;;
  connect noiseGain master ;;;
  start osc ;;;
  start noise ;;;
  modify (with_mood
    (set_audio (mkHandles ctx master osc humGain noiseGain))) ;;;
  setTargetAtTime master 0.05.

(** [function ensureHum ()] *)
Definition ensureHum : JS unit :=
  fun s =>
    if audioStarted (mood s) then (s, Normal tt)
    else if negb (hasAC env) then (s, Normal tt)
    else try_catch buildHum s.

(** [function audioTick (t)]; [suspended] is what [ctx.state] reads. *)
Definition audioTick (suspended : bool) (t : R) : JS unit :=
  fun s =>
    match audioStarted (mood s), audio (mood s) with
    | true, Some h =>
        ((if suspended then resume else ret tt) ;;;
         let a := anx (mood s) in
         let blackout := num_lt t (blackoutUntil (mood s)) in
         let vol := 0.02 + a * 0.055 in
         setTargetAtTime (h_master h) (if blackout then vol * 0.35 else vol) ;;;
         setTargetAtTime (h_osc h) (40 + a * 12) ;;;
         setTargetAtTime (h_noiseGain h) (0.02 + a * 0.03)) s
    | _, _ => (s, Normal tt)
    end.
End WebAudio.

(** ** The grab handlers *)

(** The [pointerdown] listener of the hit region.  [now] and [now'] are the
    two readings of [performance.now ()]; capturing the pointer (in a [try]
    with an empty handler) writes nothing the page reads back. *)
Definition pointerdown (env : AudioEnv) (clientX now now' : R) : JS unit :=
  ensureHum env ;;;
  modify (with_lamp (fun l =>
    let l1 := set_grab true now (theta l) l in
    set_omega
      (omega l1 + clamp ((clientX - pivotX l1) / 140) (-1) 1 * 0.75) l1)) ;;;
  modify (with_mood (set_spikeUntil (now' + 260))).

(** The [pointermove] listener of the hit region. *)
Definition pointermove (clientX clientY now : R) (s : Session) : Session :=
  if negb (grabbing (lamp s)) then s
  else
    let l := lamp s in
    let dt := Rmax 1 (now - grabLastT l) in
    let newTheta := angleFromPointer l clientX clientY in
    let w := (newTheta - grabLastTheta l) / (dt / 1000) in
    let l1 :=
      set_omega (clamp (lerp (omega l) w 0.85) (- OMEGA_MAX) OMEGA_MAX) l in
    let l2 := set_theta newTheta l1 in
    let l3 := set_grab (grabbing l2) now newTheta l2 in
    mkSession (set_spikeUntil (now + 120) (mood s)) l3 (web s).

(** [function endGrab ()], the listener of [pointerup] and [pointercancel]. *)
Definition endGrab (now : R) (s : Session) : Session :=
  if negb (grabbing (lamp s)) then s
  else
    let l := set_grabbing false (lamp s) in
    let vx := pvx l * 1000 in
    let vy := pvy l * 1000 in
    let rx := px l - pivotX l in
    let ry := py l - pivotY l in
    let r2 := rx * rx + ry * ry in
    let wPtr := (rx * vy - ry * vx) / (r2 + 1e-6) in
    let omega1 := clamp (omega l + wPtr * 0.28) (- OMEGA_MAX) OMEGA_MAX in
    let omega2 := clamp (omega1 * 1.05) (- OMEGA_MAX) OMEGA_MAX in
    mkSession (set_spikeUntil (now + 180) (mood s)) (set_omega omega2 l)
      (web s).

(** ** The frame *)

(** The breeze of a frame at time [t] under anxiety [a]. *)
Definition breezeAt (t a : R) : R :=
  sin (t * 0.0009) * 0.012 * (0.25 + a * 0.9).

(** The physics of a frame while the lamp is not held, for the frame's
    breeze and time step, in three stages: the push of a moving pointer near
    the bulb, the velocity integrated and clamped, the angle integrated and
    clamped with the bleed at the limit. *)
Definition pushed (l : Lamp) : R :=
  let bulbX := pivotX l + sin (theta l) * scaledL l in
  let bulbY := pivotY l + cos (theta l) * scaledL l in
  let dxp := px l - bulbX in
  let dyp := py l - bulbY in
  let dist := Math_hypot dxp dyp in
  if num_lt dist (scaledProximity l) then
    let proximity := 1 - dist / scaledProximity l in
    let tang := (pvx l * - dyp + pvy l * dxp) / (dist + 12) in
    omega l + tang * 0.12 * proximity
  else omega l.

Definition integrated (breeze dt : R) (l : Lamp) : R :=
  let grav := 10.4 in
  let damp := 0.92 in
  let omega0 := pushed l in
  let acc := - grav * sin (theta l) - damp * omega0 + breeze in
  clamp (omega0 + acc * dt) (- OMEGA_MAX) OMEGA_MAX.

Definition swing (breeze dt : R) (l : Lamp) : Lamp :=
  let omega1 := integrated breeze dt l in
  let theta1 := clamp (theta l + omega1 * dt) (- MAX) MAX in
  let omega2 :=
    if num_gt (Rabs theta1) (MAX - 1e-4) then omega1 * 0.78 else omega1 in
  set_omega omega2 (set_theta theta1 l).

(** [if (!grabbing) { ... }] *)
Definition physics (t dt a : R) (l : Lamp) : Lamp :=
  if negb (grabbing l) then swing (breezeAt t a) dt l else l.

(** The instantaneous anxiety a frame steers towards. *)
Definition anxTarget (near speed spike : R) : R :=
  clamp (0.10 + near * 0.60 + speed * 0.85 + spike * 0.75) 0 1.

Definition spikeAt (t until : R) : R :=
  if num_lt t until then clamp ((until - t) / 260) 0 1 else 0.

(** The visibility of a target at distance [along] down the beam axis and
    [perp] off it. *)
Definition beamVis (beamMax t a : R) (blackout : bool) (along perp : R) : R :=
  if num_gt along 0 && num_lt along beamMax then
    let maxPerp := along * tan BEAM_HALF_ANGLE in
    let edge := 1 - perp / (maxPerp + 1e-6) in
    let inside := smoothstep 0.0 1.0 edge in
    let fadeIn := smoothstep 10 70 along in
    let fadeOut := 1 - smoothstep (beamMax - 100) beamMax along in
    let flicker :=
      (0.90 + 0.10 * sin (t * (0.010 + a * 0.010))) *
      (1 - (if blackout then 0.92 else 0)) in
    inside * fadeIn * fadeOut * flicker
  else 0.

(** The visibility of the point [(lx, ly)] of the page. *)
Definition pointVis (l : Lamp) (t a : R) (blackout : bool) (lx ly : R) : R :=
  let apexX := pivotX l + sin (theta l) * scaledL l in
  let apexY := pivotY l + cos (theta l) * scaledL l + 16 in
  let dirX := sin (theta l) in
  let dirY := cos (theta l) in
  let vx := lx - apexX in
  let vy := ly - apexY in
  let along := vx * dirX + vy * dirY in
  let perp := Rabs (vx * dirY - vy * dirX) in
  beamVis (scaledBeamMax l) t a blackout along perp.

(** The jitter of the logo, from two random draws. *)
Definition logoJitter (vis a : R) (blackout : bool) (r1 r2 : R) : R * R :=
  if num_gt vis 0.05 && num_gt a 0.2 && negb blackout then
    let j := a * vis * 1.8 in
    ((r1 * 2 - 1) * j, (r2 * 2 - 1) * j)
  else (0, 0).

(** What a frame reads from outside the page's variables. *)
Record FrameIn : Type := mkFrameIn {
  f_t : R;                 (* the timestamp of the animation frame *)
  rnd_blackout : R;        (* the draws of Math.random, in [0, 1) *)
  rnd_blackoutLen : R;
  rnd_camx : R;
  rnd_camy : R;
  rnd_jx : R;
  rnd_jy : R;
  logo_left : R;           (* logo.getBoundingClientRect () *)
  logo_top : R;
  logo_width : R;
  logo_height : R;
  ctx_suspended : bool;    (* ctx.state === "suspended" *)
  css_scale : option R     (* parseFloat of --lamp-scale *)
}.

(** The style properties a frame writes. *)
Record FrameOut : Type := mkFrameOut {
  o_lampRot : R;
  o_blackout : bool;
  o_camx : R;
  o_camy : R;
  o_moodOp : R;
  o_moodBlur : R;
  o_dotsOp : R;
  o_noiseOp : R;
  o_beamOp : R;
  o_beamBlur : R;
  o_beamGrain : R;
  o_beamSX : R;
  o_beamSY : R;
  o_bulbBright : R;
  o_bulbHalo : R;
  o_logoVis : R;
  o_logoJx : R;
  o_logoJy : R
}.

(** The target of the anxiety in a frame at time [t] whose lamp (after the
    physics) is [l], and the anxiety after that frame. *)
Definition frameTarget (t : R) (m : MoodState) (l : Lamp) : R :=
  let bulbX := pivotX l + sin (theta l) * scaledL l in
  let bulbY := pivotY l + cos (theta l) * scaledL l in
  let distToPointer := Math_hypot (px l - bulbX) (py l - bulbY) in
  let near := clamp (1 - distToPointer / scaledNear l) 0 1 in
  let spike := spikeAt t (spikeUntil m) in
  let speed := clamp (Rabs (omega l) / OMEGA_MAX) 0 1 in
  anxTarget near speed spike.

Definition nextAnx (t : R) (m : MoodState) (l : Lamp) : R :=
  lerp (anx m) (frameTarget t m l) 0.06.

(** The lamp a frame works on: the clock advanced, the physics applied. *)
Definition frameLamp (t : R) (s : Session) : Lamp :=
  let dt := Rmin 0.03 ((t - lastT (lamp s)) / 1000) in
  physics t dt (anx (mood s)) (set_lastT t (lamp s)).

(** [function frame (t)] up to the logo jitter: the new page variables and
    the style properties written. *)
Definition frameCore (i : FrameIn) (s : Session) : Session * FrameOut :=
  let t := f_t i in
  let l := frameLamp t s in
  let spike := spikeAt t (spikeUntil (mood s)) in
  let m1 := set_anx (nextAnx t (mood s) l) (mood s) in
  let m2 :=
    if num_lt (blackoutUntil m1) t && num_gt (anx m1) 0.68
       && num_lt (rnd_blackout i) 0.012
    then set_blackoutUntil (t + 70 + rnd_blackoutLen i * 140) m1
    else m1 in
  let blackout := num_lt t (blackoutUntil m2) in
  let a := anx m2 in
  let jx := (rnd_camx i * 2 - 1) * a * 1.6 in
  let jy := (rnd_camy i * 2 - 1) * a * 1.1 in
  let m3 := set_cam (lerp (camx m2) jx 0.12) (lerp (camy m2) jy 0.12) m2 in
  let beamOp := 0.46 + a * 0.30 + (if blackout then -0.30 else 0) in
  let beamBlur := 6.5 + a * 12.0 + (if blackout then -3.5 else 0) in
  let beamGrain := 0.08 + a * 0.30 + (if blackout then 0.16 else 0) in
  let lx := logo_left i + logo_width i / 2 in
  let ly := logo_top i + logo_height i / 2 in
  let vis := pointVis l t a blackout lx ly in
  let jit := logoJitter vis a blackout (rnd_jx i) (rnd_jy i) in
  (mkSession m3 l (web s),
   mkFrameOut
     (theta l * 180 / PI) blackout (camx m3) (camy m3)
     (0.16 + a * 0.34 + (if blackout then 0.14 else 0))
     (if blackout then 0 else a * 0.6)
     (0.14 + a * 0.26) (0.18 + a * 0.28)
     (clamp beamOp 0.05 0.82) (clamp beamBlur 2.5 22) (clamp beamGrain 0 0.65)
     (1 + a * 0.02 + sin (t * 0.006) * 0.01 * a)
     (1 + a * 0.018 + cos (t * 0.005) * 0.01 * a)
     (1 + a * 0.12 + spike * 0.12) (0.20 + a * 0.20)
     (clamp vis 0 1) (fst jit) (snd jit)).

(** The end of [function frame (t)]: [audioTick] and the periodic check of
    the lamp's scale. *)
Definition frameTail (env : AudioEnv) (i : FrameIn) (out : FrameOut)
  : JS FrameOut :=
  audioTick env (ctx_suspended i) (f_t i) ;;;
  modify (with_lamp (fun l =>
    if num_gt (f_t i - lastScaleCheck l) 500
    then set_lastScaleCheck (f_t i) (updateLampScale (css_scale i) l)
    else l)) ;;;
  ret out.

(** [function frame (t)] *)
Definition frame (env : AudioEnv) (i : FrameIn) : JS FrameOut :=
  fun s => let '(s1, out) := frameCore i s in frameTail env i out s1.

(** The [resize] listener. *)
Definition resize (left top width : R) (parsed : option R) (s : Session)
  : Session :=
  with_lamp (fun l => updateLampScale parsed (recalcPivot left top width l)) s.

(** The variables of [setupLamp] before the first event: [rnd] is the draw
    of the starting angle, [now] the clock. *)
Definition setupLamp (rnd innerWidth now left top width : R)
  (parsed : option R) : Lamp :=
  recalcPivot left top width
    (updateLampScale parsed
       (mkLamp (rnd * 0.10 - 0.05) 0 (innerWidth / 2) 220 0 0 now 0 0
          1 BASE_L BASE_BEAM_MAX BASE_PROXIMITY BASE_NEAR 0 false 0 0 now)).

Definition boot (rnd innerWidth now left top width : R) (parsed : option R)
  : Session :=
  mkSession state0 (setupLamp rnd innerWidth now left top width parsed) world0.

(** The events of a page session. *)
Inductive Event : Type :=
| EFrame (i : FrameIn)
| EPointerDown (clientX now now' : R)
| EPointerMove (clientX clientY now : R)
| ETrack (clientX clientY t : R)
| EPointerUp (now : R)
| EResize (left top width : R) (parsed : option R)
| ERipple (off : bool).

(** One event on the page; a frame that throws leaves what it wrote. *)
Definition step (env : AudioEnv) (e : Event) (s : Session) : Session :=
  match e with
  | EFrame i => fst (frame env i s)
  | EPointerDown x now now' => fst (pointerdown env x now now' s)
  | EPointerMove x y now => pointermove x y now s
  | ETrack x y t => with_lamp (trackPointer x y t) s
  | EPointerUp now => endGrab now s
  | EResize l t w p => resize l t w p s
  | ERipple off => with_mood (set_rippleOff off) s
  end.

Definition run (env : AudioEnv) (es : list Event) (s : Session) : Session :=
  fold_left (fun acc e => step env e acc) es s.

(** * Notions used in the statements *)

(** ** Views of the page *)

(** [keeps view m]: whatever [m] does, and however it ends, the [view] of
    the page is as before. *)
Definition keeps {X A : Type} (view : Session -> X) (m : JS A) : Prop :=
  forall s, view (fst (m s)) = view s.

(** The part of the lamp that moves: angle, velocity, and whether it is held. *)
Definition motion (s : Session) : R * R * bool :=
  (theta (lamp s), omega (lamp s), grabbing (lamp s)).

(** The pointer does not move. *)
Definition still (l : Lamp) : Prop := pvx l = 0 /\ pvy l = 0.

Definition is_pointerdown (e : Event) : bool :=
  match e with
  | EPointerDown _ _ _ => true
  | _ => false
  end.

(** The target of the anxiety is 1 in each of the frames [fs], run in a row
    from the page [s]. *)
Fixpoint pinned (env : AudioEnv) (fs : list FrameIn) (s : Session) : Prop :=
  match fs with
  | [] => True
  | i :: r =>
      frameTarget (f_t i) (mood s) (frameLamp (f_t i) s) = 1 /\
      pinned env r (step env (EFrame i) s)
  end.

(** The point of the page at distance [along] down the beam axis of the
    lamp and at signed distance [p] across it. *)
Definition beamPoint (l : Lamp) (along p : R) : R * R :=
  let apexX := pivotX l + sin (theta l) * scaledL l in
  let apexY := pivotY l + cos (theta l) * scaledL l + 16 in
  let dirX := sin (theta l) in
  let dirY := cos (theta l) in
  (apexX + along * dirX + p * dirY, apexY + along * dirY - p * dirX).

(** The visibility a frame computes for the logo, before it is clamped and
    written. *)
Definition frameVis (i : FrameIn) (s : Session) : R :=
  let s' := fst (frameCore i s) in
  pointVis (lamp s') (f_t i) (anx (mood s'))
    (num_lt (f_t i) (blackoutUntil (mood s')))
    (logo_left i + logo_width i / 2) (logo_top i + logo_height i / 2).

(** The Web Audio calls of [ensureHum] up to and including the two
    [start ()] calls: the construction of the graph.  The one call after
    them is the ramp of the master gain. *)
Definition constructionCalls : nat := 19.

(** Whether one of the construction calls throws, when the first of them is
    call number [n] of the session. *)
Definition constructionFails (env : AudioEnv) (n : nat) : bool :=
  existsb (fun k => faults env (k + n)%nat) (seq 0 constructionCalls).

(** How many objects of a kind the page has created. *)
Definition count_kind (k : NodeKind) (w : AudioWorld) : nat :=
  length (filter (fun n => NodeKind_eqb (kind n) k) (nodes w)).

(** ** Sample pages, browsers and frames *)

(** A lamp at rest with its pivot at the origin of the page. *)
Definition lamp0 : Lamp :=
  mkLamp 0 0 0 0 0 0 0 0 0 1 BASE_L BASE_BEAM_MAX BASE_PROXIMITY BASE_NEAR
    0 false 0 0 0.

(** A lamp pushed against its right limit, the pointer still. *)
Definition lampAtLimit : Lamp :=
  mkLamp MAX 1 0 0 0 0 0 0 0 1 BASE_L BASE_BEAM_MAX BASE_PROXIMITY BASE_NEAR
    0 false 0 0 0.

(** The page before any event, its lamp at rest. *)
Definition calmSession : Session := mkSession state0 lamp0 world0.

(** A page whose lamp swings at full speed. *)
Definition fastSession : Session :=
  mkSession state0 (set_omega OMEGA_MAX lamp0) world0.

(** A page whose lamp is held at full speed just after a grab. *)
Definition tenseSession : Session :=
  mkSession (set_spikeUntil 1000 state0)
    (set_grabbing true (set_omega OMEGA_MAX lamp0)) world0.

(** A page at middling anxiety whose lamp is held hanging straight. *)
Definition heldSession : Session :=
  mkSession (set_anx 0.5 state0) (set_grabbing true lamp0) world0.

(** A browser without Web Audio. *)
Definition quietEnv : AudioEnv := mkEnv false (fun _ => false) 48000.

(** A browser whose Web Audio never throws. *)
Definition hummingEnv : AudioEnv := mkEnv true (fun _ => false) 48000.

(** The browser refuses the third Web Audio call of the session. *)
Definition brokenEnv : AudioEnv := mkEnv true (fun n => Nat.eqb n 2) 48000.

(** The browser refuses the first Web Audio call of the session only. *)
Definition flakyEnv : AudioEnv := mkEnv true (fun n => Nat.eqb n 0) 48000.

(** The browser refuses the twentieth Web Audio call of the session only:
    on a fresh page, the ramp of the master gain. *)
Definition rampEnv : AudioEnv := mkEnv true (fun n => Nat.eqb n 19) 48000.

(** A frame 16 ms into the session, every random draw 0. *)
Definition frameIn0 : FrameIn := mkFrameIn 16 0 0 0 0 0 0 0 0 0 0 false None.

(** A frame with the logo 100 px under the apex of the beam of a lamp
    hanging straight. *)
Definition logoFrame : FrameIn :=
  mkFrameIn 16 0 0 0 0 0.9 0.1 (-10) 288 20 20 false None.

(** ** Rational bounds for a run of the physics *)

(** The sine between two of its Taylor polynomials. *)
Definition sinLow (x : R) : R :=
  x - x * x * x / 6 + x * x * x * x * x / 120
  - x * x * x * x * x * x * x / 5040.

Definition sinHigh (x : R) : R :=
  sinLow x + x * x * x * x * x * x * x * x * x / 362880.

(** The same polynomials on rationals, in nested form. *)
Definition qLow (q : Q) : Q :=
  let u := (q * q)%Q in
  (q * (1 - u * (1 # 6) * (1 - u * (1 # 20) * (1 - u * (1 # 42)))))%Q.

Definition qHigh (q : Q) : Q :=
  let u := (q * q)%Q in
  (q * (1 - u * (1 # 6) * (1 - u * (1 # 20) * (1 - u * (1 # 42)
                                                * (1 - u * (1 # 72))))))%Q.

(** Bounds of the sine at a rational of [[-1, 1]]. *)
Definition sinDown (q : Q) : Q :=
  if Qle_bool 0 q then qLow q else (- qHigh (- q))%Q.

Definition sinUp (q : Q) : Q :=
  if Qle_bool 0 q then qHigh q else (- qLow (- q))%Q.

(** Rounding to the grid of 12 decimals, down and up. *)
Definition grid : positive := (10 ^ 12)%positive.

Definition roundDown (q : Q) : Q :=
  ((Qnum q * Zpos grid) / Zpos (Qden q))%Z # grid.

Definition roundUp (q : Q) : Q := (- roundDown (- q))%Q.

(** A box of rational bounds around the angle and the velocity. *)
Record Box : Type := mkBox { tlo : Q; thi : Q; olo : Q; ohi : Q }.

Definition inBox (b : Box) (l : Lamp) : Prop :=
  Q2R (tlo b) <= theta l <= Q2R (thi b) /\
  Q2R (olo b) <= omega l <= Q2R (ohi b).

Definition small (q : Q) : bool :=
  Qle_bool (- (1 # 2)) q && Qle_bool q (1 # 2).

Definition kDamp : Q := 5908 # 6000.  (* 1 - 0.92 / 60 *)

Definition kGrav : Q := 104 # 600.    (* 10.4 / 60 *)

Definition kDt : Q := 1 # 60.

(** One step of the physics on boxes, without breeze or push, at 60 Hz;
    [None] when the box leaves the range where neither clamp is active. *)
Definition boxStep (b : Box) : option Box :=
  let ol := roundDown (olo b * kDamp - kGrav * sinUp (thi b)) in
  let oh := roundUp (ohi b * kDamp - kGrav * sinDown (tlo b)) in
  let tl := roundDown (tlo b + ol * kDt) in
  let th := roundUp (thi b + oh * kDt) in
  if small (tlo b) && small (thi b) && small ol && small oh
     && small tl && small th
  then Some (mkBox tl th ol oh)
  else None.

Fixpoint boxIter (n : nat) (b : Box) : option Box :=
  match n with
  | O => Some b
  | S n' =>
      match boxIter n' b with
      | Some b' => boxStep b'
      | None => None
      end
  end.

(** The start of the idle run, and the bounds asked of its end. *)
Definition startBox : Box := mkBox (5 # 100) (5 # 100) 0 0.

Definition settled (b : Box) : bool :=
  Qle_bool (- (99 # 10000)) (tlo b) && Qle_bool (thi b) (99 # 10000)
  && Qle_bool (- (99 # 10000)) (olo b) && Qle_bool (ohi b) (99 # 10000).

(** ** Invariants of a session *)

(** The velocity is inside its clamp, up to the one kick of a grab while
    the lamp is held. *)
Definition omegaBound (s : Session) : Prop :=
  Rabs (omega (lamp s)) <=
  (if grabbing (lamp s) then OMEGA_MAX + 0.75 else OMEGA_MAX).

(** Every pointer-down of the events [es], run from [s], finds the lamp
    free: each grab is released before the next begins. *)
Fixpoint oneGrabAtATime (env : AudioEnv) (es : list Event) (s : Session)
  : Prop :=
  match es with
  | [] => True
  | e :: r =>
      (is_pointerdown e = true -> grabbing (lamp s) = false) /\
      oneGrabAtATime env r (step env e s)
  end.

(** The pointer's velocity is inside the clamp of [trackPointer]. *)
Definition pointerTame (l : Lamp) : Prop :=
  Rabs (pvx l) <= 1.35 /\ Rabs (pvy l) <= 1.35.

(** The draws of [Math.random] of a frame are in [[0, 1)]. *)
Definition unitDraw (r : R) : Prop := 0 <= r < 1.

Definition frameDraws (i : FrameIn) : Prop :=
  unitDraw (rnd_blackout i) /\ unitDraw (rnd_blackoutLen i) /\
  unitDraw (rnd_camx i) /\ unitDraw (rnd_camy i) /\
  unitDraw (rnd_jx i) /\ unitDraw (rnd_jy i).

Definition eventDraws (e : Event) : Prop :=
  match e with
  | EFrame i => frameDraws i
  | _ => True
  end.

(** The moment of the pointer about the pivot: [r x v], up to the factor
    1000 of the units. *)
Definition pointerCross (l : Lamp) : R :=
  (px l - pivotX l) * pvy l - (py l - pivotY l) * pvx l.

(** ** The graph of the hum *)

(** The audio objects of the page and how they are joined and started. *)
Definition graph (s : Session)
  : list AudioNode * list (nat * nat) * list nat :=
  (nodes (web s), wires (web s), running (web s)).

(** The objects [ensureHum] creates, in order, with the values it gives
    them: the context, the master gain, the oscillator and its gain, the
    noise buffer and its source, the two filters and the noise gain. *)
Definition humNodes (rate : R) : list AudioNode :=
  [mkNode KContext 0; mkNode KGain 0; mkNode KOscillator 44;
   mkNode KGain 0.12; mkNode KBuffer (rate * 2); mkNode KBufferSource 0;
   mkNode KHighpass 500; mkNode KLowpass 2400; mkNode KGain 0.03].

(** The wires between them, when the context is object number [n]. *)
Definition humWires (n : nat) : list (nat * nat) :=
  [(n + 1, n); (n + 2, n + 3); (n + 3, n + 1); (n + 4, n + 5);
   (n + 5, n + 6); (n + 6, n + 7); (n + 7, n + 8); (n + 8, n + 1)]%nat.

(** * The rest of the page scripts *)

(** [Math.floor], to an integer. *)
Definition Math_floor (x : R) : Z := Int_part x.

(** ** The ripple switch *)

(** [localStorage] as far as the key ["serotonyl_ripple_off"] goes: reading
    or writing may throw, and the item may be absent. *)
Record Storage : Type := mkStorage {
  canRead : bool;
  canWrite : bool;
  rippleItem : option String.string
}.

(** The checkbox of the switch (absent on some pages), and the class
    ["ripple-off"] of the body. *)
Record RippleUi : Type := mkRippleUi {
  cb_checked : option bool;
  body_rippleOff : bool
}.

(** [localStorage.getItem (...) === "1"] in its [try], [false] on a throw. *)
Definition storedOff (st : Storage) : bool :=
  if canRead st then
    match rippleItem st with
    | Some v => String.eqb v "1"
    | None => false
    end
  else false.

(** [function setupRippleToggle ()] *)
Definition setupRippleToggle (st : Storage) (m : MoodState) (ui : RippleUi)
  : MoodState * RippleUi :=
  match cb_checked ui with
  | None => (m, ui)
  | Some _ =>
      let off := storedOff st in
      (set_rippleOff off m, mkRippleUi (Some off) off)
  end.

(** The [change] listener, after the user has put the box in state [v]. *)
Definition rippleChange (v : bool) (st : Storage) (m : MoodState)
  (ui : RippleUi) : Storage * MoodState * RippleUi :=
  match cb_checked ui with
  | None => (st, m, ui)
  | Some _ =>
      (if canWrite st
       then mkStorage (canRead st) (canWrite st)
              (Some (if v then "1" else "0")%string)
       else st,
       set_rippleOff v m,
       mkRippleUi (Some v) v)
  end.

(** ** The letters of the logo *)

(** Text as its sequence of code points, the way [for (const ch of text)]
    walks it. *)
Definition Text : Type := list N.

(** The code points [String.prototype.trim] removes: white space and line
    terminators. *)
Definition is_white (c : N) : bool :=
  existsb (N.eqb c)
    [9; 10; 11; 12; 13; 32; 160; 5760; 8232; 8233; 8239; 8287; 12288;
     65279]%N
  || (N.leb 8192 c && N.leb c 8202).

Fixpoint dropWhile {A} (f : A -> bool) (l : list A) : list A :=
  match l with
  | [] => []
  | a :: r => if f a then dropWhile f r else l
  end.

Definition trim (t : Text) : Text :=
  rev (dropWhile is_white (rev (dropWhile is_white t))).

(** A [<span class="ch">] with its one letter. *)
Record Span : Type := mkSpan { sp_class : String.string; sp_text : Text }.

(** [.secret-logo__main]: its own text, whether it carries [is-split], and
    its child spans. *)
Record MainEl : Type := mkMain {
  m_text : Text;
  m_split : bool;
  m_spans : list Span
}.

Definition textContent (m : MainEl) : Text :=
  m_text m ++ concat (map sp_text (m_spans m)).

(** [#secretLogo]: whether [dataset.enhanced] is ["1"], and its main line. *)
Record LogoEl : Type := mkLogo { enhanced : bool; logoMain : option MainEl }.

Definition letterSpan (ch : N) : Span :=
  mkSpan "ch"%string (if N.eqb ch 32 then [160%N] else [ch]).

(** [function enhanceSecretLogoText ()], on the logo of the page if any. *)
Definition enhanceSecretLogoText (logo : option LogoEl) : option LogoEl :=
  match logo with
  | None => None
  | Some l =>
      match logoMain l with
      | None => Some l
      | Some m =>
          if enhanced l then Some l
          else
            let text := trim (textContent m) in
            match text with
            | [] => Some (mkLogo true (Some m))
            | _ =>
                Some (mkLogo true
                        (Some (mkMain [] true (map letterSpan text))))
            end
      end
  end.

(** A space as [letterSpan] writes it. *)
Definition nbsp (c : N) : N := if N.eqb c 32 then 160%N else c.

(** A text is tidy when it is empty or neither starts nor ends with white
    space. *)
Definition tidy (t : Text) : Prop :=
  t = [] \/
  (exists a r, t = a :: r /\ is_white a = false) /\
  (exists b r, t = r ++ [b] /\ is_white b = false).

(** ** The doors *)

Module Doors.

(** A [.door]: whether it has a [.door__rig] (the listeners are attached
    only then), whether it carries [is-open], and the [hover] flag of its
    closure. *)
Record Door : Type := mkDoor { rig : bool; is_open : bool; hover : bool }.

Definition close (d : Door) : Door := mkDoor (rig d) false (hover d).

Fixpoint update (i : nat) (f : Door -> Door) (ds : list Door) : list Door :=
  match ds, i with
  | [], _ => []
  | d :: r, O => f d :: r
  | d :: r, S j => d :: update j f r
  end.

(** The [touchstart] listener of door [i]; the boolean tells whether the
    default action was prevented. *)
Definition touchstart (i : nat) (ds : list Door) : list Door * bool :=
  match nth_error ds i with
  | Some d =>
      if rig d && negb (is_open d)
      then (update i (fun d => mkDoor (rig d) true (hover d)) (map close ds),
            true)
      else (ds, false)
  | None => (ds, false)
  end.

(** The [click] listener of the document; [target] is the door that
    contains the target of the click, if any. *)
Definition click (target : option nat) (ds : list Door) : list Door :=
  match target with
  | Some _ => ds
  | None => map close ds
  end.

Definition setHover (v : bool) (d : Door) : Door :=
  if rig d then mkDoor (rig d) (is_open d) v else d.

Inductive Event : Type :=
| Touch (i : nat)
| Click (target : option nat)
| Enter (i : nat)
| Leave (i : nat).

Definition handle (e : Event) (ds : list Door) : list Door :=
  match e with
  | Touch i => fst (touchstart i ds)
  | Click t => click t ds
  | Enter i => update i (setHover true) ds
  | Leave i => update i (setHover false) ds
  end.

(** What one run of [step] writes on the rig and waits before the next. *)
Record Jitter : Type := mkJitter {
  jx : R; jy : R; jr : R; js : R; delay : R
}.

(** [const step = () => { ... }]: nothing at all under reduced motion. *)
Definition step (prefersReduce : bool) (d : Door) (a r1 r2 r3 r4 : R)
  : option Jitter :=
  if prefersReduce then None
  else
    let k := (if hover d then 1.15 else 1.0) * (1 + a * 0.55) in
    Some (mkJitter ((r1 * 2 - 1) * k) ((r2 * 2 - 1) * k)
            ((r3 * 0.55 - 0.275) * k) (if hover d then 1.03 else 1.0)
            (120 + r4 * 160)).

Definition openCount (ds : list Door) : nat :=
  length (filter is_open ds).

End Doors.

(** ** The dust and the glitch *)

Module Dust.

Record Particle : Type := mkParticle {
  x : R; y : R; r : R; vx : R; vy : R; a : R
}.

(** The variables of [setupDustCanvas]. *)
Record Canvas : Type := mkCanvas {
  w : R;
  h : R;
  dpr : R;
  pts : list Particle;
  glitchFrames : Z;
  last : R
}.

Definition GLITCH_RATE_BASE : R := 0.03.
Definition GLITCH_FRAMES_MIN : Z := 3.
Definition GLITCH_FRAMES_MAX : Z := 8.

(** [window.devicePixelRatio || 1]: [None] is a missing or NaN ratio. *)
Definition ratioOrOne (ratio : option R) : R :=
  match ratio with
  | Some v => if Req_dec_T v 0 then 1 else v
  | None => 1
  end.

(** [function resize ()] *)
Definition resize (innerWidth innerHeight : R) (ratio : option R)
  (c : Canvas) : Canvas :=
  let dpr' := Rmax 1 (Rmin 2 (ratioOrOne ratio)) in
  mkCanvas (IZR (Math_floor (innerWidth * dpr')))
    (IZR (Math_floor (innerHeight * dpr'))) dpr' (pts c) (glitchFrames c)
    (last c).

(** The number of particles. *)
Definition particleCount (innerWidth innerHeight : R) : Z :=
  Z.max 220 (Z.min 620 (Math_floor (innerWidth * innerHeight / 5600))).

(** One particle of [Array.from ({ length: N }, ...)], from six draws. *)
Definition spawn (c : Canvas) (r1 r2 r3 r4 r5 r6 : R) : Particle :=
  mkParticle (r1 * w c) (r2 * h c) ((r3 * 1.2 + 0.6) * dpr c)
    ((r4 * 0.18 - 0.09) * dpr c) ((r5 * 0.18 - 0.09) * dpr c)
    (0.18 + r6 * 0.55).

(** [function startGlitch ()] *)
Definition startGlitch (rnd : R) : Z :=
  (GLITCH_FRAMES_MIN
   + Math_floor (rnd * IZR (GLITCH_FRAMES_MAX - GLITCH_FRAMES_MIN + 1)))%Z.

(** The two wraps of a coordinate at the padded border. *)
Definition wrap (pad size v : R) : R :=
  let v1 := if num_lt v (- pad) then size + pad else v in
  if num_gt v1 (size + pad) then - pad else v1.

(** The body of [for (const p of pts)] for one particle: the draws of
    [Math.random] are [rnd k], [rnd (k + 1)], ...; the result carries the
    number of the next draw. *)
Definition moveParticle (shaken : bool) (anx : R) (c : Canvas)
  (rnd : nat -> R) (k : nat) (p : Particle) : Particle * nat :=
  let x1 := x p + vx p in
  let y1 := y p + vy p in
  let '(x2, y2, k') :=
    if shaken then
      if num_lt (rnd k) (0.28 + anx * 0.22)
      then (x1 + (rnd (k + 1)%nat * 36 - 18) * dpr c,
            y1 + (rnd (k + 2)%nat * 26 - 13) * dpr c, (k + 3)%nat)
      else (x1, y1, (k + 1)%nat)
    else (x1, y1, k) in
  (mkParticle (wrap (20 * dpr c) (w c) x2) (wrap (20 * dpr c) (h c) y2)
     (r p) (vx p) (vy p) (a p), k').

Fixpoint moveAll (shaken : bool) (anx : R) (c : Canvas) (rnd : nat -> R)
  (k : nat) (ps : list Particle) : list Particle * nat :=
  match ps with
  | [] => ([], k)
  | p :: rest =>
      let '(p', k1) := moveParticle shaken anx c rnd k p in
      let '(rest', k2) := moveAll shaken anx c rnd k1 rest in
      (p' :: rest', k2)
  end.

(** What a call of [draw] shows: nothing when it comes too early, a
    cleared canvas when the ripple is off, and otherwise the opacity of the
    dust, whether the frame is glitched and the alpha of each particle. *)
Inductive Shown : Type :=
| Skipped
| Cleared
| Drawn (dustOp : R) (glitch : bool) (alphas : list R).

(** [function draw (t)], up to the painting of the canvas: the variables
    it leaves and what it shows. *)
Definition draw (t : R) (rnd : nat -> R) (m : MoodState) (c : Canvas)
  : Canvas * Shown :=
  if num_lt (t - last c) (1000 / 60) then (c, Skipped)
  else
    let c1 := mkCanvas (w c) (h c) (dpr c) (pts c) (glitchFrames c) t in
    if rippleOff m then (c1, Cleared)
    else
      let anx := anx m in
      let blackout := num_lt t (blackoutUntil m) in
      let rate := GLITCH_RATE_BASE + anx * 0.11 in
      let '(gf1, k1) :=
        if Z.eqb (glitchFrames c1) 0 then
          if num_lt (rnd O) rate then (startGlitch (rnd 1%nat), 2%nat)
          else (glitchFrames c1, 1%nat)
        else (glitchFrames c1, O) in
      let glitch := Z.ltb 0 gf1 in
      let gf2 := if glitch then (gf1 - 1)%Z else gf1 in
      let '(ps, _) := moveAll (glitch || blackout) anx c1 rnd k1 (pts c1) in
      (mkCanvas (w c1) (h c1) (dpr c1) ps gf2 t,
       Drawn (0.18 + anx * 0.34 + (if blackout then 0.08 else 0)) glitch
         (map (fun p => a p * (if glitch then 1.25 else 1.0)
                        * (if blackout then 1.25 else 1.0)) ps)).

End Dust.

(** ** The breathing of the wobble filter *)

(** One tick of the interval of [animateWobbleFilter]: the new [base], the
    [baseFrequency] written, and the [scale] written when the displacement
    map exists. *)
Definition wobbleTick (hasDisp : bool) (anx r1 r2 base : R)
  : R * R * option R :=
  let base1 := base + (r1 * 0.002 - 0.001) in
  let base2 := clamp base1 0.009 0.016 in
  let bf := clamp (base2 + anx * 0.004) 0.009 0.020 in
  (base2, bf,
   if hasDisp then Some (2 + anx * 7 + r2 * (0.8 + anx * 1.6)) else None).

(** Whether a call of [Dust.draw] showed a glitched frame. *)
Definition shownGlitch (s : Dust.Shown) : option bool :=
  match s with
  | Dust.Drawn _ g _ => Some g
  | _ => None
  end.

(** A particle is within the canvas and its border of 20 (scaled) pixels. *)
Definition nearCanvas (c : Dust.Canvas) (p : Dust.Particle) : Prop :=
  - (20 * Dust.dpr c) <= Dust.x p <= Dust.w c + 20 * Dust.dpr c /\
  - (20 * Dust.dpr c) <= Dust.y p <= Dust.h c + 20 * Dust.dpr c.

(** Two states of a particle with the same size, drift and opacity. *)
Definition sameGrain (p p' : Dust.Particle) : Prop :=
  Dust.r p' = Dust.r p /\ Dust.vx p' = Dust.vx p /\
  Dust.vy p' = Dust.vy p /\ Dust.a p' = Dust.a p.

(** ** The first script: reveal and dust *)

Module Site.

(** [x | 0]: the number is truncated towards zero and wrapped to 32 bits. *)
Definition trunc (x : R) : Z :=
  if Rle_dec 0 x then Int_part x else (- Int_part (- x))%Z.

Definition to_int32 (x : R) : Z :=
  ((trunc x + 2 ^ 31) mod 2 ^ 32 - 2 ^ 31)%Z.

(** A [[data-reveal]] element: whether it has [data-stagger], whether it
    carries [is-in], its [transitionDelay] in milliseconds if one is
    written, and whether the observer watches it. *)
Record Item : Type := mkItem {
  stagger : bool;
  is_in : bool;
  transitionDelay : option Z;
  observed : bool
}.

Fixpoint update {A : Type} (i : nat) (f : A -> A) (l : list A) : list A :=
  match l, i with
  | [], _ => []
  | a :: r, O => f a :: r
  | a :: r, S j => a :: update j f r
  end.

(** An entry handed to the observer's callback: the place of its target
    among the items, [isIntersecting], and the draw of [Math.random] taken
    if the target staggers. *)
Record Entry : Type := mkEntry {
  target : nat;
  isIntersecting : bool;
  rnd : R
}.

(** The body of the loop for an intersecting entry. *)
Definition reveal (rnd : R) (el : Item) : Item :=
  mkItem (stagger el) true
    (if stagger el then Some (Z.min 220 (to_int32 (rnd * 160)))
     else transitionDelay el)
    false.

Definition onEntry (items : list Item) (e : Entry) : list Item :=
  if isIntersecting e then update (target e) (reveal (rnd e)) items
  else items.

(** The callback of the [IntersectionObserver]. *)
Definition callback (entries : list Entry) (items : list Item) : list Item :=
  fold_left onEntry entries items.

(** [function setupReveal ()]: [hasObserver] is
    ["IntersectionObserver" in window]. *)
Definition setupReveal (prefersReduce hasObserver : bool) (items : list Item)
  : list Item :=
  if prefersReduce || negb hasObserver
  then map (fun el => mkItem (stagger el) true (transitionDelay el)
                        (observed el)) items
  else map (fun el => mkItem (stagger el) (is_in el) (transitionDelay el)
                        true) items.

(** [const rand = (a, b) => a + Math.random () * (b - a)], the draw given. *)
Definition rand (a b r : R) : R := a + r * (b - a).

(** The variables of [setupDust]. *)
Record Canvas : Type := mkCanvas {
  w : R;
  h : R;
  dpr : R;
  pts : list Dust.Particle
}.

Definition particleCount (innerWidth innerHeight : R) : Z :=
  Z.max 110 (Z.min 220 (Math_floor (innerWidth * innerHeight / 14000))).

(** The particle pushed at turn [i] of the loop of [resize]: its six draws
    are taken in the order [x], [y], [r], [a], [vx], [vy]. *)
Definition grain (w h dpr : R) (rnd : nat -> R) (i : nat) : Dust.Particle :=
  Dust.mkParticle (rnd (6 * i)%nat * w) (rnd (6 * i + 1)%nat * h)
    (rand 0.6 1.5 (rnd (6 * i + 2)%nat) * dpr)
    (rand (-0.05) 0.05 (rnd (6 * i + 4)%nat) * dpr)
    (rand (-0.05) 0.05 (rnd (6 * i + 5)%nat) * dpr)
    (rand 0.08 0.22 (rnd (6 * i + 3)%nat)).

(** [function resize ()]: the particles there were are dropped. *)
Definition resize (innerWidth innerHeight : R) (ratio : option R)
  (rnd : nat -> R) : Canvas :=
  let dpr' := Rmax 1 (Rmin 2 (Dust.ratioOrOne ratio)) in
  let w' := IZR (Math_floor (innerWidth * dpr')) in
  let h' := IZR (Math_floor (innerHeight * dpr')) in
  mkCanvas w' h' dpr'
    (map (grain w' h' dpr' rnd)
       (seq 0 (Z.to_nat (particleCount innerWidth innerHeight)))).

Definition moveGrain (c : Canvas) (p : Dust.Particle) : Dust.Particle :=
  Dust.mkParticle
    (Dust.wrap (10 * dpr c) (w c) (Dust.x p + Dust.vx p))
    (Dust.wrap (10 * dpr c) (h c) (Dust.y p + Dust.vy p))
    (Dust.r p) (Dust.vx p) (Dust.vy p) (Dust.a p).

(** [function frame ()]: the variables it leaves and the values given to
    [globalAlpha], one for each particle. *)
Definition frame (c : Canvas) : Canvas * list R :=
  let ps := map (moveGrain c) (pts c) in
  (mkCanvas (w c) (h c) (dpr c) ps, map Dust.a ps).

End Site.

(** An item as it was and as it is later: the same [data-stagger], still
    revealed if it was, and its delay either untouched or written for a
    staggering, revealed item with a value from 0 to 159. *)
Definition grown (a b : Site.Item) : Prop :=
  Site.stagger b = Site.stagger a /\
  (Site.is_in a = true -> Site.is_in b = true) /\
  (Site.transitionDelay b = Site.transitionDelay a \/
   (Site.stagger a = true /\ Site.is_in b = true /\
    exists d, Site.transitionDelay b = Some d /\ (0 <= d <= 159)%Z)).

(** A particle of the first script is within the canvas and its border of
    10 (scaled) pixels, and its opacity is the one it was spawned with. *)
Definition nearSite (c : Site.Canvas) (p : Dust.Particle) : Prop :=
  - (10 * Site.dpr c) <= Dust.x p <= Site.w c + 10 * Site.dpr c /\
  - (10 * Site.dpr c) <= Dust.y p <= Site.h c + 10 * Site.dpr c /\
  0.08 <= Dust.a p <= 0.22.

(** What [Site.resize] spawns. *)
Definition freshGrain (c : Site.Canvas) (p : Dust.Particle) : Prop :=
  0 <= Dust.x p <= Site.w c /\ 0 <= Dust.y p <= Site.h c /\
  0.6 * Site.dpr c <= Dust.r p <= 1.5 * Site.dpr c /\
  Rabs (Dust.vx p) <= 0.05 * Site.dpr c /\
  Rabs (Dust.vy p) <= 0.05 * Site.dpr c /\
  0.08 <= Dust.a p <= 0.22.

(** * Properties *)

(** ** Clamping and smoothing *)

Lemma clamp_bounds (v a b : R) : a <= b -> a <= clamp v a b <= b.
Proof.
  intros Hab. unfold clamp, Rmax, Rmin.
  destruct (Rle_dec b v); destruct (Rle_dec a _); lra.
Qed.

Lemma clamp_id (v a b : R) : a <= v <= b -> clamp v a b = v.
Proof.
  intros [Ha Hb]. unfold clamp, Rmax, Rmin.
  destruct (Rle_dec b v); destruct (Rle_dec a _); lra.
Qed.

Lemma clamp_high (v a b : R) : a <= b -> b <= v -> clamp v a b = b.
Proof.
  intros Hab Hv. unfold clamp, Rmax, Rmin.
  destruct (Rle_dec b v); destruct (Rle_dec a _); lra.
Qed.

Lemma clamp_low (v a b : R) : a <= b -> v <= a -> clamp v a b = a.
Proof.
  intros Hab Hv. unfold clamp, Rmax, Rmin.
  destruct (Rle_dec b v); destruct (Rle_dec a _); lra.
Qed.

Lemma clamp_abs (v b : R) : 0 <= b -> Rabs (clamp v (- b) b) <= b.
Proof.
  intros Hb. apply Rabs_le. apply clamp_bounds. lra.
Qed.

Lemma Rabs_le_between (a b : R) : Rabs a <= b -> - b <= a <= b.
Proof.
  unfold Rabs. destruct (Rcase_abs a); lra.
Qed.

Lemma lerp_between (a b t : R) :
  0 <= t <= 1 -> 0 <= a <= 1 -> 0 <= b <= 1 -> 0 <= lerp a b t <= 1.
Proof.
  intros Ht Ha Hb. unfold lerp.
  replace (a + (b - a) * t) with (a * (1 - t) + b * t) by ring.
  split; nra.
Qed.

Lemma num_lt_true (a b : R) : num_lt a b = true <-> a < b.
Proof. unfold num_lt. destruct (Rlt_dec a b); split; intros; try easy. Qed.

Lemma num_lt_false (a b : R) : num_lt a b = false <-> b <= a.
Proof.
  unfold num_lt. destruct (Rlt_dec a b); split; intros; try easy; lra.
Qed.

Lemma num_gt_true (a b : R) : num_gt a b = true <-> a > b.
Proof. unfold num_gt. rewrite num_lt_true. lra. Qed.

Lemma num_gt_false (a b : R) : num_gt a b = false <-> a <= b.
Proof. unfold num_gt. apply num_lt_false. Qed.

Lemma MAX_below_quarter_turn : MAX < PI / 2.
Proof. unfold MAX. pose proof PI2_1. lra. Qed.

(** ** The angle of the pointer *)

Lemma atan2_upper_half (y x : R) : 0 < y -> x <= 0 -> PI / 2 <= Math_atan2 y x.
Proof.
  intros Hy Hx. unfold Math_atan2.
  destruct (Rlt_dec 0 x); [lra|].
  destruct (Rlt_dec x 0).
  - destruct (Rle_dec 0 y); [|lra].
    pose proof (atan_bound (y / x)). lra.
  - destruct (Rlt_dec 0 y); lra.
Qed.

Lemma atan2_above (x : R) : x < 0 -> Math_atan2 0 x = PI.
Proof.
  intros Hx. unfold Math_atan2.
  destruct (Rlt_dec 0 x); [lra|].
  destruct (Rlt_dec x 0); [|lra].
  destruct (Rle_dec 0 0); [|lra].
  unfold Rdiv. rewrite Rmult_0_l, atan_0. lra.
Qed.

Lemma atan2_origin : Math_atan2 0 0 = 0.
Proof.
  unfold Math_atan2.
  destruct (Rlt_dec 0 0); [lra|]. reflexivity.
Qed.

(** C10. [angleFromPointer] always returns an angle in [[-MAX, MAX]]; with
    the pointer level with or above the pivot and off its vertical it is
    [MAX] on the pointer's side; at the pivot itself it is [0]; straight
    above the pivot it is [+MAX]. *)
Theorem angleFromPointer_range_and_saturation (l : Lamp) (x y : R) :
  (- MAX <= angleFromPointer l x y <= MAX) /\
  (y - pivotY l <= 0 -> x - pivotX l <> 0 ->
   angleFromPointer l x y = Math_sign (x - pivotX l) * MAX) /\
  (x - pivotX l = 0 -> y - pivotY l = 0 -> angleFromPointer l x y = 0) /\
  (x - pivotX l = 0 -> y - pivotY l < 0 -> angleFromPointer l x y = MAX).
Proof.
  pose proof MAX_below_quarter_turn as HM.
  assert (HM0 : 0 < MAX) by (unfold MAX; lra).
  repeat split.
  - apply clamp_bounds. lra.
  - apply clamp_bounds. lra.
  - intros Hdy Hdx. unfold angleFromPointer.
    assert (Habs : 0 < Rabs (x - pivotX l)) by (apply Rabs_pos_lt; exact Hdx).
    pose proof (atan2_upper_half _ _ Habs Hdy) as Hth.
    destruct (Req_dec_T (x - pivotX l) 0) as [E|_]; [contradiction|].
    unfold Math_sign.
    destruct (Rlt_dec 0 (x - pivotX l)) as [Hp|Hnp].
    + rewrite clamp_high; lra.
    + destruct (Rlt_dec (x - pivotX l) 0) as [Hn|Hnn]; [|lra].
      rewrite clamp_low; lra.
  - intros Hdx Hdy. unfold angleFromPointer.
    rewrite Hdx, Hdy, Rabs_R0, atan2_origin.
    destruct (Req_dec_T 0 0); [|lra].
    rewrite clamp_id; lra.
  - intros Hdx Hdy. unfold angleFromPointer.
    rewrite Hdx, Rabs_R0, (atan2_above _ Hdy).
    destruct (Req_dec_T 0 0); [|lra].
    rewrite clamp_high; lra.
Qed.

Lemma angleFromPointer_range_and_saturation_witness :
  angleFromPointer lamp0 (-3) 0 = Math_sign (-3 - pivotX lamp0) * MAX /\
  angleFromPointer lamp0 0 0 = 0 /\
  angleFromPointer lamp0 0 (-5) = MAX.
Proof.
  destruct (angleFromPointer_range_and_saturation lamp0 (-3) 0)
    as (_ & H1 & _ & _).
  destruct (angleFromPointer_range_and_saturation lamp0 0 0)
    as (_ & _ & H2 & _).
  destruct (angleFromPointer_range_and_saturation lamp0 0 (-5))
    as (_ & _ & _ & H3).
  split; [|split].
  - apply H1; simpl; lra.
  - apply H2; simpl; lra.
  - apply H3; simpl; lra.
Defined.

(** ** What a statement leaves alone *)

Lemma keeps_ret {X A} (view : Session -> X) (a : A) : keeps view (ret a).
Proof. intros s. reflexivity. Qed.

Lemma keeps_get {X A} (view : Session -> X) (f : Session -> A) :
  keeps view (get f).
Proof. intros s. reflexivity. Qed.

Lemma keeps_bind {X A B} (view : Session -> X) (m : JS A) (k : A -> JS B) :
  keeps view m -> (forall a, keeps view (k a)) -> keeps view (bind m k).
Proof.
  intros Hm Hk s. unfold bind. specialize (Hm s).
  destruct (m s) as [s1 [a|]]; simpl in *.
  - rewrite Hk. exact Hm.
  - exact Hm.
Qed.

Lemma keeps_try_catch {X} (view : Session -> X) (m : JS unit) :
  keeps view m -> keeps view (try_catch m).
Proof.
  intros Hm s. unfold try_catch. specialize (Hm s).
  destruct (m s) as [s1 c]. exact Hm.
Qed.

Lemma keeps_modify {X} (view : Session -> X) (f : Session -> Session) :
  (forall s, view (f s) = view s) -> keeps view (modify f).
Proof. intros Hf s. apply Hf. Qed.

Lemma keeps_if {X A} (view : Session -> X) (b : bool) (m1 m2 : JS A) :
  keeps view m1 -> keeps view m2 -> keeps view (if b then m1 else m2).
Proof. destruct b; auto. Qed.

Ltac keeps_steps :=
  repeat first
    [ apply keeps_ret | apply keeps_get
    | apply keeps_bind; [ | intros ? ]
    | apply keeps_try_catch
    | apply keeps_if
    | apply keeps_modify; intros ?; reflexivity ].

Lemma call_keeps_lamp env : keeps lamp (call env).
Proof. intros s. unfold call. destruct (faults env _); reflexivity. Qed.

Lemma call_keeps_mood env : keeps mood (call env).
Proof. intros s. unfold call. destruct (faults env _); reflexivity. Qed.

Lemma buildHum_keeps_lamp env : keeps lamp (buildHum env).
Proof.
  unfold buildHum, create, connect, start, setTargetAtTime, set_value,
    set_buffer.
  repeat first [ apply call_keeps_lamp | progress keeps_steps ].
Qed.

Lemma ensureHum_keeps_lamp env : keeps lamp (ensureHum env).
Proof.
  intros s. unfold ensureHum.
  destruct (audioStarted (mood s)); [reflexivity|].
  destruct (negb (hasAC env)); [reflexivity|].
  apply (keeps_try_catch lamp), buildHum_keeps_lamp.
Qed.

Lemma audioTick_keeps_lamp env b t : keeps lamp (audioTick env b t).
Proof.
  intros s. unfold audioTick.
  destruct (audioStarted (mood s)); [|reflexivity].
  destruct (audio (mood s)) as [h|]; [|reflexivity].
  assert (H : forall m : JS unit, keeps lamp m -> forall s, lamp (fst (m s)) = lamp s)
    by (intros m Hm; exact Hm).
  apply H.
  unfold resume, setTargetAtTime.
  repeat first [ apply call_keeps_lamp | progress keeps_steps ].
Qed.

Lemma audioTick_keeps_mood env b t : keeps mood (audioTick env b t).
Proof.
  intros s. unfold audioTick.
  destruct (audioStarted (mood s)); [|reflexivity].
  destruct (audio (mood s)) as [h|]; [|reflexivity].
  assert (H : forall m : JS unit, keeps mood m -> forall s, mood (fst (m s)) = mood s)
    by (intros m Hm; exact Hm).
  apply H.
  unfold resume, setTargetAtTime.
  repeat first [ apply call_keeps_mood | progress keeps_steps ].
Qed.

(** ** Frames and the motion of the lamp *)

Lemma keeps_lamp_motion {A} (m : JS A) : keeps lamp m -> keeps motion m.
Proof. intros H s. unfold motion. rewrite H. reflexivity. Qed.

Lemma frameTail_keeps_motion env i out : keeps motion (frameTail env i out).
Proof.
  unfold frameTail.
  apply keeps_bind; [apply keeps_lamp_motion, audioTick_keeps_lamp|intros _].
  apply keeps_bind; [|intros _; apply keeps_ret].
  apply keeps_modify. intros s0. unfold motion, with_lamp. simpl.
  destruct (num_gt _ _); reflexivity.
Qed.

Lemma frameTail_keeps_mood env i out : keeps mood (frameTail env i out).
Proof.
  unfold frameTail.
  apply keeps_bind; [apply audioTick_keeps_mood|intros _].
  apply keeps_bind; [|intros _; apply keeps_ret].
  apply keeps_modify. intros s0. reflexivity.
Qed.

Lemma frame_after_core env i s :
  motion (fst (frame env i s)) = motion (fst (frameCore i s)) /\
  mood (fst (frame env i s)) = mood (fst (frameCore i s)).
Proof.
  unfold frame.
  destruct (frameCore i s) as [s1 out] eqn:E. simpl fst.
  split.
  - apply (frameTail_keeps_motion env i out s1).
  - apply (frameTail_keeps_mood env i out s1).
Qed.

Lemma frame_motion env i s :
  motion (fst (frame env i s)) =
  (theta (frameLamp (f_t i) s), omega (frameLamp (f_t i) s),
   grabbing (frameLamp (f_t i) s)).
Proof.
  destruct (frame_after_core env i s) as [H _]. rewrite H. reflexivity.
Qed.

Lemma frameCore_anx i s :
  anx (mood (fst (frameCore i s))) =
  lerp (anx (mood s)) (frameTarget (f_t i) (mood s) (frameLamp (f_t i) s)) 0.06.
Proof.
  unfold frameCore. simpl.
  destruct (_ && _); reflexivity.
Qed.

Lemma frame_anx env i s :
  anx (mood (fst (frame env i s))) =
  lerp (anx (mood s)) (frameTarget (f_t i) (mood s) (frameLamp (f_t i) s)) 0.06.
Proof.
  destruct (frame_after_core env i s) as [_ H]. rewrite H.
  apply frameCore_anx.
Qed.

Lemma frameLamp_free t s :
  grabbing (lamp s) = false ->
  frameLamp t s =
  swing (breezeAt t (anx (mood s))) (Rmin 0.03 ((t - lastT (lamp s)) / 1000))
    (set_lastT t (lamp s)).
Proof.
  intros Hg. unfold frameLamp, physics.
  change (grabbing (set_lastT t (lamp s))) with (grabbing (lamp s)).
  rewrite Hg. reflexivity.
Qed.

Lemma frameLamp_held t s :
  grabbing (lamp s) = true -> frameLamp t s = set_lastT t (lamp s).
Proof.
  intros Hg. unfold frameLamp, physics.
  change (grabbing (set_lastT t (lamp s))) with (grabbing (lamp s)).
  rewrite Hg. reflexivity.
Qed.

Lemma swing_theta_range breeze dt l :
  - MAX <= theta (swing breeze dt l) <= MAX.
Proof. unfold swing. simpl. apply clamp_bounds. unfold MAX. lra. Qed.

Lemma integrated_range breeze dt l :
  - OMEGA_MAX <= integrated breeze dt l <= OMEGA_MAX.
Proof. unfold integrated. apply clamp_bounds. unfold OMEGA_MAX. lra. Qed.

Lemma swing_omega_range breeze dt l :
  - OMEGA_MAX <= omega (swing breeze dt l) <= OMEGA_MAX.
Proof.
  pose proof (integrated_range breeze dt l) as H.
  unfold swing. simpl. unfold OMEGA_MAX in *.
  destruct (num_gt _ _); lra.
Qed.

(** C2. After the physics of a frame in which the lamp is not held, [theta]
    is in [[-MAX, MAX]] and [omega] in [[-OMEGA_MAX, OMEGA_MAX]], whatever
    the push of the pointer, the breeze and the time step; and when [theta]
    is at its bound, [omega] keeps 78% of its integrated value. *)
Theorem swing_clamped (breeze dt : R) (l : Lamp) :
  MAX = 0.72 /\ OMEGA_MAX = 3.6 /\
  (- MAX <= theta (swing breeze dt l) <= MAX) /\
  (- OMEGA_MAX <= omega (swing breeze dt l) <= OMEGA_MAX) /\
  (Rabs (theta (swing breeze dt l)) = MAX ->
   omega (swing breeze dt l) = 0.78 * integrated breeze dt l) /\
  (forall env i s, grabbing (lamp s) = false ->
     let l' := lamp (step env (EFrame i) s) in
     Rabs (theta l') <= MAX /\ Rabs (omega l') <= OMEGA_MAX).
Proof.
  split; [reflexivity|]. split; [reflexivity|].
  split; [apply swing_theta_range|].
  split; [apply swing_omega_range|].
  split.
  - unfold swing. simpl. intros H.
    destruct (num_gt _ _) eqn:E; [lra|].
    apply num_gt_false in E. unfold MAX in *. lra.
  - intros env i s Hg. simpl.
    pose proof (frame_motion env i s) as Hm. unfold motion in Hm.
    injection Hm as Ht Ho _. rewrite Ht, Ho.
    rewrite (frameLamp_free _ _ Hg).
    split; apply Rabs_le.
    + apply swing_theta_range.
    + apply swing_omega_range.
Qed.

Lemma swing_clamped_witness :
  omega (swing 0 0 lampAtLimit) = 0.78 * integrated 0 0 lampAtLimit /\
  Rabs (theta (lamp (step quietEnv (EFrame frameIn0) calmSession))) <= MAX.
Proof.
  destruct (swing_clamped 0 0 lampAtLimit) as (_ & _ & _ & _ & H & H').
  split.
  - apply H. unfold swing. simpl.
    rewrite Rmult_0_r, Rplus_0_r.
    rewrite clamp_id by (unfold MAX; lra).
    apply Rabs_right. unfold MAX. lra.
  - apply (H' quietEnv frameIn0 calmSession). reflexivity.
Defined.

(** ** The kick at the start of a grab *)

Lemma ensureHum_normal env s : snd (ensureHum env s) = Normal tt.
Proof.
  unfold ensureHum.
  destruct (audioStarted (mood s)); [reflexivity|].
  destruct (negb (hasAC env)); [reflexivity|].
  unfold try_catch. destruct (buildHum env s). reflexivity.
Qed.

Lemma pointerdown_lamp env x now now' s :
  lamp (fst (pointerdown env x now now' s)) =
  set_omega
    (omega (lamp s) + clamp ((x - pivotX (lamp s)) / 140) (-1) 1 * 0.75)
    (set_grab true now (theta (lamp s)) (lamp s)).
Proof.
  unfold pointerdown, bind.
  pose proof (ensureHum_normal env s) as Hn.
  pose proof (ensureHum_keeps_lamp env s) as Hl.
  destruct (ensureHum env s) as [s1 c]. simpl in Hn, Hl. subst c.
  simpl. rewrite Hl. reflexivity.
Qed.

Lemma pointerdown_mood env x now now' s :
  mood (fst (pointerdown env x now now' s)) =
  set_spikeUntil (now' + 260) (mood (fst (ensureHum env s))).
Proof.
  unfold pointerdown, bind.
  pose proof (ensureHum_normal env s) as Hn.
  destruct (ensureHum env s) as [s1 c]. simpl in Hn. subst c.
  reflexivity.
Qed.

Lemma pointermove_omega_range x y now s :
  grabbing (lamp s) = true ->
  Rabs (omega (lamp (pointermove x y now s))) <= OMEGA_MAX.
Proof.
  intros Hg. unfold pointermove. rewrite Hg. simpl.
  apply clamp_abs. unfold OMEGA_MAX. lra.
Qed.

Lemma endGrab_omega_range now s :
  grabbing (lamp s) = true ->
  Rabs (omega (lamp (endGrab now s))) <= OMEGA_MAX.
Proof.
  intros Hg. unfold endGrab. rewrite Hg. simpl.
  apply clamp_abs. unfold OMEGA_MAX. lra.
Qed.

Lemma frame_held_omega env i s :
  grabbing (lamp s) = true ->
  omega (lamp (step env (EFrame i) s)) = omega (lamp s).
Proof.
  intros Hg. simpl.
  pose proof (frame_motion env i s) as Hm. unfold motion in Hm.
  injection Hm as _ Ho _. rewrite Ho, (frameLamp_held _ _ Hg). reflexivity.
Qed.

Lemma step_keeps_omega_clamped env e s :
  is_pointerdown e = false ->
  Rabs (omega (lamp s)) <= OMEGA_MAX ->
  Rabs (omega (lamp (step env e s))) <= OMEGA_MAX.
Proof.
  intros He Hs. destruct e; try discriminate He.
  - destruct (grabbing (lamp s)) eqn:Hg.
    + rewrite (frame_held_omega _ _ _ Hg). exact Hs.
    + simpl. pose proof (frame_motion env i s) as Hm. unfold motion in Hm.
      injection Hm as _ Ho _. rewrite Ho, (frameLamp_free _ _ Hg).
      apply Rabs_le, swing_omega_range.
  - simpl. destruct (grabbing (lamp s)) eqn:Hg.
    + apply pointermove_omega_range, Hg.
    + unfold pointermove. rewrite Hg. exact Hs.
  - exact Hs.
  - simpl. destruct (grabbing (lamp s)) eqn:Hg.
    + apply endGrab_omega_range, Hg.
    + unfold endGrab. rewrite Hg. exact Hs.
  - exact Hs.
  - exact Hs.
Qed.

(** C9, as stated, fails: once the lamp is held a frame skips the physics,
    so the kicked [omega] is not brought back by the next frame. *)
Lemma grab_kick_frame_counterexample :
  Rabs (omega (lamp fastSession)) <= OMEGA_MAX /\
  ~ Rabs (omega (lamp (step quietEnv (EFrame frameIn0)
                         (step quietEnv (EPointerDown 140 0 0) fastSession))))
      <= OMEGA_MAX.
Proof.
  split.
  - simpl. unfold OMEGA_MAX. rewrite Rabs_right; lra.
  - rewrite frame_held_omega.
    + change (step quietEnv (EPointerDown 140 0 0) fastSession)
        with (fst (pointerdown quietEnv 140 0 0 fastSession)).
      rewrite pointerdown_lamp. simpl.
      replace ((140 - 0) / 140) with 1 by lra.
      rewrite clamp_id by lra.
      unfold OMEGA_MAX. rewrite Rabs_right; lra.
    + change (step quietEnv (EPointerDown 140 0 0) fastSession)
        with (fst (pointerdown quietEnv 140 0 0 fastSession)).
      rewrite pointerdown_lamp. reflexivity.
Qed.

(** C9, amended.  The kick of [pointerdown] is the one write of [omega] that
    can leave it outside [[-OMEGA_MAX, OMEGA_MAX]]: every other event keeps
    it inside.  From [|omega| <= OMEGA_MAX] the handler leaves
    [|omega| <= OMEGA_MAX + 0.75] and the lamp held; frames leave that
    [omega] as it is while the lamp is held, and the next pointer move on
    the lamp, or the release, brings it back inside. *)
Theorem grab_kick_bound (env : AudioEnv) (x now now' : R) (s : Session) :
  Rabs (omega (lamp s)) <= OMEGA_MAX ->
  let s1 := step env (EPointerDown x now now') s in
  Rabs (omega (lamp s1)) <= OMEGA_MAX + 0.75 /\
  omega (lamp s1) =
    omega (lamp s) + clamp ((x - pivotX (lamp s)) / 140) (-1) 1 * 0.75 /\
  grabbing (lamp s1) = true /\
  (forall i, omega (lamp (step env (EFrame i) s1)) = omega (lamp s1)) /\
  (forall cx cy t,
     Rabs (omega (lamp (step env (EPointerMove cx cy t) s1))) <= OMEGA_MAX) /\
  (forall t, Rabs (omega (lamp (step env (EPointerUp t) s1))) <= OMEGA_MAX) /\
  (forall e s', is_pointerdown e = false ->
     Rabs (omega (lamp s')) <= OMEGA_MAX ->
     Rabs (omega (lamp (step env e s'))) <= OMEGA_MAX).
Proof.
  intros Hs s1.
  assert (Hl : lamp s1 =
    set_omega
      (omega (lamp s) + clamp ((x - pivotX (lamp s)) / 140) (-1) 1 * 0.75)
      (set_grab true now (theta (lamp s)) (lamp s)))
    by apply pointerdown_lamp.
  assert (Hg : grabbing (lamp s1) = true) by (rewrite Hl; reflexivity).
  repeat split.
  - rewrite Hl. simpl.
    pose proof (clamp_bounds ((x - pivotX (lamp s)) / 140) (-1) 1) as Hc.
    apply Rabs_le. apply Rabs_le_between in Hs. lra.
  - rewrite Hl. reflexivity.
  - exact Hg.
  - intros i. apply frame_held_omega, Hg.
  - intros cx cy t. apply pointermove_omega_range, Hg.
  - intros t. apply endGrab_omega_range, Hg.
  - intros e s'. apply step_keeps_omega_clamped.
Qed.

Lemma grab_kick_bound_witness :
  Rabs (omega (lamp (step quietEnv (EPointerDown 140 0 0) fastSession)))
    <= OMEGA_MAX + 0.75.
Proof.
  apply (grab_kick_bound quietEnv 140 0 0 fastSession).
  simpl. unfold OMEGA_MAX. rewrite Rabs_right; lra.
Defined.

(** ** Anxiety *)

Lemma call_keeps_view {X} (view : Session -> X) env :
  (forall f s, view (with_web f s) = view s) -> keeps view (call env).
Proof.
  intros H s. unfold call. destruct (faults env _); simpl; apply H.
Qed.

Lemma ensureHum_keeps_anx env : keeps (fun s => anx (mood s)) (ensureHum env).
Proof.
  intros s. unfold ensureHum.
  destruct (audioStarted (mood s)); [reflexivity|].
  destruct (negb (hasAC env)); [reflexivity|].
  apply (keeps_try_catch (fun s => anx (mood s))).
  unfold buildHum, create, connect, start, setTargetAtTime, set_value,
    set_buffer.
  repeat first
    [ apply call_keeps_view; intros ? ?; reflexivity | progress keeps_steps ].
Qed.

Lemma anxTarget_range near speed spike : 0 <= anxTarget near speed spike <= 1.
Proof. unfold anxTarget. apply clamp_bounds. lra. Qed.

Lemma frameTarget_range t m l : 0 <= frameTarget t m l <= 1.
Proof. unfold frameTarget. apply anxTarget_range. Qed.

(** The one write of the anxiety: a frame smooths it towards the frame's
    target; no other event changes it. *)
Lemma step_anx env e s :
  anx (mood (step env e s)) =
  match e with
  | EFrame i =>
      lerp (anx (mood s))
        (frameTarget (f_t i) (mood s) (frameLamp (f_t i) s)) 0.06
  | _ => anx (mood s)
  end.
Proof.
  destruct e; simpl.
  - apply frame_anx.
  - rewrite pointerdown_mood. simpl. apply (ensureHum_keeps_anx env s).
  - unfold pointermove. destruct (negb _); reflexivity.
  - reflexivity.
  - unfold endGrab. destruct (negb _); reflexivity.
  - reflexivity.
  - reflexivity.
Qed.

Lemma step_anx_range env e s :
  0 <= anx (mood s) <= 1 -> 0 <= anx (mood (step env e s)) <= 1.
Proof.
  intros H. rewrite step_anx. destruct e; try exact H.
  apply lerp_between; [lra | exact H | apply frameTarget_range].
Qed.

Lemma run_anx_range env es s :
  0 <= anx (mood s) <= 1 -> 0 <= anx (mood (run env es s)) <= 1.
Proof.
  revert s. induction es as [|e es IH]; intros s H; simpl.
  - exact H.
  - apply IH, step_anx_range, H.
Qed.

Lemma pinned_closed_form env fs :
  forall s, pinned env fs s ->
  anx (mood (run env (map EFrame fs) s)) =
  1 - (1 - anx (mood s)) * 0.94 ^ length fs.
Proof.
  induction fs as [|i r IH]; intros s Hp.
  - simpl. ring.
  - destruct Hp as [H1 Hr].
    change (run env (map EFrame (i :: r)) s)
      with (run env (map EFrame r) (step env (EFrame i) s)).
    rewrite (IH _ Hr), step_anx, H1.
    unfold lerp. cbn [length pow]. lra.
Qed.

Lemma pinned_app env fs1 :
  forall fs2 s, pinned env (fs1 ++ fs2) s ->
  pinned env fs1 s /\ pinned env fs2 (run env (map EFrame fs1) s).
Proof.
  induction fs1 as [|i r IH]; intros fs2 s Hp.
  - split; [exact I | exact Hp].
  - destruct Hp as [H1 Hr]. destruct (IH _ _ Hr) as [Ha Hb].
    split; [split; assumption | exact Hb].
Qed.

Lemma pow_094_range n : 0 < 0.94 ^ n <= 1.
Proof.
  induction n as [|n IH]; simpl; lra.
Qed.

Lemma tense_target_pinned :
  pinned quietEnv [frameIn0] tenseSession.
Proof.
  split; [|exact I].
  rewrite frameLamp_held by reflexivity.
  unfold frameTarget, anxTarget.
  cbn [set_lastT tenseSession mood lamp spikeUntil set_spikeUntil frameIn0
       f_t omega set_grabbing set_grab set_omega].
  set (near := clamp (1 - _ / _) 0 1).
  assert (Hn : 0 <= near <= 1) by (apply clamp_bounds; lra).
  assert (Hs : spikeAt 16 1000 = 1).
  { unfold spikeAt. destruct (num_lt 16 1000) eqn:E.
    - apply clamp_high; lra.
    - apply num_lt_false in E. lra. }
  assert (Hv : clamp (Rabs OMEGA_MAX / OMEGA_MAX) 0 1 = 1).
  { unfold OMEGA_MAX. rewrite Rabs_right by lra. apply clamp_high; lra. }
  rewrite Hs, Hv. apply clamp_high; lra.
Qed.

Lemma held_frame_target :
  frameTarget 16 (mood heldSession) (frameLamp 16 heldSession) = 0.154.
Proof.
  rewrite frameLamp_held by reflexivity.
  unfold frameTarget, anxTarget, spikeAt, Math_hypot.
  cbn [set_lastT heldSession mood lamp spikeUntil set_anx state0 omega
       set_grabbing set_grab lamp0 pivotX pivotY px py theta scaledL
       scaledNear].
  rewrite sin_0, cos_0.
  replace ((0 - (0 + 0 * BASE_L)) * (0 - (0 + 0 * BASE_L))
           + (0 - (0 + 1 * BASE_L)) * (0 - (0 + 1 * BASE_L)))
    with (Rsqr BASE_L) by (unfold Rsqr; ring).
  rewrite sqrt_Rsqr by (unfold BASE_L; lra).
  assert (Hn : clamp (1 - BASE_L / BASE_NEAR) 0 1 = 0.09).
  { rewrite clamp_id; unfold BASE_L, BASE_NEAR; lra. }
  assert (Hv : clamp (Rabs 0 / OMEGA_MAX) 0 1 = 0).
  { rewrite Rabs_R0. rewrite clamp_id; unfold OMEGA_MAX; lra. }
  assert (Hs : num_lt 16 0 = false) by (apply num_lt_false; lra).
  rewrite Hn, Hv, Hs. rewrite clamp_id by lra. lra.
Qed.

(** C1. The anxiety starts at 0 and stays in [[0, 1]] through every run of
    events; no event but a frame writes it, and a frame writes
    [lerp (anx, target, 0.06)], where
    [target = clamp (0.10 + proximity * 0.60 + speed * 0.85 + spike * 0.75, 0, 1)]
    is computed from the lamp after the physics of that frame: [proximity]
    from the distance of the pointer to the bulb, [speed] from the angular
    velocity and [spike] from the time left until [spikeUntil]; and over
    frames whose target is 1 it never decreases, never exceeds 1 and closes
    the gap to 1 by the factor 0.94 per frame. *)
Theorem anxiety_bounds_and_smoothing (env : AudioEnv) :
  (forall rnd iw now left top width parsed,
     anx (mood (boot rnd iw now left top width parsed)) = 0) /\
  (forall es rnd iw now left top width parsed,
     0 <= anx (mood (run env es (boot rnd iw now left top width parsed)))
       <= 1) /\
  (forall e s, 0 <= anx (mood s) <= 1 -> 0 <= anx (mood (step env e s)) <= 1) /\
  (forall e s, (forall i, e <> EFrame i) ->
     anx (mood (step env e s)) = anx (mood s)) /\
  (forall i s,
     let t := f_t i in
     let l := physics t (Rmin 0.03 ((t - lastT (lamp s)) / 1000))
                (anx (mood s)) (set_lastT t (lamp s)) in
     let bulbX := pivotX l + sin (theta l) * scaledL l in
     let bulbY := pivotY l + cos (theta l) * scaledL l in
     let proximity :=
       clamp (1 - Math_hypot (px l - bulbX) (py l - bulbY) / scaledNear l)
         0 1 in
     let speed := clamp (Rabs (omega l) / OMEGA_MAX) 0 1 in
     let spike :=
       if num_lt t (spikeUntil (mood s))
       then clamp ((spikeUntil (mood s) - t) / 260) 0 1 else 0 in
     let target :=
       clamp (0.10 + proximity * 0.60 + speed * 0.85 + spike * 0.75) 0 1 in
     frameTarget t (mood s) (frameLamp t s) = target /\
     anx (mood (step env (EFrame i) s)) =
       anx (mood s) + (target - anx (mood s)) * 0.06) /\
  (forall fs1 fs2 s,
     0 <= anx (mood s) <= 1 ->
     pinned env (fs1 ++ fs2) s ->
     let a1 := anx (mood (run env (map EFrame fs1) s)) in
     let a2 := anx (mood (run env (map EFrame (fs1 ++ fs2)) s)) in
     a2 = 1 - (1 - anx (mood s)) * 0.94 ^ length (fs1 ++ fs2) /\
     anx (mood s) <= a1 /\ a1 <= a2 /\ a2 <= 1).
Proof.
  split; [reflexivity|].
  split; [intros; apply run_anx_range; simpl; lra|].
  split; [intros e s; apply step_anx_range|].
  split.
  { intros e s He. rewrite step_anx.
    destruct e; try reflexivity. exfalso. apply (He i). reflexivity. }
  split.
  { intros i s. cbv zeta. rewrite step_anx. split; reflexivity. }
  intros fs1 fs2 s Ha Hp a1 a2.
  destruct (pinned_app _ _ _ _ Hp) as [Hp1 Hp2].
  assert (E2 : a2 = 1 - (1 - anx (mood s)) * 0.94 ^ length (fs1 ++ fs2))
    by (apply pinned_closed_form, Hp).
  assert (E1 : a1 = 1 - (1 - anx (mood s)) * 0.94 ^ length fs1)
    by (apply pinned_closed_form, Hp1).
  split; [exact E2|].
  rewrite E2, E1, length_app, pow_add.
  pose proof (pow_094_range (length fs1)) as H1.
  pose proof (pow_094_range (length fs2)) as H2.
  set (p1 := 0.94 ^ length fs1) in *.
  set (p2 := 0.94 ^ length fs2) in *.
  assert (G1 : 0 <= (1 - anx (mood s)) * p1) by (apply Rmult_le_pos; lra).
  assert (G2 : (1 - anx (mood s)) * p1 <= 1 - anx (mood s)) by nra.
  assert (G3 : 0 <= (1 - anx (mood s)) * p1 * p2)
    by (apply Rmult_le_pos; lra).
  assert (G4 : (1 - anx (mood s)) * p1 * p2 <= (1 - anx (mood s)) * p1)
    by nra.
  rewrite <- Rmult_assoc.
  repeat split; lra.
Qed.

Lemma anxiety_bounds_and_smoothing_witness :
  anx (mood (run quietEnv (map EFrame ([] ++ [frameIn0])) tenseSession)) =
  1 - (1 - anx (mood tenseSession)) * 0.94 ^ length ([] ++ [frameIn0]) /\
  0 <= anx (mood (step quietEnv (EFrame frameIn0) tenseSession)) <= 1 /\
  anx (mood (step quietEnv (EFrame frameIn0) heldSession)) = 0.47924 /\
  anx (mood (step quietEnv (EPointerUp 20) heldSession)) = 0.5.
Proof.
  destruct (anxiety_bounds_and_smoothing quietEnv)
    as (_ & _ & Hstep & Hother & Hframe & Hpin).
  split; [|split; [|split]].
  - apply (Hpin [] [frameIn0] tenseSession).
    + simpl. lra.
    + exact tense_target_pinned.
  - apply Hstep. simpl. lra.
  - destruct (Hframe frameIn0 heldSession) as [Ht Ha].
    rewrite Ha, <- Ht.
    change (f_t frameIn0) with 16. rewrite held_frame_target.
    change (anx (mood heldSession)) with 0.5. lra.
  - rewrite (Hother (EPointerUp 20) heldSession) by discriminate.
    reflexivity.
Defined.

(** ** The beam *)

Lemma smoothstep_range (a b x : R) : 0 <= smoothstep a b x <= 1.
Proof.
  unfold smoothstep.
  pose proof (clamp_bounds ((x - a) / (b - a)) 0 1) as H.
  set (t := clamp _ 0 1) in *.
  assert (Ht : 0 <= t <= 1) by (apply H; lra).
  split.
  - apply Rmult_le_pos; [apply Rmult_le_pos|]; lra.
  - assert (0 <= (1 - t) * (1 - t) * (1 + 2 * t))
      by (apply Rmult_le_pos; [apply Rmult_le_pos|]; lra).
    lra.
Qed.

Lemma beam_half_angle_tan : 0 < tan BEAM_HALF_ANGLE.
Proof.
  apply tan_gt_0; unfold BEAM_HALF_ANGLE; pose proof PI2_1; lra.
Qed.

Lemma flicker_range (t a : R) (blackout : bool) :
  0 <= (0.90 + 0.10 * sin (t * (0.010 + a * 0.010))) *
       (1 - (if blackout then 0.92 else 0)) <= 1.
Proof.
  pose proof (SIN_bound (t * (0.010 + a * 0.010))) as [Hl Hu].
  destruct blackout; split; nra.
Qed.

Lemma beamVis_range beamMax t a blackout along perp :
  0 <= perp -> 0 <= beamVis beamMax t a blackout along perp <= 1.
Proof.
  intros Hp. unfold beamVis.
  destruct (num_gt along 0 && num_lt along beamMax); [|lra].
  pose proof (flicker_range t a blackout) as Hf.
  set (fl := (0.90 + _) * _) in *.
  pose proof (smoothstep_range 0.0 1.0
                (1 - perp / (along * tan BEAM_HALF_ANGLE + 1e-6))) as Hi.
  pose proof (smoothstep_range 10 70 along) as Hfi.
  pose proof (smoothstep_range (beamMax - 100) beamMax along) as Hfo.
  set (x1 := smoothstep 0.0 1.0 _) in *.
  set (x2 := smoothstep 10 70 along) in *.
  set (x3 := smoothstep (beamMax - 100) beamMax along) in *.
  assert (H12 : 0 <= x1 * x2 <= 1) by (split; nra).
  assert (H123 : 0 <= x1 * x2 * (1 - x3) <= 1) by (split; nra).
  split; nra.
Qed.

Lemma pointVis_range l t a blackout lx ly :
  0 <= pointVis l t a blackout lx ly <= 1.
Proof. unfold pointVis. apply beamVis_range, Rabs_pos. Qed.

(** C3, as stated, fails on the edge of the cone: the guard against a zero
    divisor leaves a thin band, [1e-6] wide, in which the visibility is
    small but not zero. *)
Lemma beam_edge_counterexample :
  100 * tan BEAM_HALF_ANGLE >= 100 * tan BEAM_HALF_ANGLE /\
  beamVis 520 0 0 false 100 (100 * tan BEAM_HALF_ANGLE) <> 0.
Proof.
  split; [lra|].
  pose proof beam_half_angle_tan as Htan.
  unfold beamVis.
  assert (E1 : num_gt 100 0 = true) by (apply num_gt_true; lra).
  assert (E2 : num_lt 100 520 = true) by (apply num_lt_true; lra).
  rewrite E1, E2. cbn [andb].
  set (m := 100 * tan BEAM_HALF_ANGLE).
  assert (Hm : 0 < m) by (unfold m; lra).
  assert (Hin : smoothstep 10 70 100 = 1).
  { unfold smoothstep. rewrite clamp_high; lra. }
  assert (Hout : smoothstep (520 - 100) 520 100 = 0).
  { unfold smoothstep. rewrite clamp_low; lra. }
  rewrite Hin, Hout.
  replace (0 * (0.010 + 0 * 0.010)) with 0 by ring. rewrite sin_0.
  unfold smoothstep.
  set (e := (1 - m / (m + 1e-6) - 0.0) / (1.0 - 0.0)).
  assert (He : 0 < e < 1).
  { assert (Hq : 0 < m / (m + 1e-6) < 1).
    { split.
      - apply Rdiv_lt_0_compat; lra.
      - apply (Rmult_lt_reg_r (m + 1e-6)); [lra|].
        unfold Rdiv. rewrite Rmult_assoc, Rinv_l by lra. lra. }
    unfold e. lra. }
  rewrite clamp_id by lra.
  assert (0 < e * e * (3 - 2 * e))
    by (apply Rmult_lt_0_compat; [apply Rmult_lt_0_compat|]; lra).
  lra.
Qed.

(** C3, amended.  The visibility is exactly 0 whenever [along <= 0], or
    [along >= beamMax], or [perp >= along * tan (halfAngle) + 1e-6]. *)
Theorem beamVis_zero_outside (beamMax t a : R) (blackout : bool)
  (along perp : R) :
  along <= 0 \/ along >= beamMax \/
  perp >= along * tan BEAM_HALF_ANGLE + 1e-6 ->
  beamVis beamMax t a blackout along perp = 0.
Proof.
  intros H. unfold beamVis.
  destruct (num_gt along 0) eqn:E1; [|reflexivity].
  destruct (num_lt along beamMax) eqn:E2; [|reflexivity].
  apply num_gt_true in E1. apply num_lt_true in E2. cbn [andb].
  destruct H as [H|[H|H]]; [lra|lra|].
  pose proof beam_half_angle_tan as Htan.
  set (m := along * tan BEAM_HALF_ANGLE) in *.
  assert (Hm : 0 < m) by (unfold m; apply Rmult_lt_0_compat; lra).
  assert (Hq : 1 <= perp / (m + 1e-6)).
  { apply (Rmult_le_reg_r (m + 1e-6)); [lra|].
    unfold Rdiv. rewrite Rmult_assoc, Rinv_l by lra. lra. }
  assert (Hs : smoothstep 0.0 1.0 (1 - perp / (m + 1e-6)) = 0).
  { unfold smoothstep. rewrite clamp_low by lra. ring. }
  rewrite Hs. ring.
Qed.

Lemma beamVis_zero_outside_witness :
  beamVis 520 0 0 false (-1) 3 = 0 /\
  beamVis 520 0 0 false 520 3 = 0 /\
  beamVis 520 0 0 false 100 (100 * tan BEAM_HALF_ANGLE + 1e-6) = 0.
Proof.
  split; [|split]; apply beamVis_zero_outside.
  - left. lra.
  - right. left. lra.
  - right. right. lra.
Defined.

Lemma pointVis_beamPoint l t a blackout along p :
  pointVis l t a blackout (fst (beamPoint l along p)) (snd (beamPoint l along p))
  = beamVis (scaledBeamMax l) t a blackout along (Rabs p).
Proof.
  unfold pointVis, beamPoint. cbn [fst snd].
  pose proof (sin2_cos2 (theta l)) as H. unfold Rsqr in H.
  set (sn := sin (theta l)) in *. set (cs := cos (theta l)) in *.
  set (ax := pivotX l + sn * scaledL l).
  set (ay := pivotY l + cs * scaledL l + 16).
  assert (Ea : (ax + along * sn + p * cs - ax) * sn +
               (ay + along * cs - p * sn - ay) * cs = along).
  { transitivity (along * (sn * sn + cs * cs)); [ring | rewrite H; ring]. }
  assert (Ep : (ax + along * sn + p * cs - ax) * cs -
               (ay + along * cs - p * sn - ay) * sn = p).
  { transitivity (p * (sn * sn + cs * cs)); [ring | rewrite H; ring]. }
  rewrite Ea, Ep. reflexivity.
Qed.

(** C8. Two targets at the same distance along the beam axis and at
    offsets [+p] and [-p] across it have the same visibility. *)
Theorem beam_symmetric (l : Lamp) (t a : R) (blackout : bool) (along p : R) :
  pointVis l t a blackout
    (fst (beamPoint l along p)) (snd (beamPoint l along p)) =
  pointVis l t a blackout
    (fst (beamPoint l along (- p))) (snd (beamPoint l along (- p))) /\
  (forall beamMax,
     beamVis beamMax t a blackout along (Rabs p) =
     beamVis beamMax t a blackout along (Rabs (- p))).
Proof.
  split.
  - rewrite !pointVis_beamPoint, Rabs_Ropp. reflexivity.
  - intros beamMax. rewrite Rabs_Ropp. reflexivity.
Qed.

(** ** The jitter of the logo *)

(** A frame that ends normally has written the properties of its core. *)
Lemma frame_output env i s out :
  snd (frame env i s) = Normal out -> out = snd (frameCore i s).
Proof.
  unfold frame. destruct (frameCore i s) as [s1 o]. cbn [snd].
  unfold frameTail, bind.
  destruct (audioTick env (ctx_suspended i) (f_t i) s1) as [s2 [[]|]];
    cbn; intros H; [injection H as <-; reflexivity|discriminate].
Qed.

Lemma frameCore_logo i s :
  let out := snd (frameCore i s) in
  let s' := fst (frameCore i s) in
  o_blackout out = num_lt (f_t i) (blackoutUntil (mood s')) /\
  o_logoVis out = frameVis i s /\
  (o_logoJx out, o_logoJy out) =
  logoJitter (frameVis i s) (anx (mood s')) (o_blackout out)
    (rnd_jx i) (rnd_jy i).
Proof.
  split; [reflexivity|]. split.
  - transitivity (clamp (frameVis i s) 0 1); [reflexivity|].
    apply clamp_id, pointVis_range.
  - cbv zeta. unfold frameCore. cbv zeta. cbn [snd o_logoJx o_logoJy].
    symmetry. apply surjective_pairing.
Qed.

Lemma logoJitter_active vis a blackout r1 r2 :
  vis > 0.05 -> a > 0.2 -> blackout = false ->
  logoJitter vis a blackout r1 r2 =
  ((r1 * 2 - 1) * (a * vis * 1.8), (r2 * 2 - 1) * (a * vis * 1.8)).
Proof.
  intros Hv Ha Hb. unfold logoJitter.
  apply num_gt_true in Hv. apply num_gt_true in Ha.
  rewrite Hv, Ha, Hb. reflexivity.
Qed.

Lemma logoJitter_reset vis a blackout r1 r2 :
  ~ (vis > 0.05 /\ a > 0.2 /\ blackout = false) ->
  logoJitter vis a blackout r1 r2 = (0, 0).
Proof.
  intros Hn. unfold logoJitter.
  destruct (num_gt vis 0.05) eqn:Ev; [|reflexivity].
  destruct (num_gt a 0.2) eqn:Ea; [|reflexivity].
  destruct blackout; [reflexivity|].
  exfalso. apply Hn.
  apply num_gt_true in Ev. apply num_gt_true in Ea. auto.
Qed.

(** C6. In every frame the jitter written for the logo is a pair of random
    offsets proportional to [anxiety * vis] when [vis > 0.05], the anxiety
    is above 0.2 and the frame is not blacked out; in every other case both
    offsets are exactly 0, as they are for an anxiety of 0 and a visibility
    of 1. *)
Theorem logo_jitter_gate (i : FrameIn) (s : Session) :
  let out := snd (frameCore i s) in
  let a := anx (mood (fst (frameCore i s))) in
  (o_logoVis out > 0.05 /\ a > 0.2 /\ o_blackout out = false ->
   o_logoJx out = (rnd_jx i * 2 - 1) * (a * o_logoVis out * 1.8) /\
   o_logoJy out = (rnd_jy i * 2 - 1) * (a * o_logoVis out * 1.8)) /\
  (~ (o_logoVis out > 0.05 /\ a > 0.2 /\ o_blackout out = false) ->
   o_logoJx out = 0 /\ o_logoJy out = 0) /\
  (o_logoJx out <> 0 \/ o_logoJy out <> 0 ->
   o_logoVis out > 0.05 /\ a > 0.2 /\ o_blackout out = false) /\
  (forall blackout r1 r2, logoJitter 1 0 blackout r1 r2 = (0, 0)) /\
  (forall env written, snd (frame env i s) = Normal written -> written = out) /\
  (forall env, anx (mood (fst (frame env i s))) = a).
Proof.
  intros out a.
  destruct (frameCore_logo i s) as (Hb & Hv & Hj).
  fold out in Hb, Hv, Hj. fold a in Hj. rewrite <- Hv in Hj.
  assert (Hreset : ~ (o_logoVis out > 0.05 /\ a > 0.2 /\ o_blackout out = false)
                   -> o_logoJx out = 0 /\ o_logoJy out = 0).
  { intros Hn. rewrite (logoJitter_reset _ _ _ _ _ Hn) in Hj.
    injection Hj as Hx Hy. auto. }
  split; [|split; [exact Hreset|split]].
  - intros (H1 & H2 & H3).
    rewrite (logoJitter_active _ _ _ _ _ H1 H2 H3) in Hj.
    injection Hj as Hx Hy. auto.
  - intros Hnz.
    destruct (Rgt_dec (o_logoVis out) 0.05) as [H1|H1];
      [|exfalso; destruct Hreset as [Hx Hy]; [tauto|destruct Hnz; auto]].
    destruct (Rgt_dec a 0.2) as [H2|H2];
      [|exfalso; destruct Hreset as [Hx Hy]; [tauto|destruct Hnz; auto]].
    destruct (o_blackout out) eqn:H3;
      [exfalso; destruct Hreset as [Hx Hy];
       [intros (_ & _ & ?); discriminate|destruct Hnz; auto]|].
    auto.
  - split; [|split].
    + intros blackout r1 r2. apply logoJitter_reset. intros (_ & H & _). lra.
    + intros env written. apply frame_output.
    + intros env. destruct (frame_after_core env i s) as [_ H]. rewrite H.
      reflexivity.
Qed.

Lemma heldSession_logo_lit :
  let out := snd (frameCore logoFrame heldSession) in
  let a := anx (mood (fst (frameCore logoFrame heldSession))) in
  o_logoVis out > 0.05 /\ a > 0.2 /\ o_blackout out = false.
Proof.
  intros out a.
  assert (Ha : 0.47 <= a <= 0.53).
  { unfold a. rewrite frameCore_anx.
    pose proof (frameTarget_range (f_t logoFrame) (mood heldSession)
                  (frameLamp (f_t logoFrame) heldSession)) as Ht.
    set (tg := frameTarget _ _ _) in *.
    unfold lerp. cbn [heldSession mood anx set_anx]. lra. }
  assert (Hbu : blackoutUntil (mood (fst (frameCore logoFrame heldSession))) = 0).
  { unfold frameCore. cbv zeta. cbn [fst mood].
    fold (nextAnx (f_t logoFrame) (mood heldSession)
            (frameLamp (f_t logoFrame) heldSession)).
    assert (Hn : nextAnx (f_t logoFrame) (mood heldSession)
                   (frameLamp (f_t logoFrame) heldSession) = a).
    { unfold a. rewrite frameCore_anx. reflexivity. }
    rewrite Hn.
    assert (Hg : num_gt (anx (set_anx a (mood heldSession))) 0.68 = false).
    { apply num_gt_false. cbn [anx set_anx]. lra. }
    rewrite Hg, andb_false_r. cbn [andb]. reflexivity. }
  destruct (frameCore_logo logoFrame heldSession) as (Hb & Hv & _).
  fold out in Hb, Hv.
  assert (Hbl : o_blackout out = false).
  { rewrite Hb, Hbu. apply num_lt_false. cbn [logoFrame f_t]. lra. }
  split; [|split; [lra|exact Hbl]].
  rewrite Hv. unfold frameVis. rewrite Hbu. fold a.
  replace (num_lt (f_t logoFrame) 0) with false
    by (symmetry; apply num_lt_false; cbn [logoFrame f_t]; lra).
  assert (Hl : lamp (fst (frameCore logoFrame heldSession))
               = set_lastT 16 (set_grabbing true lamp0))
    by (apply (frameLamp_held 16 heldSession); reflexivity).
  rewrite Hl. unfold pointVis.
  cbn [set_lastT set_grabbing set_grab lamp0 theta pivotX pivotY scaledL
       scaledBeamMax logoFrame f_t logo_left logo_top logo_width logo_height].
  rewrite sin_0, cos_0. unfold BASE_L, BASE_BEAM_MAX.
  replace ((-10 + 20 / 2 - (0 + 0 * 182)) * 0 +
           (288 + 20 / 2 - (0 + 1 * 182 + 16)) * 1) with 100 by lra.
  replace ((-10 + 20 / 2 - (0 + 0 * 182)) * 1 -
           (288 + 20 / 2 - (0 + 1 * 182 + 16)) * 0) with 0 by lra.
  rewrite Rabs_R0. unfold beamVis.
  assert (E1 : num_gt 100 0 = true) by (apply num_gt_true; lra).
  assert (E2 : num_lt 100 520 = true) by (apply num_lt_true; lra).
  rewrite E1, E2. cbn [andb].
  assert (Hin : smoothstep 10 70 100 = 1).
  { unfold smoothstep. rewrite clamp_high; lra. }
  assert (Hout : smoothstep (520 - 100) 520 100 = 0).
  { unfold smoothstep. rewrite clamp_low; lra. }
  assert (Hedge : smoothstep 0.0 1.0
                    (1 - 0 / (100 * tan BEAM_HALF_ANGLE + 1e-6)) = 1).
  { replace (0 / (100 * tan BEAM_HALF_ANGLE + 1e-6)) with 0
      by (unfold Rdiv; ring).
    unfold smoothstep. rewrite clamp_high; lra. }
  rewrite Hin, Hout, Hedge.
  pose proof (SIN_bound (16 * (0.010 + a * 0.010))) as [Hs _].
  lra.
Qed.

Lemma logo_jitter_gate_witness :
  (o_logoJx (snd (frameCore logoFrame calmSession)) = 0 /\
   o_logoJy (snd (frameCore logoFrame calmSession)) = 0) /\
  o_logoJx (snd (frameCore logoFrame heldSession)) =
    (rnd_jx logoFrame * 2 - 1) *
    (anx (mood (fst (frameCore logoFrame heldSession))) *
     o_logoVis (snd (frameCore logoFrame heldSession)) * 1.8).
Proof.
  destruct (logo_jitter_gate logoFrame calmSession) as (_ & H & _).
  destruct (logo_jitter_gate logoFrame heldSession) as (Hact & _).
  split.
  - apply H. intros (_ & Ha & _).
    assert (Hanx : anx (mood (fst (frameCore logoFrame calmSession))) <= 0.06).
    { rewrite frameCore_anx.
      cbn [calmSession mood anx state0].
      pose proof (frameTarget_range (f_t logoFrame) state0
                    (frameLamp (f_t logoFrame) calmSession)) as Ht.
      set (tg := frameTarget _ _ _) in *.
      unfold lerp. lra. }
    lra.
  - apply Hact. exact heldSession_logo_lit.
Defined.

(** ** The hum synthesizer *)

Ltac split_fault env :=
  match goal with
  | |- context [faults env ?x] => destruct (faults env x) eqn:?; cbn
  end.

Lemma constructionFails_false env n :
  constructionFails env n = false ->
  forall k, (k < constructionCalls)%nat -> faults env (k + n)%nat = false.
Proof.
  unfold constructionFails. intros H k Hk.
  destruct (faults env (k + n)%nat) eqn:E; [|reflexivity].
  assert (Hex : existsb (fun k => faults env (k + n)%nat)
                  (seq 0 constructionCalls) = true).
  { apply existsb_exists. exists k. split; [|exact E].
    apply in_seq. lia. }
  congruence.
Qed.

Ltac count_succ x :=
  lazymatch x with
  | S ?y => let r := count_succ y in constr:(S r)
  | _ => constr:(O)
  end.

Ltac clear_fault env H :=
  match goal with
  | |- context [faults env ?x] =>
      let k := count_succ x in
      let E := fresh "E" in
      assert (E : faults env x = false)
        by (apply (H k); unfold constructionCalls; lia);
      rewrite E; clear E; cbn
  end.

(** When the construction goes through, the hum is marked as started
    before the ramp of the master gain is asked for: a throw of that last
    call leaves [audioStarted] set and the gain where it was. *)
Lemma buildHum_ramp env s :
  constructionFails env (calls (web s)) = false ->
  audioStarted (mood (fst (buildHum env s))) = true /\
  snd (buildHum env s) =
    (if faults env (19 + calls (web s)) then Throw else Normal tt) /\
  (faults env (19 + calls (web s)) = true ->
   targets (web (fst (buildHum env s))) = targets (web s)).
Proof.
  intros Hf.
  pose proof (constructionFails_false env _ Hf) as Hno.
  unfold buildHum, create, connect, start, setTargetAtTime, set_value,
    set_buffer, call, bind, modify, get, ret.
  cbn.
  repeat clear_fault env Hno.
  destruct (faults env _) eqn:Eramp; cbn;
    (split; [reflexivity|]); (split; [reflexivity|]);
    intros Hr; try discriminate Hr; reflexivity.
Qed.

(** The body of the [try]: it always makes a Web Audio call; it throws
    with the shared state untouched when a construction call throws, and
    otherwise records the graph in the shared state. *)
Lemma buildHum_outcome env s :
  (calls (web s) < calls (web (fst (buildHum env s))))%nat /\
  ((constructionFails env (calls (web s)) = true /\
    mood (fst (buildHum env s)) = mood s /\
    snd (buildHum env s) = Throw) \/
   (constructionFails env (calls (web s)) = false /\
    exists h, mood (fst (buildHum env s)) = set_audio h (mood s))).
Proof.
  unfold constructionFails, constructionCalls.
  unfold buildHum, create, connect, start, setTargetAtTime, set_value,
    set_buffer, call, bind, modify, get, ret.
  cbn.
  repeat (split_fault env;
          [split; [lia|left; split; [reflexivity|split; reflexivity]]|]).
  split_fault env;
    (split; [lia|right; split; [reflexivity|eexists; reflexivity]]).
Qed.

Lemma ensureHum_unavailable env s :
  hasAC env = false -> ensureHum env s = (s, Normal tt).
Proof.
  intros H. unfold ensureHum. rewrite H.
  destruct (audioStarted (mood s)); reflexivity.
Qed.

Lemma ensureHum_started env s :
  audioStarted (mood s) = true -> ensureHum env s = (s, Normal tt).
Proof. intros H. unfold ensureHum. rewrite H. reflexivity. Qed.

Lemma ensureHum_attempt env s :
  audioStarted (mood s) = false -> hasAC env = true ->
  (calls (web s) < calls (web (fst (ensureHum env s))))%nat /\
  mood (fst (ensureHum env s)) =
    (if constructionFails env (calls (web s)) then mood s
     else mood (fst (buildHum env s))) /\
  audioStarted (mood (fst (ensureHum env s))) =
    negb (constructionFails env (calls (web s))).
Proof.
  intros Hs Ha. unfold ensureHum, try_catch. rewrite Hs, Ha. cbn [negb].
  destruct (buildHum_outcome env s) as [Hc [(Hf & Hm & _)|(Hf & h & Hm)]];
    destruct (buildHum env s) as [s1 c]; cbn [fst snd] in *; rewrite Hf.
  - rewrite Hm, Hs. auto.
  - rewrite Hm. auto.
Qed.

(** C5, as stated, fails: the last call inside the [try], the ramp of the
    master gain, comes after [state.audioStarted = true]; when it throws,
    the exception is caught like any other, but [audioStarted] is left
    true. *)
Lemma ensureHum_ramp_counterexample :
  audioStarted (mood calmSession) = false /\
  snd (buildHum rampEnv calmSession) = Throw /\
  snd (ensureHum rampEnv calmSession) = Normal tt /\
  audioStarted (mood (fst (ensureHum rampEnv calmSession))) = true /\
  targets (web (fst (ensureHum rampEnv calmSession))) = [].
Proof.
  split; [reflexivity|]. split; [reflexivity|]. split; [reflexivity|].
  split; reflexivity.
Qed.

(** C5, amended.  [ensureHum] never throws; after a call that started the
    hum a second call changes nothing: the shared state and the audio
    objects are those of the first call, with no second oscillator; without
    an [AudioContext] it does nothing.  On a page whose hum has not
    started, [audioStarted] is false afterwards exactly when one of the
    nineteen calls up to the two [start ()] throws, and the shared state is
    then untouched; when only the ramp of the master gain throws, the
    exception is swallowed too, but the hum is already marked as started
    and the gain is left where it was. *)
Theorem ensureHum_idempotent_total (env : AudioEnv) (s : Session) :
  snd (ensureHum env s) = Normal tt /\
  (forall env',
     audioStarted (mood (fst (ensureHum env s))) = true ->
     ensureHum env' (fst (ensureHum env s)) =
       (fst (ensureHum env s), Normal tt) /\
     count_kind KOscillator (web (fst (ensureHum env' (fst (ensureHum env s)))))
       = count_kind KOscillator (web (fst (ensureHum env s)))) /\
  (hasAC env = false -> ensureHum env s = (s, Normal tt)) /\
  (audioStarted (mood s) = false ->
   constructionFails env (calls (web s)) = true ->
   mood (fst (ensureHum env s)) = mood s /\
   audioStarted (mood (fst (ensureHum env s))) = false) /\
  (audioStarted (mood s) = false -> hasAC env = true ->
   audioStarted (mood (fst (ensureHum env s))) =
     negb (constructionFails env (calls (web s)))) /\
  (audioStarted (mood s) = false -> hasAC env = true ->
   constructionFails env (calls (web s)) = false ->
   faults env (19 + calls (web s)) = true ->
   snd (buildHum env s) = Throw /\
   audioStarted (mood (fst (ensureHum env s))) = true /\
   targets (web (fst (ensureHum env s))) = targets (web s)).
Proof.
  split; [apply ensureHum_normal|].
  split; [|split; [apply ensureHum_unavailable|split; [|split]]].
  - intros env' H. rewrite (ensureHum_started env' _ H). auto.
  - intros Hs Hf. destruct (hasAC env) eqn:Ha.
    + destruct (ensureHum_attempt env s Hs Ha) as (_ & Hm & _).
      rewrite Hf in Hm. rewrite Hm. auto.
    + rewrite (ensureHum_unavailable env s Ha). auto.
  - intros Hs Ha. apply (ensureHum_attempt env s Hs Ha).
  - intros Hs Ha Hf Hr.
    destruct (buildHum_ramp env s Hf) as (_ & Hc & Ht).
    destruct (ensureHum_attempt env s Hs Ha) as (_ & _ & Hm).
    rewrite Hr in Hc. rewrite Hf in Hm.
    split; [exact Hc|]. split; [exact Hm|].
    unfold ensureHum, try_catch. rewrite Hs, Ha. cbn [negb].
    specialize (Ht Hr).
    destruct (buildHum env s) as [s1 c]. exact Ht.
Qed.

Lemma ensureHum_idempotent_total_witness :
  ensureHum hummingEnv (fst (ensureHum hummingEnv calmSession)) =
    (fst (ensureHum hummingEnv calmSession), Normal tt) /\
  count_kind KOscillator (web (fst (ensureHum hummingEnv calmSession))) = 1%nat /\
  ensureHum quietEnv calmSession = (calmSession, Normal tt) /\
  audioStarted (mood (fst (ensureHum brokenEnv calmSession))) = false /\
  audioStarted (mood (fst (ensureHum rampEnv calmSession))) = true /\
  targets (web (fst (ensureHum rampEnv calmSession))) =
    targets (web calmSession).
Proof.
  destruct (ensureHum_idempotent_total hummingEnv calmSession)
    as (_ & H2 & _ & _).
  destruct (ensureHum_idempotent_total quietEnv calmSession)
    as (_ & _ & H3 & _).
  destruct (ensureHum_idempotent_total brokenEnv calmSession)
    as (_ & _ & _ & H4 & _).
  destruct (ensureHum_idempotent_total rampEnv calmSession)
    as (_ & _ & _ & _ & _ & H6).
  destruct H6 as (_ & H6a & H6b); try reflexivity.
  split; [|split; [|split; [|split; [|split]]]].
  - apply (H2 hummingEnv). reflexivity.
  - reflexivity.
  - apply H3. reflexivity.
  - apply H4; reflexivity.
  - exact H6a.
  - exact H6b.
Defined.

Lemma pointerdown_web env x now now' s :
  web (fst (pointerdown env x now now' s)) = web (fst (ensureHum env s)).
Proof.
  unfold pointerdown, bind.
  pose proof (ensureHum_normal env s) as Hn.
  destruct (ensureHum env s) as [s1 c]. simpl in Hn. subst c.
  reflexivity.
Qed.

Lemma frameCore_audioStarted i s :
  audioStarted (mood (fst (frameCore i s))) = audioStarted (mood s).
Proof.
  unfold frameCore. simpl. destruct (_ && _); reflexivity.
Qed.

Lemma step_audioStarted env e s :
  is_pointerdown e = false ->
  audioStarted (mood (step env e s)) = audioStarted (mood s).
Proof.
  intros He. destruct e; try discriminate He; simpl.
  - destruct (frame_after_core env i s) as [_ H]. rewrite H.
    apply frameCore_audioStarted.
  - unfold pointermove. destruct (negb _); reflexivity.
  - reflexivity.
  - unfold endGrab. destruct (negb _); reflexivity.
  - reflexivity.
  - reflexivity.
Qed.

(** C4, as stated, fails: after a failed construction the next pointer-down
    constructs again, and the hum starts if that attempt succeeds. *)
Lemma hum_retry_counterexample :
  audioStarted
    (mood (step flakyEnv (EPointerDown 0 0 0) calmSession)) = false /\
  calls (web (step flakyEnv (EPointerDown 0 0 0) calmSession)) = 1%nat /\
  audioStarted
    (mood (step flakyEnv (EPointerDown 0 9 9)
             (step flakyEnv (EPointerDown 0 0 0) calmSession))) = true.
Proof.
  split; [reflexivity|]. split; reflexivity.
Qed.

(** C4, amended.  After a construction that failed before the hum was
    marked as started, the synthesizer is in its not-started state and no
    event other than a pointer-down changes that; every pointer-down in
    that state constructs again, and the synthesizer stays not started
    exactly when one of the nineteen calls up to the two [start ()] throws
    in that attempt too; a throw of the last call of the [try], the ramp of
    the master gain, is caught as well, but with the synthesizer already
    started. *)
Theorem hum_failure_retried (env : AudioEnv) (x now now' : R) (s : Session) :
  audioStarted (mood s) = false ->
  hasAC env = true ->
  let s1 := step env (EPointerDown x now now') s in
  (calls (web s) < calls (web s1))%nat /\
  audioStarted (mood s1) = negb (constructionFails env (calls (web s))) /\
  (forall e, is_pointerdown e = false ->
     audioStarted (mood (step env e s)) = false) /\
  (constructionFails env (calls (web s)) = false ->
   faults env (19 + calls (web s)) = true ->
   snd (buildHum env s) = Throw /\ audioStarted (mood s1) = true).
Proof.
  intros Hs Ha s1.
  destruct (ensureHum_attempt env s Hs Ha) as (Hc & _ & Hm).
  assert (H1 : audioStarted (mood s1)
               = negb (constructionFails env (calls (web s)))).
  { unfold s1. simpl. rewrite pointerdown_mood. exact Hm. }
  split; [|split; [|split]].
  - unfold s1. simpl. rewrite pointerdown_web. exact Hc.
  - exact H1.
  - intros e He. rewrite (step_audioStarted env e s He). exact Hs.
  - intros Hf Hr. destruct (buildHum_ramp env s Hf) as (_ & Hb & _).
    rewrite Hr in Hb. rewrite Hf in H1. split; [exact Hb|exact H1].
Qed.

Lemma hum_failure_retried_witness :
  audioStarted
    (mood (step flakyEnv (EPointerDown 0 9 9)
             (step flakyEnv (EPointerDown 0 0 0) calmSession))) =
  negb (constructionFails flakyEnv
          (calls (web (step flakyEnv (EPointerDown 0 0 0) calmSession)))) /\
  audioStarted (mood (step rampEnv (EPointerDown 0 0 0) calmSession)) = true.
Proof.
  destruct (hum_failure_retried flakyEnv 0 9 9
              (step flakyEnv (EPointerDown 0 0 0) calmSession))
    as (_ & H1 & _); try reflexivity.
  destruct (hum_failure_retried rampEnv 0 0 0 calmSession)
    as (_ & _ & _ & H2); try reflexivity.
  split; [exact H1|]. apply H2; reflexivity.
Defined.

(** ** The idle lamp settles *)

Lemma fact_values :
  INR (fact 1) = 1 /\ INR (fact 3) = 6 /\ INR (fact 5) = 120 /\
  INR (fact 7) = 5040 /\ INR (fact 9) = 362880.
Proof.
  split; [simpl; lra|]. split; [simpl; lra|].
  split; [|split].
  - change (fact 5) with (5 * (4 * fact 3))%nat.
    rewrite !mult_INR. simpl. lra.
  - change (fact 7) with (7 * (6 * (5 * (4 * fact 3))))%nat.
    rewrite !mult_INR. simpl. lra.
  - change (fact 9) with (9 * (8 * (7 * (6 * (5 * (4 * fact 3))))))%nat.
    rewrite !mult_INR. simpl. lra.
Qed.

Lemma sin_between (x : R) : 0 <= x <= 1 -> sinLow x <= sin x <= sinHigh x.
Proof.
  intros [H0 H1].
  assert (HPI : x <= PI) by (pose proof PI2_1; lra).
  pose proof (SIN x H0 HPI) as [Hl Hu].
  unfold sin_lb, sin_ub, sin_approx, sin_term in Hl, Hu.
  cbn [sum_f_R0] in Hl, Hu.
  change (2 * 0 + 1)%nat with 1%nat in Hl, Hu.
  change (2 * 1 + 1)%nat with 3%nat in Hl, Hu.
  change (2 * 2 + 1)%nat with 5%nat in Hl, Hu.
  change (2 * 3 + 1)%nat with 7%nat in Hl, Hu.
  change (2 * 4 + 1)%nat with 9%nat in Hu.
  destruct fact_values as (F1 & F3 & F5 & F7 & F9).
  rewrite F1, F3, F5, F7 in Hl. rewrite F1, F3, F5, F7, F9 in Hu.
  unfold sinHigh, sinLow. cbn [pow] in Hl, Hu.
  split; lra.
Qed.

Lemma Q2R_const (n : Z) (d : positive) : Q2R (n # d) = IZR n / IZR (Zpos d).
Proof. reflexivity. Qed.

Lemma Q2R_0 : Q2R 0 = 0.
Proof. unfold Q2R. simpl. lra. Qed.

Lemma Q2R_1 : Q2R 1 = 1.
Proof. unfold Q2R. simpl. lra. Qed.

Ltac push_Q2R :=
  repeat first
    [ rewrite Q2R_mult | rewrite Q2R_minus | rewrite Q2R_plus
    | rewrite Q2R_opp | rewrite Q2R_1 | rewrite Q2R_0 ].

Lemma Q2R_qLow q : Q2R (qLow q) = sinLow (Q2R q).
Proof.
  unfold qLow, sinLow. cbv zeta. push_Q2R.
  change (Q2R (1 # 6)) with (1 / 6).
  change (Q2R (1 # 20)) with (1 / 20).
  change (Q2R (1 # 42)) with (1 / 42).
  field.
Qed.

Lemma Q2R_qHigh q : Q2R (qHigh q) = sinHigh (Q2R q).
Proof.
  unfold qHigh, sinHigh, sinLow. cbv zeta. push_Q2R.
  change (Q2R (1 # 6)) with (1 / 6).
  change (Q2R (1 # 20)) with (1 / 20).
  change (Q2R (1 # 42)) with (1 / 42).
  change (Q2R (1 # 72)) with (1 / 72).
  field.
Qed.

Lemma sin_at_rational q :
  -1 <= Q2R q <= 1 -> Q2R (sinDown q) <= sin (Q2R q) <= Q2R (sinUp q).
Proof.
  intros Hq. unfold sinDown, sinUp.
  destruct (Qle_bool 0 q) eqn:E.
  - apply Qle_bool_iff, Qle_Rle in E. rewrite Q2R_0 in E.
    rewrite Q2R_qLow, Q2R_qHigh. apply sin_between. lra.
  - assert (Hneg : Q2R q < 0).
    { destruct (Rlt_dec (Q2R q) 0) as [H|H]; [exact H|].
      assert (Hle : (0 <= q)%Q) by (apply Rle_Qle; rewrite Q2R_0; lra).
      apply Qle_bool_iff in Hle. congruence. }
    rewrite !Q2R_opp, Q2R_qLow, Q2R_qHigh, Q2R_opp.
    pose proof (sin_between (- Q2R q)) as Hs.
    rewrite sin_neg in Hs. lra.
Qed.

Lemma sinDown_below q x :
  -1 <= Q2R q -> Q2R q <= x -> x <= 1 -> Q2R (sinDown q) <= sin x.
Proof.
  intros H1 H2 H3. pose proof PI2_1.
  apply Rle_trans with (sin (Q2R q)).
  - apply sin_at_rational. lra.
  - apply sin_incr_1; lra.
Qed.

Lemma sinUp_above q x :
  -1 <= x -> x <= Q2R q -> Q2R q <= 1 -> sin x <= Q2R (sinUp q).
Proof.
  intros H1 H2 H3. pose proof PI2_1.
  apply Rle_trans with (sin (Q2R q)).
  - apply sin_incr_1; lra.
  - apply sin_at_rational. lra.
Qed.

Lemma roundDown_below q : Q2R (roundDown q) <= Q2R q.
Proof.
  apply Qle_Rle. unfold roundDown, Qle. cbn [Qnum Qden].
  rewrite (Z.mul_comm _ (Zpos (Qden q))).
  apply Z.mul_div_le. reflexivity.
Qed.

Lemma roundUp_above q : Q2R q <= Q2R (roundUp q).
Proof.
  unfold roundUp. rewrite Q2R_opp.
  pose proof (roundDown_below (- q)) as H. rewrite Q2R_opp in H. lra.
Qed.

Lemma pushed_still l : still l -> pushed l = omega l.
Proof.
  intros [Hx Hy]. unfold pushed. rewrite Hx, Hy.
  destruct (num_lt _ _); [|reflexivity].
  unfold Rdiv. ring.
Qed.

Lemma swing_still breeze dt l : still l -> still (swing breeze dt l).
Proof. intros H. exact H. Qed.

Lemma small_range q : small q = true -> - (1 / 2) <= Q2R q <= 1 / 2.
Proof.
  unfold small. intros H. apply andb_prop in H. destruct H as [H1 H2].
  apply Qle_bool_iff, Qle_Rle in H1. apply Qle_bool_iff, Qle_Rle in H2.
  rewrite Q2R_opp in H1. rewrite Q2R_const in H1, H2. lra.
Qed.

Lemma boxStep_sound b b' l :
  still l -> inBox b l -> boxStep b = Some b' ->
  inBox b' (swing 0 (1 / 60) l).
Proof.
  intros Hstill [[Ht1 Ht2] [Ho1 Ho2]] Hstep.
  unfold boxStep in Hstep.
  set (ol := roundDown (olo b * kDamp - kGrav * sinUp (thi b))) in *.
  set (oh := roundUp (ohi b * kDamp - kGrav * sinDown (tlo b))) in *.
  set (tl := roundDown (tlo b + ol * kDt)) in *.
  set (th := roundUp (thi b + oh * kDt)) in *.
  destruct (small (tlo b)) eqn:S1; [|discriminate].
  destruct (small (thi b)) eqn:S2; [|discriminate].
  destruct (small ol) eqn:S3; [|discriminate].
  destruct (small oh) eqn:S4; [|discriminate].
  destruct (small tl) eqn:S5; [|discriminate].
  destruct (small th) eqn:S6; [|discriminate].
  cbn [andb] in Hstep. injection Hstep as <-.
  apply small_range in S1, S2, S3, S4, S5, S6.
  pose proof (sinDown_below (tlo b) (theta l)) as Hsd.
  pose proof (sinUp_above (thi b) (theta l)) as Hsu.
  assert (Hsd' : Q2R (sinDown (tlo b)) <= sin (theta l)) by (apply Hsd; lra).
  assert (Hsu' : sin (theta l) <= Q2R (sinUp (thi b))) by (apply Hsu; lra).
  clear Hsd Hsu.
  pose proof (roundDown_below (olo b * kDamp - kGrav * sinUp (thi b))) as Rol.
  pose proof (roundUp_above (ohi b * kDamp - kGrav * sinDown (tlo b))) as Roh.
  pose proof (roundDown_below (tlo b + ol * kDt)) as Rtl.
  pose proof (roundUp_above (thi b + oh * kDt)) as Rth.
  fold ol in Rol. fold oh in Roh. fold tl in Rtl. fold th in Rth.
  rewrite Q2R_minus, !Q2R_mult in Rol, Roh.
  rewrite Q2R_plus, Q2R_mult in Rtl, Rth.
  change (Q2R kDamp) with (5908 / 6000) in Rol, Roh.
  change (Q2R kGrav) with (104 / 600) in Rol, Roh.
  change (Q2R kDt) with (1 / 60) in Rtl, Rth.
  set (v := omega l + (- 10.4 * sin (theta l) - 0.92 * omega l + 0) * (1 / 60)).
  assert (Hv : Q2R ol <= v <= Q2R oh) by (unfold v; lra).
  assert (Hi : integrated 0 (1 / 60) l = v).
  { unfold integrated. rewrite (pushed_still l Hstill). cbv zeta.
    match goal with
    | |- clamp ?e _ _ = _ => replace e with v by (unfold v; lra)
    end.
    apply clamp_id. unfold OMEGA_MAX. lra. }
  assert (Hth : clamp (theta l + v * (1 / 60)) (- MAX) MAX
                = theta l + v * (1 / 60)).
  { apply clamp_id. unfold MAX. lra. }
  unfold inBox, swing. cbn [theta omega set_omega set_theta tlo thi olo ohi].
  rewrite Hi, Hth.
  assert (Hb : num_gt (Rabs (theta l + v * (1 / 60))) (MAX - 1e-4) = false).
  { apply num_gt_false. unfold MAX. apply Rabs_le. lra. }
  rewrite Hb. lra.
Qed.

Lemma boxIter_sound n :
  forall b b' l,
    still l -> inBox b l -> boxIter n b = Some b' ->
    still (Nat.iter n (swing 0 (1 / 60)) l) /\
    inBox b' (Nat.iter n (swing 0 (1 / 60)) l).
Proof.
  induction n as [|n IH]; intros b b' l Hs Hb Hi.
  - injection Hi as <-. split; assumption.
  - cbn [boxIter] in Hi.
    destruct (boxIter n b) as [b1|] eqn:E; [|discriminate].
    destruct (IH b b1 l Hs Hb E) as [Hs1 Hb1].
    cbn [Nat.iter nat_rect]. split.
    + apply swing_still, Hs1.
    + apply (boxStep_sound b1 b' _ Hs1 Hb1 Hi).
Qed.

(** Frames 1000/60 ms apart run the physics with a time step of 1/60 s. *)
Lemma frame_dt_60Hz (t : R) : Rmin 0.03 ((t + 1000 / 60 - t) / 1000) = 1 / 60.
Proof.
  replace ((t + 1000 / 60 - t) / 1000) with (1 / 60) by field.
  apply Rmin_right. lra.
Qed.

Lemma settled_after_five_seconds :
  exists b, boxIter 300 startBox = Some b /\ settled b = true.
Proof.
  eexists. split; vm_compute; reflexivity.
Qed.

(** C7. From [theta = 0.05] and [omega = 0], the pointer still, 300 steps of
    the physics of a lamp that is not held, at [dt = 1/60] and without
    breeze, end with [|theta| < 0.01] and [|omega| < 0.01]. *)
Theorem idle_settle (l : Lamp) :
  theta l = 0.05 -> omega l = 0 -> pvx l = 0 -> pvy l = 0 ->
  let l' := Nat.iter 300 (swing 0 (1 / 60)) l in
  Rabs (theta l') < 0.01 /\ Rabs (omega l') < 0.01.
Proof.
  intros Ht Ho Hx Hy l'.
  destruct settled_after_five_seconds as (b & E & Hs).
  assert (Hin : inBox startBox l).
  { unfold inBox, startBox. cbn [tlo thi olo ohi].
    rewrite Ht, Ho, Q2R_0, Q2R_const. lra. }
  destruct (boxIter_sound 300 startBox b l (conj Hx Hy) Hin E)
    as [_ [[T1 T2] [O1 O2]]].
  fold l' in T1, T2, O1, O2.
  unfold settled in Hs.
  apply andb_prop in Hs. destruct Hs as [Hs H4].
  apply andb_prop in Hs. destruct Hs as [Hs H3].
  apply andb_prop in Hs. destruct Hs as [H1 H2].
  apply Qle_bool_iff, Qle_Rle in H1, H2, H3, H4.
  rewrite Q2R_opp in H1, H3. rewrite Q2R_const in H1, H2, H3, H4.
  split; apply Rabs_def1; lra.
Qed.

Lemma idle_settle_witness :
  Rabs (theta (Nat.iter 300 (swing 0 (1 / 60)) (set_theta 0.05 lamp0))) < 0.01 /\
  Rabs (omega (Nat.iter 300 (swing 0 (1 / 60)) (set_theta 0.05 lamp0))) < 0.01.
Proof.
  apply (idle_settle (set_theta 0.05 lamp0)); reflexivity.
Defined.

(** ** Invariants of a whole session *)

Lemma step_motion_other env e s :
  match e with
  | EFrame _ | EPointerDown _ _ _ | EPointerMove _ _ _ | EPointerUp _ => True
  | _ => motion (step env e s) = motion s
  end.
Proof. destruct e; try exact I; reflexivity. Qed.

Lemma step_theta_range env e s :
  Rabs (theta (lamp s)) <= MAX -> Rabs (theta (lamp (step env e s))) <= MAX.
Proof.
  intros H. destruct e; try exact H.
  - simpl. pose proof (frame_motion env i s) as Hm. unfold motion in Hm.
    injection Hm as Ht _ _. rewrite Ht.
    destruct (grabbing (lamp s)) eqn:Hg.
    + rewrite (frameLamp_held _ _ Hg). exact H.
    + rewrite (frameLamp_free _ _ Hg). apply Rabs_le, swing_theta_range.
  - change (step env (EPointerDown clientX now now') s)
      with (fst (pointerdown env clientX now now' s)).
    rewrite pointerdown_lamp. exact H.
  - simpl. unfold pointermove. destruct (grabbing (lamp s)); simpl.
    + apply Rabs_le. apply clamp_bounds. unfold MAX. lra.
    + exact H.
  - simpl. unfold endGrab. destruct (grabbing (lamp s)); simpl; exact H.
Qed.

(** X1. The angle of the lamp never leaves [[-MAX, MAX]]: every event keeps
    it there, so it holds through any run from the setup of the page. *)
Theorem theta_always_in_range (env : AudioEnv) (es : list Event) :
  (forall s, Rabs (theta (lamp s)) <= MAX ->
             Rabs (theta (lamp (run env es s))) <= MAX) /\
  (forall rnd iw now left top width parsed,
     0 <= rnd < 1 ->
     Rabs (theta (lamp (run env es
                          (boot rnd iw now left top width parsed)))) <= MAX).
Proof.
  assert (Hrun : forall s, Rabs (theta (lamp s)) <= MAX ->
                           Rabs (theta (lamp (run env es s))) <= MAX).
  { induction es as [|e es IH]; intros s H; simpl.
    - exact H.
    - apply IH, step_theta_range, H. }
  split; [exact Hrun|].
  intros rnd iw now left top width parsed Hr. apply Hrun.
  simpl. apply Rabs_le. unfold MAX. lra.
Qed.

Lemma theta_always_in_range_witness :
  Rabs (theta (lamp (run hummingEnv
                       [EPointerDown 30 0 0; EPointerMove 40 90 8;
                        EPointerUp 20; EFrame frameIn0]
                       (boot 0.5 1000 0 0 0 100 None)))) <= MAX.
Proof.
  destruct (theta_always_in_range hummingEnv
              [EPointerDown 30 0 0; EPointerMove 40 90 8;
               EPointerUp 20; EFrame frameIn0]) as [_ H].
  apply H. lra.
Defined.

Lemma step_grabbing env e s :
  grabbing (lamp (step env e s)) =
  match e with
  | EPointerDown _ _ _ => true
  | EPointerUp _ => false
  | _ => grabbing (lamp s)
  end.
Proof.
  destruct e; try reflexivity.
  - simpl. pose proof (frame_motion env i s) as Hm. unfold motion in Hm.
    injection Hm as _ _ Hg. rewrite Hg. unfold frameLamp, physics.
    destruct (negb _); reflexivity.
  - change (step env (EPointerDown clientX now now') s)
      with (fst (pointerdown env clientX now now' s)).
    rewrite pointerdown_lamp. reflexivity.
  - simpl. unfold pointermove. destruct (grabbing (lamp s)) eqn:E; simpl; auto.
  - simpl. unfold endGrab. destruct (grabbing (lamp s)) eqn:E; simpl; auto.
Qed.

Lemma grab_kick_omega env x now now' s :
  Rabs (omega (lamp s)) <= OMEGA_MAX ->
  Rabs (omega (lamp (step env (EPointerDown x now now') s)))
    <= OMEGA_MAX + 0.75.
Proof.
  intros Hs.
  change (step env (EPointerDown x now now') s)
    with (fst (pointerdown env x now now' s)).
  rewrite pointerdown_lamp. simpl.
  pose proof (clamp_bounds ((x - pivotX (lamp s)) / 140) (-1) 1) as Hc.
  apply Rabs_le. apply Rabs_le_between in Hs. lra.
Qed.

Lemma step_omegaBound env e s :
  (is_pointerdown e = true -> grabbing (lamp s) = false) ->
  omegaBound s -> omegaBound (step env e s).
Proof.
  intros Hfree Hb. unfold omegaBound in *.
  rewrite step_grabbing.
  destruct e.
  - destruct (grabbing (lamp s)) eqn:Hg.
    + rewrite (frame_held_omega _ _ _ Hg). exact Hb.
    + apply step_keeps_omega_clamped; [reflexivity | exact Hb].
  - rewrite (Hfree eq_refl) in Hb.
    apply (grab_kick_omega env clientX now now' s Hb).
  - destruct (grabbing (lamp s)) eqn:Hg.
    + pose proof (pointermove_omega_range clientX clientY now s Hg).
      simpl. unfold OMEGA_MAX in *. lra.
    + apply step_keeps_omega_clamped; [reflexivity | exact Hb].
  - exact Hb.
  - destruct (grabbing (lamp s)) eqn:Hg.
    + apply (endGrab_omega_range now s Hg).
    + simpl. unfold endGrab. rewrite Hg. exact Hb.
  - exact Hb.
  - exact Hb.
Qed.

(** X2. As long as each grab is released before the next pointer-down, the
    velocity is within [OMEGA_MAX] whenever the lamp is free and within
    [OMEGA_MAX + 0.75] while it is held, through any run from the setup. *)
Theorem omega_bounded_through_gestures (env : AudioEnv) (es : list Event) :
  (forall s, omegaBound s -> oneGrabAtATime env es s ->
             omegaBound (run env es s)) /\
  (forall rnd iw now left top width parsed,
     oneGrabAtATime env es (boot rnd iw now left top width parsed) ->
     omegaBound (run env es (boot rnd iw now left top width parsed))).
Proof.
  assert (Hrun : forall s, omegaBound s -> oneGrabAtATime env es s ->
                           omegaBound (run env es s)).
  { induction es as [|e es IH]; intros s Hb Ht; simpl.
    - exact Hb.
    - destruct Ht as [Hfree Ht]. apply IH; [|exact Ht].
      apply step_omegaBound; assumption. }
  split; [exact Hrun|].
  intros rnd iw now left top width parsed Ht. apply Hrun; [|exact Ht].
  unfold omegaBound. simpl. rewrite Rabs_R0. unfold OMEGA_MAX. lra.
Qed.

Lemma omega_bounded_through_gestures_witness :
  omegaBound (run hummingEnv
                [EPointerDown 30 0 0; EPointerUp 20; EPointerDown 70 30 30]
                (boot 0.5 1000 0 0 0 100 None)).
Proof.
  destruct (omega_bounded_through_gestures hummingEnv
              [EPointerDown 30 0 0; EPointerUp 20; EPointerDown 70 30 30])
    as [_ H].
  apply H. cbn [oneGrabAtATime].
  rewrite !step_grabbing. cbn [is_pointerdown].
  repeat split; try reflexivity; discriminate.
Defined.

(** ** The pointer near the bulb *)

Lemma trackPointer_tame x y t l : pointerTame (trackPointer x y t l).
Proof.
  unfold pointerTame, trackPointer. simpl.
  split; apply Rabs_le;
    match goal with
    | |- _ <= clamp ?v _ _ <= _ =>
        pose proof (clamp_bounds v (-1.35) 1.35); lra
    end.
Qed.

Lemma step_pointerTame env e s :
  pointerTame (lamp s) -> pointerTame (lamp (step env e s)).
Proof.
  intros H. destruct e; try exact H.
  - simpl. unfold pointerTame.
    assert (Hv : pvx (lamp (fst (frame env i s))) = pvx (lamp s) /\
                 pvy (lamp (fst (frame env i s))) = pvy (lamp s)).
    { assert (Hk : keeps (fun s => (pvx (lamp s), pvy (lamp s)))
                     (frameTail env i (snd (frameCore i s)))).
      { unfold frameTail.
        apply keeps_bind; [|intros _].
        - intros s0. rewrite (audioTick_keeps_lamp env _ _ s0). reflexivity.
        - apply keeps_bind; [|intros _; apply keeps_ret].
          apply keeps_modify. intros s0. unfold with_lamp. simpl.
          destruct (num_gt _ _); reflexivity. }
      unfold frame. destruct (frameCore i s) as [s1 out] eqn:E.
      specialize (Hk s1). cbn [snd] in Hk.
      assert (Hl : lamp s1 = frameLamp (f_t i) s)
        by (replace s1 with (fst (frameCore i s)) by (rewrite E; reflexivity);
            reflexivity).
      injection Hk as Hx Hy. rewrite Hx, Hy, Hl.
      unfold frameLamp, physics. destruct (negb _); split; reflexivity. }
    destruct Hv as [Hx Hy]. rewrite Hx, Hy. exact H.
  - change (step env (EPointerDown clientX now now') s)
      with (fst (pointerdown env clientX now now' s)).
    rewrite pointerdown_lamp. exact H.
  - simpl. unfold pointermove. destruct (grabbing (lamp s)); simpl; exact H.
  - apply trackPointer_tame.
  - simpl. unfold endGrab. destruct (grabbing (lamp s)); simpl; exact H.
Qed.

Lemma hypot_nonneg x y : 0 <= Math_hypot x y.
Proof. unfold Math_hypot. apply sqrt_pos. Qed.

Lemma hypot_dominates x y :
  Rabs x <= Math_hypot x y /\ Rabs y <= Math_hypot x y.
Proof.
  unfold Math_hypot. split.
  - rewrite <- sqrt_Rsqr_abs. apply sqrt_le_1_alt. unfold Rsqr. nra.
  - rewrite <- sqrt_Rsqr_abs. apply sqrt_le_1_alt. unfold Rsqr. nra.
Qed.

Lemma pushed_bounded l :
  pointerTame l -> Rabs (pushed l - omega l) <= 0.324.
Proof.
  intros [Hx Hy]. unfold pushed.
  set (dxp := px l - (pivotX l + sin (theta l) * scaledL l)).
  set (dyp := py l - (pivotY l + cos (theta l) * scaledL l)).
  pose proof (hypot_nonneg dxp dyp) as Hd0.
  destruct (hypot_dominates dxp dyp) as [Hdx Hdy].
  set (dist := Math_hypot dxp dyp) in *.
  destruct (num_lt dist (scaledProximity l)) eqn:E.
  - apply num_lt_true in E.
    set (sp := scaledProximity l) in *.
    assert (Hsp : 0 < sp) by lra.
    assert (Hq : 0 <= dist / sp < 1).
    { split.
      - apply Rmult_le_pos; [lra|]. left. apply Rinv_0_lt_compat, Hsp.
      - apply (Rmult_lt_reg_r sp); [exact Hsp|].
        unfold Rdiv. rewrite Rmult_assoc, Rinv_l by lra. lra. }
    set (q := dist / sp) in *.
    assert (Hnum : Rabs (pvx l * - dyp + pvy l * dxp) <= 2.7 * dist).
    { apply Rabs_le_between in Hx, Hy, Hdx, Hdy.
      apply Rabs_le. split; nra. }
    set (num := pvx l * - dyp + pvy l * dxp) in *.
    assert (Hinv : 0 < / (dist + 12)) by (apply Rinv_0_lt_compat; lra).
    assert (Hfrac : dist * / (dist + 12) <= 1).
    { apply (Rmult_le_reg_r (dist + 12)); [lra|].
      rewrite Rmult_assoc, Rinv_l by lra. lra. }
    assert (Htang : Rabs (num / (dist + 12)) <= 2.7).
    { unfold Rdiv. rewrite Rabs_mult, (Rabs_right (/ (dist + 12))) by lra.
      apply Rle_trans with (2.7 * dist * / (dist + 12)).
      - apply Rmult_le_compat_r; [lra | exact Hnum].
      - nra. }
    set (tang := num / (dist + 12)) in *.
    replace (omega l + tang * 0.12 * (1 - q) - omega l)
      with (tang * (0.12 * (1 - q))) by ring.
    rewrite Rabs_mult, (Rabs_right (0.12 * (1 - q))) by nra.
    pose proof (Rabs_pos tang). nra.
  - replace (omega l - omega l) with 0 by ring. rewrite Rabs_R0. lra.
Qed.

(** X3. [trackPointer] keeps both components of the pointer's velocity
    within 1.35 px/ms whatever the timestamps (the elapsed time counts as at
    least 1 ms), no other event changes them, and with such a velocity the
    push of the pointer on a free lamp changes the velocity of the lamp by
    at most 0.324 in a frame. *)
Theorem pointer_push_bounded (env : AudioEnv) (es : list Event) :
  (forall x y t l, pointerTame (trackPointer x y t l) /\
                   px (trackPointer x y t l) = x /\
                   py (trackPointer x y t l) = y) /\
  (forall l, pointerTame l -> Rabs (pushed l - omega l) <= 0.324) /\
  (forall rnd iw now left top width parsed,
     let s := run env es (boot rnd iw now left top width parsed) in
     pointerTame (lamp s) /\ Rabs (pushed (lamp s) - omega (lamp s)) <= 0.324).
Proof.
  split; [|split].
  - intros x y t l. split; [apply trackPointer_tame|split; reflexivity].
  - apply pushed_bounded.
  - intros rnd iw now left top width parsed s.
    assert (H : pointerTame (lamp s)).
    { unfold s. set (s0 := boot rnd iw now left top width parsed).
      assert (H0 : pointerTame (lamp s0)).
      { unfold pointerTame. simpl. rewrite Rabs_R0. lra. }
      clearbody s0. revert s0 H0.
      induction es as [|e es IH]; intros s0 H0; simpl.
      - exact H0.
      - apply IH, step_pointerTame, H0. }
    split; [exact H | apply pushed_bounded, H].
Qed.

Lemma pointer_push_bounded_witness :
  Rabs (pushed (trackPointer 500 3 1 lamp0) - omega (trackPointer 500 3 1 lamp0))
    <= 0.324.
Proof.
  destruct (pointer_push_bounded quietEnv []) as (H1 & H2 & _).
  apply H2. apply H1.
Defined.

(** ** Releasing the lamp *)

Ltac split_clamps :=
  unfold clamp, Rmax, Rmin;
  repeat match goal with
         | |- context [Rle_dec ?x ?y] =>
             lazymatch x with
             | context [Rle_dec _ _] => fail
             | _ => lazymatch y with
                    | context [Rle_dec _ _] => fail
                    | _ => destruct (Rle_dec x y)
                    end
             end
         end.

Lemma clamp_odd (v b : R) :
  0 <= b -> clamp (- v) (- b) b = - clamp v (- b) b.
Proof. intros Hb. split_clamps; lra. Qed.

Lemma endGrab_omega now s :
  grabbing (lamp s) = true ->
  omega (lamp (endGrab now s)) =
  clamp (clamp (omega (lamp s)
                + 1000 * pointerCross (lamp s)
                  / ((px (lamp s) - pivotX (lamp s)) * (px (lamp s) - pivotX (lamp s))
                     + (py (lamp s) - pivotY (lamp s)) * (py (lamp s) - pivotY (lamp s))
                     + 1e-6) * 0.28)
           (- OMEGA_MAX) OMEGA_MAX * 1.05) (- OMEGA_MAX) OMEGA_MAX.
Proof.
  intros Hg. unfold endGrab. rewrite Hg. simpl. unfold pointerCross.
  f_equal. f_equal. f_equal. f_equal. f_equal. unfold Rdiv. ring.
Qed.

(** X4. Releasing the lamp: [endGrab] on a free lamp does nothing, so the
    second of [pointerup] and [pointercancel] is harmless; on a held lamp
    it frees the lamp, arms a spike of 180 ms and leaves the velocity
    clamped; the flick it adds has the sign of the pointer's moment about
    the pivot, so a lamp released at rest starts in that direction, and a
    flick along the current swing never slows it. *)
Theorem release_flick (now : R) (s : Session) :
  (grabbing (lamp s) = false -> endGrab now s = s) /\
  (forall now', endGrab now' (endGrab now s) = endGrab now s) /\
  (grabbing (lamp s) = true ->
   grabbing (lamp (endGrab now s)) = false /\
   spikeUntil (mood (endGrab now s)) = now + 180 /\
   theta (lamp (endGrab now s)) = theta (lamp s) /\
   Rabs (omega (lamp (endGrab now s))) <= OMEGA_MAX /\
   (omega (lamp s) = 0 ->
    (0 < pointerCross (lamp s) -> 0 < omega (lamp (endGrab now s))) /\
    (pointerCross (lamp s) < 0 -> omega (lamp (endGrab now s)) < 0) /\
    (pointerCross (lamp s) = 0 -> omega (lamp (endGrab now s)) = 0)) /\
   (0 <= omega (lamp s) <= OMEGA_MAX -> 0 <= pointerCross (lamp s) ->
    omega (lamp s) <= omega (lamp (endGrab now s))) /\
   (- OMEGA_MAX <= omega (lamp s) <= 0 -> pointerCross (lamp s) <= 0 ->
    omega (lamp (endGrab now s)) <= omega (lamp s))).
Proof.
  assert (Hfree : forall t s0, grabbing (lamp s0) = false -> endGrab t s0 = s0).
  { intros t s0 H. unfold endGrab. rewrite H. reflexivity. }
  assert (Hrel : forall s0, grabbing (lamp s0) = true ->
                            grabbing (lamp (endGrab now s0)) = false).
  { intros s0 H. unfold endGrab. rewrite H. reflexivity. }
  split; [apply Hfree|]. split.
  - intros now'. destruct (grabbing (lamp s)) eqn:Hg.
    + apply Hfree, Hrel, Hg.
    + rewrite (Hfree now s Hg). apply Hfree, Hg.
  - intros Hg.
    split; [apply Hrel, Hg|].
    split; [unfold endGrab; rewrite Hg; reflexivity|].
    split; [unfold endGrab; rewrite Hg; reflexivity|].
    split; [apply endGrab_omega_range, Hg|].
    rewrite (endGrab_omega now s Hg).
    set (r2 := (px (lamp s) - pivotX (lamp s)) * (px (lamp s) - pivotX (lamp s))
               + (py (lamp s) - pivotY (lamp s)) * (py (lamp s) - pivotY (lamp s))
               + 1e-6).
    assert (Hr2 : 0 < r2).
    { unfold r2.
      pose proof (Rle_0_sqr (px (lamp s) - pivotX (lamp s))) as Hx.
      pose proof (Rle_0_sqr (py (lamp s) - pivotY (lamp s))) as Hy.
      unfold Rsqr in Hx, Hy. lra. }
    assert (Hinv : 0 < / r2) by (apply Rinv_0_lt_compat, Hr2).
    set (c := pointerCross (lamp s)).
    set (k := 1000 * c / r2 * 0.28).
    assert (Hk : k = c * (280 * / r2)).
    { unfold k, Rdiv. set (u := c * / r2).
      replace (1000 * c * / r2) with (1000 * u) by (unfold u; ring).
      replace (c * (280 * / r2)) with (280 * u) by (unfold u; ring).
      lra. }
    assert (Hk280 : 0 < 280 * / r2) by lra.
    set (w0 := omega (lamp s)).
    unfold OMEGA_MAX.
    split; [|split].
    + intros Hw. rewrite Hw.
      split; [|split]; intros Hc.
      * assert (0 < k) by (rewrite Hk; apply Rmult_lt_0_compat; lra).
        split_clamps; lra.
      * assert (k < 0) by (rewrite Hk; nra).
        split_clamps; lra.
      * assert (k = 0) by (rewrite Hk, Hc; ring).
        split_clamps; lra.
    + intros Hw Hc. unfold OMEGA_MAX in Hw.
      assert (0 <= k) by (rewrite Hk; apply Rmult_le_pos; lra).
      split_clamps; lra.
    + intros Hw Hc. unfold OMEGA_MAX in Hw.
      assert (k <= 0) by (rewrite Hk; nra).
      split_clamps; lra.
Qed.

(** A held lamp at rest, the pointer to the right of the pivot and moving
    down. *)
Lemma release_flick_witness :
  0 < omega (lamp (endGrab 5
        (mkSession state0
           (set_grabbing true (set_pointer 10 0 0 1 0 lamp0)) world0))) /\
  endGrab 7 calmSession = calmSession.
Proof.
  set (s := mkSession state0
              (set_grabbing true (set_pointer 10 0 0 1 0 lamp0)) world0).
  destruct (release_flick 5 s) as (_ & _ & H).
  destruct (release_flick 7 calmSession) as (H0 & _).
  split.
  - destruct (H eq_refl) as (_ & _ & _ & _ & Hrest & _).
    destruct (Hrest eq_refl) as (Hpos & _).
    apply Hpos. unfold pointerCross, s. simpl. lra.
  - apply H0. reflexivity.
Defined.

(** ** The side of the pointer *)

Lemma atan2_positive (y x : R) : 0 < y -> 0 < Math_atan2 y x.
Proof.
  intros Hy. unfold Math_atan2. pose proof PI_RGT_0 as Hpi.
  destruct (Rlt_dec 0 x) as [Hx|Hx].
  - rewrite <- atan_0. apply atan_increasing. apply Rdiv_lt_0_compat; lra.
  - destruct (Rlt_dec x 0).
    + destruct (Rle_dec 0 y); [|lra].
      pose proof (atan_bound (y / x)). lra.
    + destruct (Rlt_dec 0 y); lra.
Qed.

Lemma angleFromPointer_plumb (l : Lamp) (y : R) :
  (pivotY l <= y -> angleFromPointer l (pivotX l) y = 0) /\
  (y < pivotY l -> angleFromPointer l (pivotX l) y = MAX).
Proof.
  assert (HM : 0 < MAX) by (unfold MAX; lra).
  unfold angleFromPointer.
  replace (pivotX l - pivotX l) with 0 by ring.
  rewrite Rabs_R0.
  destruct (Req_dec_T 0 0) as [_|Hne]; [|lra].
  split; intros Hy.
  - assert (E : Math_atan2 0 (y - pivotY l) = 0).
    { unfold Math_atan2.
      destruct (Rlt_dec 0 (y - pivotY l)).
      - unfold Rdiv. rewrite Rmult_0_l. apply atan_0.
      - destruct (Rlt_dec (y - pivotY l) 0); [lra|].
        destruct (Rlt_dec 0 0); [lra|reflexivity]. }
    rewrite E, Rmult_0_l. apply clamp_id. lra.
  - rewrite atan2_above by lra. rewrite Rmult_1_r.
    apply clamp_high; [lra|].
    pose proof MAX_below_quarter_turn. pose proof PI_RGT_0. lra.
Qed.

(** X5. The angle read from the pointer has the sign of the pointer's side
    of the pivot, as the comment of [angleFromPointer] promises: positive
    to the right, negative to the left.  Two pointers mirrored about the
    vertical through the pivot give opposite angles, with one exception: on
    that vertical the pointer is its own mirror, and there the angle is 0
    at the pivot and below it, but [MAX] straight above it, which is not
    its own opposite. *)
Theorem angleFromPointer_side (l : Lamp) (x y : R) :
  (pivotX l < x -> 0 < angleFromPointer l x y) /\
  (x < pivotX l -> angleFromPointer l x y < 0) /\
  (x <> pivotX l \/ pivotY l <= y ->
   angleFromPointer l (2 * pivotX l - x) y = - angleFromPointer l x y) /\
  (x = pivotX l -> pivotY l <= y -> angleFromPointer l x y = 0) /\
  (x = pivotX l -> y < pivotY l ->
   angleFromPointer l x y = MAX /\
   angleFromPointer l (2 * pivotX l - x) y <> - angleFromPointer l x y).
Proof.
  assert (HM : 0 < MAX) by (unfold MAX; lra).
  destruct (angleFromPointer_plumb l y) as [Hbelow Habove].
  split; [|split; [|split; [|split]]].
  - intros Hx. unfold angleFromPointer.
    assert (Hd : 0 < x - pivotX l) by lra.
    destruct (Req_dec_T (x - pivotX l) 0); [lra|].
    unfold Math_sign. destruct (Rlt_dec 0 (x - pivotX l)); [|lra].
    pose proof (atan2_positive (Rabs (x - pivotX l)) (y - pivotY l)
                  (Rabs_pos_lt _ n)) as Hth.
    split_clamps; lra.
  - intros Hx. unfold angleFromPointer.
    assert (Hd : x - pivotX l < 0) by lra.
    destruct (Req_dec_T (x - pivotX l) 0); [lra|].
    unfold Math_sign. destruct (Rlt_dec 0 (x - pivotX l)); [lra|].
    destruct (Rlt_dec (x - pivotX l) 0); [|lra].
    pose proof (atan2_positive (Rabs (x - pivotX l)) (y - pivotY l)
                  (Rabs_pos_lt _ n)) as Hth.
    split_clamps; lra.
  - intros Hxy. destruct (Req_dec_T x (pivotX l)) as [Ex|Hx].
    + destruct Hxy as [Hne|Hy]; [contradiction|].
      subst x. replace (2 * pivotX l - pivotX l) with (pivotX l) by ring.
      rewrite (Hbelow Hy). ring.
    + unfold angleFromPointer.
      replace (2 * pivotX l - x - pivotX l) with (- (x - pivotX l)) by ring.
      rewrite Rabs_Ropp.
      set (d := x - pivotX l). assert (Hd : d <> 0) by (unfold d; lra).
      set (th := Math_atan2 (Rabs d) (y - pivotY l)).
      destruct (Req_dec_T (- d) 0); [lra|].
      destruct (Req_dec_T d 0); [lra|].
      assert (Hs : Math_sign (- d) = - Math_sign d).
      { unfold Math_sign.
        destruct (Rlt_dec 0 (- d)); destruct (Rlt_dec 0 d);
          destruct (Rlt_dec (- d) 0); destruct (Rlt_dec d 0); lra. }
      rewrite Hs.
      replace (th * - Math_sign d) with (- (th * Math_sign d)) by ring.
      apply clamp_odd. lra.
  - intros -> Hy. apply Hbelow, Hy.
  - intros -> Hy.
    replace (2 * pivotX l - pivotX l) with (pivotX l) by ring.
    rewrite (Habove Hy). split; [reflexivity|lra].
Qed.

Lemma angleFromPointer_side_witness :
  0 < angleFromPointer lamp0 5 40 /\
  angleFromPointer lamp0 (-5) 40 < 0 /\
  angleFromPointer lamp0 (2 * pivotX lamp0 - 5) 40
    = - angleFromPointer lamp0 5 40 /\
  angleFromPointer lamp0 0 40 = 0 /\
  angleFromPointer lamp0 0 (-5) = MAX.
Proof.
  destruct (angleFromPointer_side lamp0 5 40) as (H1 & _ & H3 & _).
  destruct (angleFromPointer_side lamp0 (-5) 40) as (_ & H2 & _).
  destruct (angleFromPointer_side lamp0 0 40) as (_ & _ & _ & H4 & _).
  destruct (angleFromPointer_side lamp0 0 (-5)) as (_ & _ & _ & _ & H5).
  split; [|split; [|split; [|split]]].
  - apply H1. simpl. lra.
  - apply H2. simpl. lra.
  - apply H3. left. simpl. lra.
  - apply H4; [reflexivity|simpl; lra].
  - apply H5; [reflexivity|simpl; lra].
Defined.

(** ** The scale of the lamp *)

Lemma readLampScale_positive parsed : 0 < readLampScale parsed.
Proof.
  unfold readLampScale. destruct parsed as [p|]; [|lra].
  destruct (Rle_dec p 0); lra.
Qed.

(** X6. The scale read from the style sheet is always positive: a value
    that does not parse, or is not positive, reads as 1; after
    [updateLampScale] the four lengths of the lamp are their base values
    times that scale, hence positive, and the motion of the lamp and the
    pointer are untouched.  The same holds after any run from the setup. *)
Theorem lamp_scale_positive (parsed : option R) (l : Lamp) :
  0 < readLampScale parsed /\
  readLampScale None = 1 /\
  (forall p, p <= 0 -> readLampScale (Some p) = 1) /\
  (forall p, 0 < p -> readLampScale (Some p) = p) /\
  (let l' := updateLampScale parsed l in
   lampScale l' = readLampScale parsed /\
   scaledL l' = 182 * lampScale l' /\
   scaledBeamMax l' = 520 * lampScale l' /\
   scaledProximity l' = 160 * lampScale l' /\
   scaledNear l' = 200 * lampScale l' /\
   0 < scaledNear l' /\ 0 < scaledProximity l' /\
   theta l' = theta l /\ omega l' = omega l /\ grabbing l' = grabbing l) /\
  (forall env es rnd iw now left top width,
     let s := run env es (boot rnd iw now left top width parsed) in
     0 < lampScale (lamp s) /\
     scaledL (lamp s) = 182 * lampScale (lamp s) /\
     scaledBeamMax (lamp s) = 520 * lampScale (lamp s) /\
     scaledProximity (lamp s) = 160 * lampScale (lamp s) /\
     scaledNear (lamp s) = 200 * lampScale (lamp s)).
Proof.
  pose proof (readLampScale_positive parsed) as Hpos.
  split; [exact Hpos|]. split; [reflexivity|].
  split; [intros p Hp; unfold readLampScale; destruct (Rle_dec p 0); lra|].
  split; [intros p Hp; unfold readLampScale; destruct (Rle_dec p 0); lra|].
  split.
  - unfold updateLampScale, set_scale, BASE_L, BASE_BEAM_MAX, BASE_PROXIMITY,
      BASE_NEAR. simpl. repeat split; try reflexivity; lra.
  - intros env es rnd iw now left top width s.
    set (scaled := fun l : Lamp =>
           0 < lampScale l /\ scaledL l = 182 * lampScale l /\
           scaledBeamMax l = 520 * lampScale l /\
           scaledProximity l = 160 * lampScale l /\
           scaledNear l = 200 * lampScale l).
    change (scaled (lamp s)).
    assert (Hstep : forall e s0, scaled (lamp s0) -> scaled (lamp (step env e s0))).
    { intros e s0 H0. destruct e; try exact H0.
      - simpl. unfold frame. destruct (frameCore i s0) as [s1 out] eqn:E.
        assert (Hl : scaled (lamp s1)).
        { replace s1 with (fst (frameCore i s0)) by (rewrite E; reflexivity).
          change (scaled (frameLamp (f_t i) s0)).
          unfold frameLamp, physics. destruct (negb _); exact H0. }
        unfold frameTail, bind.
        pose proof (audioTick_keeps_lamp env (ctx_suspended i) (f_t i) s1) as Hk.
        destruct (audioTick env (ctx_suspended i) (f_t i) s1) as [s2 [[]|]];
          simpl in Hk |- *; rewrite Hk.
        + destruct (num_gt _ _); [|exact Hl].
          unfold scaled, updateLampScale, set_scale, BASE_L, BASE_BEAM_MAX,
            BASE_PROXIMITY, BASE_NEAR. simpl.
          pose proof (readLampScale_positive (css_scale i)).
          repeat split; try reflexivity; lra.
        + exact Hl.
      - change (step env (EPointerDown clientX now0 now') s0)
          with (fst (pointerdown env clientX now0 now' s0)).
        rewrite pointerdown_lamp. exact H0.
      - simpl. unfold pointermove. destruct (grabbing (lamp s0)); simpl; exact H0.
      - simpl. unfold endGrab. destruct (grabbing (lamp s0)); simpl; exact H0.
      - simpl. unfold scaled, updateLampScale, set_scale, BASE_L, BASE_BEAM_MAX,
          BASE_PROXIMITY, BASE_NEAR. simpl.
        pose proof (readLampScale_positive parsed0).
        repeat split; try reflexivity; lra. }
    unfold s. set (s0 := boot rnd iw now left top width parsed).
    assert (H0 : scaled (lamp s0)).
    { unfold scaled, s0, boot, setupLamp, recalcPivot, updateLampScale,
        set_scale, BASE_L, BASE_BEAM_MAX, BASE_PROXIMITY, BASE_NEAR. simpl.
      repeat split; try reflexivity; lra. }
    clearbody s0. revert s0 H0.
    induction es as [|e es IH]; intros s0 H0; simpl.
    + exact H0.
    + apply IH, Hstep, H0.
Qed.

Lemma lamp_scale_positive_witness :
  readLampScale (Some (-2)) = 1 /\ readLampScale (Some 0.5) = 0.5.
Proof.
  destruct (lamp_scale_positive None lamp0) as (_ & _ & H1 & H2 & _).
  split; [apply H1|apply H2]; lra.
Defined.

(** ** The pace of the anxiety *)

Lemma anxTarget_floor near speed spike :
  0 <= near -> 0 <= speed -> 0 <= spike -> 0.10 <= anxTarget near speed spike.
Proof.
  intros H1 H2 H3. unfold anxTarget. split_clamps; lra.
Qed.

Lemma spikeAt_range t u : 0 <= spikeAt t u <= 1.
Proof.
  unfold spikeAt. destruct (num_lt t u); [apply clamp_bounds|]; lra.
Qed.

Lemma frameTarget_floor t m l : 0.10 <= frameTarget t m l <= 1.
Proof.
  split; [|apply frameTarget_range].
  unfold frameTarget. apply anxTarget_floor.
  - apply clamp_bounds. lra.
  - apply clamp_bounds. lra.
  - apply spikeAt_range.
Qed.

(** X7. The target of the anxiety is never below 0.10, so a frame moves the
    anxiety to between [0.94 * anx + 0.006] and [0.94 * anx + 0.06]: at
    most 0.06 in one frame from inside [[0, 1]], and never below 0.10 again
    once it has reached it, whatever the events in between. *)
Theorem anxiety_pace (env : AudioEnv) (e : Event) (s : Session) :
  (forall t m l, 0.10 <= frameTarget t m l <= 1) /\
  (forall i, e = EFrame i ->
     0.94 * anx (mood s) + 0.006 <= anx (mood (step env e s))
       <= 0.94 * anx (mood s) + 0.06) /\
  (0 <= anx (mood s) <= 1 ->
   Rabs (anx (mood (step env e s)) - anx (mood s)) <= 0.06) /\
  (0.10 <= anx (mood s) -> 0.10 <= anx (mood (step env e s))).
Proof.
  split; [apply frameTarget_floor|].
  assert (Hf : forall i, e = EFrame i ->
     0.94 * anx (mood s) + 0.006 <= anx (mood (step env e s))
       <= 0.94 * anx (mood s) + 0.06).
  { intros i ->. rewrite step_anx.
    pose proof (frameTarget_floor (f_t i) (mood s) (frameLamp (f_t i) s)) as Ht.
    set (tg := frameTarget _ _ _) in *. unfold lerp. lra. }
  split; [exact Hf|]. split.
  - intros Ha. destruct e;
      try (rewrite step_anx;
           replace (anx (mood s) - anx (mood s)) with 0 by ring;
           rewrite Rabs_R0; lra).
    specialize (Hf i eq_refl). apply Rabs_le. lra.
  - intros Ha. destruct e; try (rewrite step_anx; exact Ha).
    specialize (Hf i eq_refl). lra.
Qed.

Lemma anxiety_pace_witness :
  Rabs (anx (mood (step quietEnv (EFrame frameIn0) calmSession))
        - anx (mood calmSession)) <= 0.06 /\
  0.006 <= anx (mood (step quietEnv (EFrame frameIn0) calmSession)).
Proof.
  destruct (anxiety_pace quietEnv (EFrame frameIn0) calmSession)
    as (_ & H1 & H2 & _).
  split.
  - apply H2. change (anx (mood calmSession)) with 0. lra.
  - destruct (H1 frameIn0 eq_refl) as [Hl _].
    change (anx (mood calmSession)) with 0 in Hl. lra.
Defined.

(** ** Blackouts *)

Lemma frameCore_blackoutUntil i s :
  blackoutUntil (mood (fst (frameCore i s))) =
  if num_lt (blackoutUntil (mood s)) (f_t i)
     && num_gt (anx (mood (fst (frameCore i s)))) 0.68
     && num_lt (rnd_blackout i) 0.012
  then f_t i + 70 + rnd_blackoutLen i * 140
  else blackoutUntil (mood s).
Proof.
  rewrite frameCore_anx. unfold frameCore. cbv zeta. cbn [fst mood].
  fold (nextAnx (f_t i) (mood s) (frameLamp (f_t i) s)).
  unfold nextAnx.
  set (a := lerp _ _ _).
  cbn [set_cam set_anx blackoutUntil anx].
  destruct (_ && _); reflexivity.
Qed.

Lemma step_blackoutUntil_other env e s :
  (forall i, e <> EFrame i) ->
  blackoutUntil (mood (step env e s)) = blackoutUntil (mood s).
Proof.
  intros He. destruct e; try reflexivity.
  - exfalso. apply (He i). reflexivity.
  - simpl. rewrite pointerdown_mood. simpl.
    assert (Hk : keeps (fun s => blackoutUntil (mood s)) (ensureHum env)).
    { intros s0. unfold ensureHum.
      destruct (audioStarted (mood s0)); [reflexivity|].
      destruct (negb (hasAC env)); [reflexivity|].
      apply (keeps_try_catch (fun s => blackoutUntil (mood s))).
      unfold buildHum, create, connect, start, setTargetAtTime, set_value,
        set_buffer.
      repeat first
        [ apply call_keeps_view; intros ? ?; reflexivity
        | progress keeps_steps ]. }
    apply Hk.
  - simpl. unfold pointermove. destruct (negb _); reflexivity.
  - simpl. unfold endGrab. destruct (negb _); reflexivity.
Qed.

(** X8. Only a frame starts a blackout, and only when none is running, the
    anxiety after the frame is above 0.68 and the draw is below 0.012; it
    then lasts from 70 to under 210 ms.  A running blackout is neither cut
    short nor extended, and the end of the blackout never moves back. *)
Theorem blackout_windows (env : AudioEnv) (i : FrameIn) (s : Session) :
  let s' := step env (EFrame i) s in
  let t := f_t i in
  (blackoutUntil (mood s') <> blackoutUntil (mood s) ->
   blackoutUntil (mood s) < t /\ anx (mood s') > 0.68 /\
   rnd_blackout i < 0.012 /\
   blackoutUntil (mood s') = t + 70 + rnd_blackoutLen i * 140) /\
  (blackoutUntil (mood s) < t -> anx (mood s') > 0.68 ->
   rnd_blackout i < 0.012 ->
   blackoutUntil (mood s') = t + 70 + rnd_blackoutLen i * 140) /\
  (t <= blackoutUntil (mood s) ->
   blackoutUntil (mood s') = blackoutUntil (mood s)) /\
  (0 <= rnd_blackoutLen i < 1 ->
   blackoutUntil (mood s) <= blackoutUntil (mood s') /\
   (blackoutUntil (mood s') <> blackoutUntil (mood s) ->
    t + 70 <= blackoutUntil (mood s') < t + 210)) /\
  (forall e, (forall j, e <> EFrame j) ->
     blackoutUntil (mood (step env e s)) = blackoutUntil (mood s)).
Proof.
  intros s' t.
  assert (Hm : mood s' = mood (fst (frameCore i s)))
    by (destruct (frame_after_core env i s) as [_ H]; exact H).
  pose proof (frameCore_blackoutUntil i s) as Hb.
  rewrite <- Hm in Hb. fold t in Hb.
  destruct (num_lt (blackoutUntil (mood s)) t) eqn:E1;
    destruct (num_gt (anx (mood s')) 0.68) eqn:E2;
    destruct (num_lt (rnd_blackout i) 0.012) eqn:E3;
    cbn [andb] in Hb;
    try apply num_lt_true in E1; try apply num_lt_false in E1;
    try apply num_gt_true in E2; try apply num_gt_false in E2;
    try apply num_lt_true in E3; try apply num_lt_false in E3;
    (split; [intros Hne; try (exfalso; apply Hne; exact Hb); auto|];
     split; [intros; try exact Hb; lra|];
     split; [intros; try exact Hb; lra|];
     split; [intros Hr; rewrite Hb; split; [lra|intros; lra]|];
     intros e He; apply step_blackoutUntil_other; exact He).
Qed.

(** A tense page in which no blackout runs, and a frame whose draw starts
    one. *)
Lemma blackout_windows_witness :
  let s := mkSession (set_anx 1 state0) lamp0 world0 in
  let i := mkFrameIn 16 0.001 0.5 0 0 0 0 0 0 0 0 false None in
  blackoutUntil (mood (step quietEnv (EFrame i) s)) = 16 + 70 + 0.5 * 140.
Proof.
  intros s i.
  destruct (blackout_windows quietEnv i s) as (_ & H & _).
  apply H.
  - simpl. lra.
  - rewrite step_anx.
    pose proof (frameTarget_floor (f_t i) (mood s) (frameLamp (f_t i) s)) as Ht.
    set (tg := frameTarget _ _ _) in *. unfold lerp. simpl. lra.
  - simpl. lra.
Defined.

(** ** The camera *)

Lemma frameCore_cam i s :
  let a := anx (mood (fst (frameCore i s))) in
  camx (mood (fst (frameCore i s))) =
    lerp (camx (mood s)) ((rnd_camx i * 2 - 1) * a * 1.6) 0.12 /\
  camy (mood (fst (frameCore i s))) =
    lerp (camy (mood s)) ((rnd_camy i * 2 - 1) * a * 1.1) 0.12.
Proof.
  unfold frameCore. cbv zeta. cbn [fst mood].
  fold (nextAnx (f_t i) (mood s) (frameLamp (f_t i) s)).
  set (a := nextAnx _ _ _).
  destruct (_ && _); split; reflexivity.
Qed.

Lemma step_cam_other env e s :
  (forall i, e <> EFrame i) ->
  camx (mood (step env e s)) = camx (mood s) /\
  camy (mood (step env e s)) = camy (mood s).
Proof.
  intros He. destruct e; try (split; reflexivity).
  - exfalso. apply (He i). reflexivity.
  - simpl. rewrite pointerdown_mood. simpl.
    assert (Hk : keeps (fun s => (camx (mood s), camy (mood s))) (ensureHum env)).
    { intros s0. unfold ensureHum.
      destruct (audioStarted (mood s0)); [reflexivity|].
      destruct (negb (hasAC env)); [reflexivity|].
      apply (keeps_try_catch (fun s => (camx (mood s), camy (mood s)))).
      unfold buildHum, create, connect, start, setTargetAtTime, set_value,
        set_buffer.
      repeat first
        [ apply call_keeps_view; intros ? ?; reflexivity
        | progress keeps_steps ]. }
    specialize (Hk s). injection Hk as Hx Hy. auto.
  - simpl. unfold pointermove. destruct (negb _); split; reflexivity.
  - simpl. unfold endGrab. destruct (negb _); split; reflexivity.
Qed.

Lemma step_cam_range env e s :
  eventDraws e ->
  0 <= anx (mood s) <= 1 ->
  Rabs (camx (mood s)) <= 1.6 /\ Rabs (camy (mood s)) <= 1.1 ->
  Rabs (camx (mood (step env e s))) <= 1.6 /\
  Rabs (camy (mood (step env e s))) <= 1.1.
Proof.
  intros Hd Ha [Hx Hy].
  assert (Hother : (forall i, e <> EFrame i) ->
    Rabs (camx (mood (step env e s))) <= 1.6 /\
    Rabs (camy (mood (step env e s))) <= 1.1).
  { intros He. destruct (step_cam_other env e s He) as [Ex Ey].
    rewrite Ex, Ey. auto. }
  destruct e; try (apply Hother; intros j; discriminate).
  pose proof (step_anx_range env (EFrame i) s Ha) as Ha'.
  simpl in Ha' |- *.
  destruct (frame_after_core env i s) as [_ Hm]. rewrite Hm in *.
  destruct (frameCore_cam i s) as [Ex Ey]. rewrite Ex, Ey.
  set (a := anx (mood (fst (frameCore i s)))) in *.
  destruct Hd as (_ & _ & [Hc1 Hc2] & [Hc3 Hc4] & _).
  apply Rabs_le_between in Hx, Hy.
  unfold lerp. split; apply Rabs_le; split; nra.
Qed.

(** X9. With draws of [Math.random] in [[0, 1)], the smoothed camera offset
    stays within 1.6 px horizontally and 1.1 px vertically through any run
    of events from the setup of the page. *)
Theorem camera_offset_bounded (env : AudioEnv) (es : list Event) :
  Forall eventDraws es ->
  forall rnd iw now left top width parsed,
    let s := run env es (boot rnd iw now left top width parsed) in
    Rabs (camx (mood s)) <= 1.6 /\ Rabs (camy (mood s)) <= 1.1.
Proof.
  intros Hd rnd iw now left top width parsed.
  set (s0 := boot rnd iw now left top width parsed).
  assert (H0 : 0 <= anx (mood s0) <= 1 /\
               Rabs (camx (mood s0)) <= 1.6 /\ Rabs (camy (mood s0)) <= 1.1).
  { simpl. rewrite Rabs_R0. lra. }
  clearbody s0. revert s0 H0.
  induction Hd as [|e es He Hes IH]; intros s0 (Ha & Hc); simpl.
  - exact Hc.
  - apply IH. split.
    + apply step_anx_range, Ha.
    + apply step_cam_range; assumption.
Qed.

Lemma camera_offset_bounded_witness :
  Rabs (camx (mood (run quietEnv [EFrame frameIn0; EPointerUp 3]
                      (boot 0.5 1000 0 0 0 100 None)))) <= 1.6.
Proof.
  apply (camera_offset_bounded quietEnv [EFrame frameIn0; EPointerUp 3]).
  repeat constructor; simpl; lra.
Defined.

(** ** More of the beam *)

(** X10. The visibility of the beam is always in [[0, 1]], so the clamp
    before it is written never changes it; a blackout multiplies it by
    exactly 0.08; it is 0 within 10 px of the apex; and on the axis, from
    70 px below the apex to 100 px before the end of the beam, it is the
    flicker alone, at least 0.8 outside a blackout. *)
Theorem beam_visibility_profile (beamMax t a : R) (along perp : R) :
  (forall blackout,
     0 <= perp -> 0 <= beamVis beamMax t a blackout along perp <= 1) /\
  (forall i s, o_logoVis (snd (frameCore i s)) = frameVis i s) /\
  beamVis beamMax t a true along perp =
    0.08 * beamVis beamMax t a false along perp /\
  (forall blackout, along <= 10 ->
     beamVis beamMax t a blackout along perp = 0) /\
  (70 <= along <= beamMax - 100 ->
   beamVis beamMax t a false along 0 =
     0.90 + 0.10 * sin (t * (0.010 + a * 0.010)) /\
   0.8 <= beamVis beamMax t a false along 0).
Proof.
  split; [intros blackout Hp; apply beamVis_range, Hp|].
  split; [intros i s; apply frameCore_logo|].
  split; [|split].
  - unfold beamVis.
    replace (1 - 0.92) with 0.08 by lra. replace (1 - 0) with 1 by lra.
    generalize 0.08. intros c. destruct (_ && _); ring.
  - intros blackout Ha. unfold beamVis.
    destruct (num_gt along 0 && num_lt along beamMax); [|reflexivity].
    assert (Hs : smoothstep 10 70 along = 0).
    { unfold smoothstep. rewrite clamp_low by lra. ring. }
    rewrite Hs. ring.
  - intros [H1 H2]. unfold beamVis.
    assert (E1 : num_gt along 0 = true) by (apply num_gt_true; lra).
    assert (E2 : num_lt along beamMax = true) by (apply num_lt_true; lra).
    rewrite E1, E2. cbn [andb].
    assert (Hin : smoothstep 10 70 along = 1).
    { unfold smoothstep. rewrite clamp_high by lra. ring. }
    assert (Hout : smoothstep (beamMax - 100) beamMax along = 0).
    { unfold smoothstep.
      replace (beamMax - (beamMax - 100)) with 100 by ring.
      rewrite clamp_low by lra. ring. }
    assert (Hedge : smoothstep 0.0 1.0
                      (1 - 0 / (along * tan BEAM_HALF_ANGLE + 1e-6)) = 1).
    { replace (0 / (along * tan BEAM_HALF_ANGLE + 1e-6)) with 0
        by (unfold Rdiv; ring).
      unfold smoothstep. rewrite clamp_high; lra. }
    rewrite Hin, Hout, Hedge.
    pose proof (SIN_bound (t * (0.010 + a * 0.010))) as [Hs _].
    split; lra.
Qed.

Lemma beam_visibility_profile_witness :
  0 <= beamVis 520 0 0 false 100 3 <= 1 /\
  beamVis 520 0 0 true 5 3 = 0 /\
  0.8 <= beamVis 520 0 0 false 100 0.
Proof.
  destruct (beam_visibility_profile 520 0 0 100 3) as (H1 & _).
  destruct (beam_visibility_profile 520 0 0 5 3) as (_ & _ & _ & H2 & _).
  destruct (beam_visibility_profile 520 0 0 100 0) as (_ & _ & _ & _ & H3).
  split; [|split].
  - apply H1. lra.
  - apply H2. lra.
  - apply H3. lra.
Defined.

(** ** Sound only after a gesture *)

Lemma frameCore_web i s : web (fst (frameCore i s)) = web s.
Proof. reflexivity. Qed.

Lemma frameCore_audio i s :
  audio (mood (fst (frameCore i s))) = audio (mood s).
Proof.
  unfold frameCore. simpl. destruct (_ && _); reflexivity.
Qed.

Lemma frame_web_unstarted env i s :
  audioStarted (mood s) = false -> web (fst (frame env i s)) = web s.
Proof.
  intros Hs. unfold frame.
  pose proof (frameCore_audioStarted i s) as Ha.
  pose proof (frameCore_web i s) as Hw.
  destruct (frameCore i s) as [s1 out]. cbn [fst] in Ha, Hw.
  unfold frameTail, bind, audioTick. rewrite Ha, Hs. cbn. exact Hw.
Qed.

Lemma step_web_unstarted env e s :
  audioStarted (mood s) = false ->
  is_pointerdown e = false \/ hasAC env = false ->
  web (step env e s) = web s /\ audioStarted (mood (step env e s)) = false.
Proof.
  intros Hs He.
  destruct e; try (split; [reflexivity|exact Hs]).
  - split; [apply frame_web_unstarted, Hs|].
    rewrite step_audioStarted by reflexivity. exact Hs.
  - destruct He as [He|He]; [discriminate He|].
    simpl. rewrite pointerdown_web, pointerdown_mood.
    rewrite (ensureHum_unavailable env s He). auto.
  - simpl. unfold pointermove. destruct (negb _); auto.
  - simpl. unfold endGrab. destruct (negb _); auto.
Qed.

(** X11. Sound starts only from a gesture: in a run of events from the
    setup of the page, as long as there has been no pointer-down on the
    lamp (or in a browser without [AudioContext], whatever the events) no
    Web Audio call is made, no audio object exists and [audioStarted] is
    false. *)
Theorem no_sound_before_gesture (env : AudioEnv) (es : list Event) :
  Forall (fun e => is_pointerdown e = false) es \/ hasAC env = false ->
  forall rnd iw now left top width parsed,
    let s := run env es (boot rnd iw now left top width parsed) in
    web s = world0 /\ audioStarted (mood s) = false /\ audio (mood s) = None
    /\ calls (web s) = 0%nat.
Proof.
  intros H rnd iw now left top width parsed.
  set (s0 := boot rnd iw now left top width parsed).
  assert (H0 : web s0 = world0 /\ audioStarted (mood s0) = false /\
               audio (mood s0) = None) by (repeat split; reflexivity).
  clearbody s0. revert s0 H0.
  induction es as [|e es IH]; intros s0 (Hw & Hs & Ha); simpl.
  - rewrite Hw. auto.
  - assert (He : is_pointerdown e = false \/ hasAC env = false).
    { destruct H as [H|H]; [left|right; exact H].
      inversion H; assumption. }
    assert (Hes : Forall (fun e => is_pointerdown e = false) es
                  \/ hasAC env = false).
    { destruct H as [H|H]; [left|right; exact H].
      inversion H; assumption. }
    destruct (step_web_unstarted env e s0 Hs He) as [Hw' Hs'].
    apply (IH Hes). split; [rewrite Hw'; exact Hw|]. split; [exact Hs'|].
    destruct e; try exact Ha.
    + simpl. destruct (frame_after_core env i s0) as [_ Hm]. rewrite Hm.
      rewrite frameCore_audio. exact Ha.
    + destruct He as [He|He]; [discriminate He|].
      simpl. rewrite pointerdown_mood.
      rewrite (ensureHum_unavailable env s0 He). exact Ha.
    + simpl. unfold pointermove. destruct (negb _); exact Ha.
    + simpl. unfold endGrab. destruct (negb _); exact Ha.
Qed.

Lemma no_sound_before_gesture_witness :
  calls (web (run hummingEnv
                [EFrame frameIn0; ETrack 3 4 5; EPointerUp 9; EFrame frameIn0]
                (boot 0.5 1000 0 0 0 100 None))) = 0%nat /\
  calls (web (run quietEnv [EPointerDown 1 2 3; EFrame frameIn0]
                (boot 0.5 1000 0 0 0 100 None))) = 0%nat.
Proof.
  split.
  - apply (no_sound_before_gesture hummingEnv
             [EFrame frameIn0; ETrack 3 4 5; EPointerUp 9; EFrame frameIn0]).
    left. repeat constructor.
  - apply (no_sound_before_gesture quietEnv
             [EPointerDown 1 2 3; EFrame frameIn0]).
    right. reflexivity.
Defined.

(** ** Once the hum has started *)

Lemma call_keeps_graph env : keeps graph (call env).
Proof. intros s. unfold call. destruct (faults env _); reflexivity. Qed.

Lemma audioTick_keeps_graph env b t : keeps graph (audioTick env b t).
Proof.
  intros s. unfold audioTick.
  destruct (audioStarted (mood s)); [|reflexivity].
  destruct (audio (mood s)) as [h|]; [|reflexivity].
  assert (H : forall m : JS unit, keeps graph m ->
                forall s, graph (fst (m s)) = graph s)
    by (intros m Hm; exact Hm).
  apply H.
  unfold resume, setTargetAtTime.
  repeat first [ apply call_keeps_graph | progress keeps_steps ].
Qed.

Lemma frame_keeps_graph env i s : graph (fst (frame env i s)) = graph s.
Proof.
  unfold frame. destruct (frameCore i s) as [s1 out] eqn:E.
  assert (Hg : graph s1 = graph s)
    by (replace s1 with (fst (frameCore i s)) by (rewrite E; reflexivity);
        reflexivity).
  rewrite <- Hg.
  assert (Hk : keeps graph (frameTail env i out)).
  { unfold frameTail.
    apply keeps_bind; [apply audioTick_keeps_graph|intros _].
    apply keeps_bind; [|intros _; apply keeps_ret].
    apply keeps_modify. intros s0. reflexivity. }
  apply Hk.
Qed.

Lemma step_started env e s :
  audioStarted (mood s) = true ->
  audioStarted (mood (step env e s)) = true /\
  audio (mood (step env e s)) = audio (mood s) /\
  graph (step env e s) = graph s.
Proof.
  intros Hs. destruct e; try (repeat split; solve [reflexivity | exact Hs]).
  - simpl. destruct (frame_after_core env i s) as [_ Hm]. rewrite Hm.
    rewrite frameCore_audioStarted, frameCore_audio, frame_keeps_graph. auto.
  - simpl. unfold graph.
    rewrite pointerdown_web, pointerdown_mood, (ensureHum_started env s Hs).
    auto.
  - simpl. unfold pointermove. destruct (negb _); auto.
  - simpl. unfold endGrab. destruct (negb _); auto.
Qed.

(** X14. Starting the hum is one-way: once [audioStarted] is set, no event
    resets it, [state.audio] keeps naming the same objects, and no audio
    object is created, joined or started again for the rest of the
    session. *)
Theorem hum_started_for_good (env : AudioEnv) (es : list Event) (s : Session) :
  audioStarted (mood s) = true ->
  audioStarted (mood (run env es s)) = true /\
  audio (mood (run env es s)) = audio (mood s) /\
  nodes (web (run env es s)) = nodes (web s) /\
  wires (web (run env es s)) = wires (web s) /\
  running (web (run env es s)) = running (web s) /\
  count_kind KOscillator (web (run env es s)) = count_kind KOscillator (web s).
Proof.
  intros Hs.
  assert (H : audioStarted (mood (run env es s)) = true /\
              audio (mood (run env es s)) = audio (mood s) /\
              graph (run env es s) = graph s).
  { revert s Hs. induction es as [|e es IH]; intros s Hs; simpl.
    - auto.
    - destruct (step_started env e s Hs) as (H1 & H2 & H3).
      destruct (IH _ H1) as (G1 & G2 & G3).
      rewrite G2, G3, H2, H3. auto. }
  destruct H as (H1 & H2 & H3). unfold graph in H3. injection H3 as Hn Hw Hr.
  repeat split; try assumption.
  unfold count_kind. rewrite Hn. reflexivity.
Qed.

Lemma hum_started_for_good_witness :
  nodes (web (run hummingEnv
                [EPointerDown 0 9 9; EFrame frameIn0; EPointerUp 20]
                (step hummingEnv (EPointerDown 0 0 0) calmSession))) =
  nodes (web (step hummingEnv (EPointerDown 0 0 0) calmSession)).
Proof.
  apply (hum_started_for_good hummingEnv
           [EPointerDown 0 9 9; EFrame frameIn0; EPointerUp 20]
           (step hummingEnv (EPointerDown 0 0 0) calmSession)).
  reflexivity.
Defined.

(** ** The graph that is built *)

Lemma set_nth_value_last (l : list AudioNode) (n : AudioNode) (v : R) :
  set_nth_value (length l) v (l ++ [n]) = l ++ [mkNode (kind n) v].
Proof.
  induction l as [|a l IH]; simpl.
  - reflexivity.
  - rewrite IH. reflexivity.
Qed.

(** X12. When no construction call throws, [ensureHum] on a page whose hum
    has not started creates exactly nine audio objects after those already
    there: a 44 Hz oscillator through a gain of 0.12 and a noise source
    (over a buffer of two seconds) through a 500 Hz highpass, a 2400 Hz
    lowpass and a gain of 0.03, both into a master gain of 0 that feeds the
    context; it starts both sources, records the five handles with
    [audioStarted], leaves the rest of the shared state alone, and ramps
    the master gain to 0.05. *)
Theorem hum_graph_built (env : AudioEnv) (s : Session) :
  audioStarted (mood s) = false ->
  hasAC env = true ->
  constructionFails env (calls (web s)) = false ->
  let s' := fst (ensureHum env s) in
  let n := length (nodes (web s)) in
  audioStarted (mood s') = true /\
  audio (mood s') =
    Some (mkHandles n (n + 1) (n + 2) (n + 3) (n + 8)) /\
  nodes (web s') = nodes (web s) ++ humNodes (sampleRate env) /\
  wires (web s') = wires (web s) ++ humWires n /\
  running (web s') = running (web s) ++ [(n + 2)%nat; (n + 5)%nat] /\
  calls (web s') = (calls (web s) + 20)%nat /\
  (anx (mood s') = anx (mood s) /\ spikeUntil (mood s') = spikeUntil (mood s)
   /\ blackoutUntil (mood s') = blackoutUntil (mood s)
   /\ rippleOff (mood s') = rippleOff (mood s)) /\
  lamp s' = lamp s /\
  (faults env (19 + calls (web s)) = false ->
   targets (web s') = ((n + 1)%nat, 0.05) :: targets (web s)) /\
  (faults env (19 + calls (web s)) = true ->
   targets (web s') = targets (web s)).
Proof.
  intros Hs Ha Hf s' n.
  pose proof (constructionFails_false env _ Hf) as Hno.
  unfold s', ensureHum, try_catch. rewrite Hs, Ha. cbn [negb].
  unfold buildHum, create, connect, start, setTargetAtTime, set_value,
    set_buffer, call, bind, modify, get, ret.
  cbn.
  repeat clear_fault env Hno.
  destruct (faults env _) eqn:Eramp; cbn;
    repeat rewrite set_nth_value_last; cbn [kind];
    repeat rewrite <- app_assoc; cbn [app];
    repeat rewrite length_app; cbn [length]; fold n;
    (split; [reflexivity|]);
    (split; [repeat f_equal; lia|]);
    (split; [reflexivity|]);
    (split; [unfold humWires; repeat f_equal; lia|]);
    (split; [repeat f_equal; lia|]);
    (split; [lia|]);
    (split; [repeat split; reflexivity|]);
    (split; [reflexivity|]);
    (split; intros Hr;
     [ try discriminate Hr; f_equal; f_equal; lia
     | try discriminate Hr; reflexivity ]).
Qed.

Lemma hum_graph_built_witness :
  nodes (web (fst (ensureHum hummingEnv calmSession))) = humNodes 48000 /\
  wires (web (fst (ensureHum hummingEnv calmSession))) = humWires 0 /\
  targets (web (fst (ensureHum hummingEnv calmSession))) = [(1%nat, 0.05)].
Proof.
  destruct (hum_graph_built hummingEnv calmSession eq_refl eq_refl eq_refl)
    as (_ & _ & H1 & H2 & _ & _ & _ & _ & H3 & _).
  split; [exact H1|]. split; [exact H2|]. apply H3. reflexivity.
Defined.

(** ** The hum follows the mood *)

(** X13. [audioTick] does nothing until the hum has started.  Once it has,
    and the three calls go through, it asks for exactly three targets: the
    master gain [0.02 + anx * 0.055] (35% of that during a blackout), the
    oscillator frequency [40 + anx * 12] and the noise gain
    [0.02 + anx * 0.03]; it resumes a suspended context first, and changes
    nothing else.  For an anxiety in [[0, 1]] these stay within
    [[0.007, 0.075]], [[40, 52]] Hz and [[0.02, 0.05]]. *)
Theorem audioTick_targets (env : AudioEnv) (suspended : bool) (t : R)
  (s : Session) :
  (audioStarted (mood s) = false \/ audio (mood s) = None ->
   audioTick env suspended t s = (s, Normal tt)) /\
  (forall h,
     audioStarted (mood s) = true -> audio (mood s) = Some h ->
     faults env (calls (web s)) = false ->
     faults env (1 + calls (web s)) = false ->
     faults env (2 + calls (web s)) = false ->
     let s' := fst (audioTick env suspended t s) in
     let a := anx (mood s) in
     let vol := if num_lt t (blackoutUntil (mood s))
                then (0.02 + a * 0.055) * 0.35 else 0.02 + a * 0.055 in
     snd (audioTick env suspended t s) = Normal tt /\
     mood s' = mood s /\ lamp s' = lamp s /\ graph s' = graph s /\
     resumes (web s') =
       (resumes (web s) + (if suspended then 1 else 0))%nat /\
     targets (web s') =
       (h_noiseGain h, 0.02 + a * 0.03) :: (h_osc h, 40 + a * 12)
       :: (h_master h, vol) :: targets (web s) /\
     (0 <= a <= 1 ->
      0.007 <= vol <= 0.075 /\ 40 <= 40 + a * 12 <= 52 /\
      0.02 <= 0.02 + a * 0.03 <= 0.05)).
Proof.
  split.
  - intros H. unfold audioTick.
    destruct (audioStarted (mood s)); [|reflexivity].
    destruct H as [H|H]; [discriminate H|]. rewrite H. reflexivity.
  - intros h Hs Ha F0 F1 F2 s' a vol.
    change (1 + calls (web s))%nat with (S (calls (web s))) in F1.
    change (2 + calls (web s))%nat with (S (S (calls (web s)))) in F2.
    unfold s', audioTick. rewrite Hs, Ha.
    unfold resume, setTargetAtTime, call, bind, modify, ret.
    destruct suspended; cbn; rewrite F0; cbn; rewrite F1; cbn; rewrite F2; cbn;
      (split; [reflexivity|]);
      (split; [reflexivity|]);
      (split; [reflexivity|]);
      (split; [reflexivity|]);
      (split; [lia|]);
      (split; [reflexivity|]);
      intros Hr; unfold vol; destruct (num_lt _ _); lra.
Qed.

(** The page after a first gesture that started the hum. *)
Lemma audioTick_targets_witness :
  let s := fst (ensureHum hummingEnv calmSession) in
  targets (web (fst (audioTick hummingEnv false 16 s))) =
    [(8%nat, 0.02 + 0 * 0.03); (2%nat, 40 + 0 * 12);
     (1%nat, 0.02 + 0 * 0.055); (1%nat, 0.05)] /\
  audioTick hummingEnv true 16 calmSession = (calmSession, Normal tt).
Proof.
  intros s.
  destruct (audioTick_targets hummingEnv false 16 s) as (_ & H).
  destruct (audioTick_targets hummingEnv true 16 calmSession) as (H0 & _).
  split.
  - destruct (H (mkHandles 0 1 2 3 8) eq_refl eq_refl eq_refl eq_refl eq_refl)
      as (_ & _ & _ & _ & _ & Ht & _).
    rewrite Ht. cbn [h_noiseGain h_osc h_master].
    assert (Hb : num_lt 16 (blackoutUntil (mood s)) = false)
      by (apply num_lt_false; simpl; lra).
    rewrite Hb. reflexivity.
  - apply H0. left. reflexivity.
Defined.

(** ** Dragging the lamp *)

Lemma angleFromPointer_pivot l l' x y :
  pivotX l' = pivotX l -> pivotY l' = pivotY l ->
  angleFromPointer l' x y = angleFromPointer l x y.
Proof. intros Hx Hy. unfold angleFromPointer. rewrite Hx, Hy. reflexivity. Qed.

(** X15. A pointer move over a lamp that is not held changes nothing.  On a
    held lamp it puts the angle exactly at the pointer's angle, remembers
    that angle and the time, arms a spike of 120 ms and leaves the velocity
    clamped; and a further move to the same point keeps the angle and cuts
    the velocity to 15%, so a pointer held still brings the lamp to rest. *)
Theorem drag_follows_pointer (x y now : R) (s : Session) :
  (grabbing (lamp s) = false -> pointermove x y now s = s) /\
  (grabbing (lamp s) = true ->
   let s' := pointermove x y now s in
   theta (lamp s') = angleFromPointer (lamp s) x y /\
   grabLastTheta (lamp s') = theta (lamp s') /\
   grabLastT (lamp s') = now /\
   grabbing (lamp s') = true /\
   spikeUntil (mood s') = now + 120 /\
   anx (mood s') = anx (mood s) /\
   Rabs (omega (lamp s')) <= OMEGA_MAX /\
   (forall now2,
      theta (lamp (pointermove x y now2 s')) = theta (lamp s') /\
      omega (lamp (pointermove x y now2 s')) = 0.15 * omega (lamp s'))).
Proof.
  split.
  - intros Hg. unfold pointermove. rewrite Hg. reflexivity.
  - intros Hg s'.
    assert (Ho : Rabs (omega (lamp s')) <= OMEGA_MAX)
      by (apply pointermove_omega_range, Hg).
    assert (Hs' : s' = pointermove x y now s) by reflexivity.
    unfold pointermove in Hs'. rewrite Hg in Hs'. cbn [negb] in Hs'.
    cbv zeta in Hs'.
    assert (Ht : theta (lamp s') = angleFromPointer (lamp s) x y)
      by (rewrite Hs'; reflexivity).
    assert (Hl : grabLastTheta (lamp s') = angleFromPointer (lamp s) x y)
      by (rewrite Hs'; reflexivity).
    assert (Hg' : grabbing (lamp s') = true) by (rewrite Hs'; exact Hg).
    assert (Hpx : pivotX (lamp s') = pivotX (lamp s)) by (rewrite Hs'; reflexivity).
    assert (Hpy : pivotY (lamp s') = pivotY (lamp s)) by (rewrite Hs'; reflexivity).
    split; [exact Ht|]. split; [rewrite Ht; exact Hl|].
    split; [rewrite Hs'; reflexivity|]. split; [exact Hg'|].
    split; [rewrite Hs'; reflexivity|]. split; [rewrite Hs'; reflexivity|].
    split; [exact Ho|].
    intros now2. unfold pointermove. rewrite Hg'. cbn [negb]. cbv zeta.
    cbn [lamp theta omega set_grab set_theta set_omega].
    rewrite (angleFromPointer_pivot (lamp s) (lamp s') x y Hpx Hpy), Hl, Ht.
    split; [reflexivity|].
    replace ((angleFromPointer (lamp s) x y - angleFromPointer (lamp s) x y)
             / (Rmax 1 (now2 - grabLastT (lamp s')) / 1000)) with 0
      by (unfold Rdiv; ring).
    unfold lerp. apply Rabs_le_between in Ho. unfold OMEGA_MAX in *.
    rewrite clamp_id; lra.
Qed.

Lemma drag_follows_pointer_witness :
  let s := mkSession state0 (set_grabbing true lamp0) world0 in
  theta (lamp (pointermove 0 50 8 s)) = angleFromPointer (lamp s) 0 50 /\
  pointermove 0 50 8 calmSession = calmSession.
Proof.
  intros s.
  destruct (drag_follows_pointer 0 50 8 s) as (_ & H).
  destruct (drag_follows_pointer 0 50 8 calmSession) as (H0 & _).
  split.
  - apply (H eq_refl).
  - apply H0. reflexivity.
Defined.

(** ** The ripple switch *)

(** X16. The ripple switch survives a reload: with a working
    [localStorage], what the [change] listener stores for a choice [v] is
    read back as [v] by [setupRippleToggle], into [state.rippleOff], the
    checkbox and the class of the body alike; the three always agree after
    either function; the stored choice reads as "ripple off" exactly when
    the storage can be read and holds the item ["1"], so any other item, no
    item, or a storage that throws on reading, reads as "ripple on"; a
    storage that throws on writing is left as it was; and a page without
    the checkbox is not touched. *)
Theorem ripple_round_trip (v : bool) (st : Storage) (m : MoodState)
  (ui : RippleUi) :
  (cb_checked ui = None ->
   setupRippleToggle st m ui = (m, ui) /\
   rippleChange v st m ui = (st, m, ui)) /\
  (forall b, cb_checked ui = Some b ->
   let st' := fst (fst (rippleChange v st m ui)) in
   let m' := snd (fst (rippleChange v st m ui)) in
   let ui' := snd (rippleChange v st m ui) in
   rippleOff m' = v /\ cb_checked ui' = Some v /\ body_rippleOff ui' = v /\
   anx m' = anx m /\ audioStarted m' = audioStarted m /\
   (canWrite st = false -> st' = st) /\
   (canWrite st = true -> canRead st = true ->
    forall m0,
      rippleOff (fst (setupRippleToggle st' m0 ui')) = v /\
      cb_checked (snd (setupRippleToggle st' m0 ui')) = Some v /\
      body_rippleOff (snd (setupRippleToggle st' m0 ui')) = v)) /\
  (forall b, cb_checked ui = Some b ->
   rippleOff (fst (setupRippleToggle st m ui)) = storedOff st /\
   cb_checked (snd (setupRippleToggle st m ui)) = Some (storedOff st) /\
   body_rippleOff (snd (setupRippleToggle st m ui)) = storedOff st) /\
  (canRead st = false -> storedOff st = false) /\
  (rippleItem st = None -> storedOff st = false) /\
  (rippleItem st = Some "0"%string -> storedOff st = false) /\
  (rippleItem st = Some "true"%string -> storedOff st = false) /\
  (forall item, rippleItem st = Some item -> item <> "1"%string ->
     storedOff st = false) /\
  (storedOff st = true <->
   canRead st = true /\ rippleItem st = Some "1"%string).
Proof.
  split; [|split; [|split; [|split; [|split; [|split; [|split; [|split]]]]]]].
  - intros H. unfold setupRippleToggle, rippleChange. rewrite H. auto.
  - intros b H. unfold rippleChange. rewrite H. cbn [fst snd].
    split; [reflexivity|]. split; [reflexivity|]. split; [reflexivity|].
    split; [reflexivity|]. split; [reflexivity|]. split.
    + intros Hw. rewrite Hw. reflexivity.
    + intros Hw Hr m0. rewrite Hw.
      unfold setupRippleToggle, storedOff. cbn. rewrite Hr.
      destruct v; repeat split; reflexivity.
  - intros b H. unfold setupRippleToggle. rewrite H. auto.
  - intros H. unfold storedOff. rewrite H. reflexivity.
  - intros H. unfold storedOff. rewrite H. destruct (canRead st); reflexivity.
  - intros H. unfold storedOff. rewrite H. destruct (canRead st); reflexivity.
  - intros H. unfold storedOff. rewrite H. destruct (canRead st); reflexivity.
  - intros item H Hne. unfold storedOff. rewrite H.
    destruct (canRead st); [|reflexivity].
    apply String.eqb_neq. exact Hne.
  - unfold storedOff. split.
    + destruct (canRead st); [|discriminate].
      destruct (rippleItem st) as [item|]; [|discriminate].
      intros H. apply String.eqb_eq in H. subst item. auto.
    + intros [Hr Hi]. rewrite Hr, Hi. reflexivity.
Qed.

Lemma ripple_round_trip_witness :
  let st := mkStorage true true None in
  let ui := mkRippleUi (Some false) false in
  rippleOff (fst (setupRippleToggle
                    (fst (fst (rippleChange true st state0 ui))) state0
                    (snd (rippleChange true st state0 ui)))) = true /\
  storedOff (mkStorage false true (Some "1"%string)) = false /\
  storedOff (mkStorage true true (Some "yes"%string)) = false.
Proof.
  intros st ui.
  destruct (ripple_round_trip true st state0 ui) as (_ & H & _).
  destruct (ripple_round_trip true (mkStorage false true (Some "1"%string))
              state0 ui) as (_ & _ & _ & H' & _).
  destruct (ripple_round_trip true (mkStorage true true (Some "yes"%string))
              state0 ui) as (_ & _ & _ & _ & _ & _ & _ & H'' & _).
  split; [|split].
  - destruct (H false eq_refl) as (_ & _ & _ & _ & _ & _ & Hr).
    apply (Hr eq_refl eq_refl state0).
  - apply H'. reflexivity.
  - apply (H'' "yes"%string); [reflexivity|discriminate].
Defined.

(** ** The letters of the logo *)

Lemma letterSpan_text text :
  concat (map sp_text (map letterSpan text)) = map nbsp text.
Proof.
  induction text as [|c r IH]; simpl.
  - reflexivity.
  - rewrite IH. unfold nbsp. destruct (N.eqb c 32); reflexivity.
Qed.

Lemma dropWhile_head {A} (f : A -> bool) (l : list A) :
  match dropWhile f l with
  | [] => True
  | a :: _ => f a = false
  end.
Proof.
  induction l as [|a r IH]; simpl.
  - exact I.
  - destruct (f a) eqn:E; [exact IH|exact E].
Qed.

Lemma dropWhile_fixed {A} (f : A -> bool) (a : A) (r : list A) :
  f a = false -> dropWhile f (a :: r) = a :: r.
Proof. intros H. simpl. rewrite H. reflexivity. Qed.

Lemma dropWhile_snoc {A} (f : A -> bool) (l : list A) (a : A) :
  f a = false -> dropWhile f (l ++ [a]) = dropWhile f l ++ [a].
Proof.
  intros H. induction l as [|b r IH]; simpl.
  - rewrite H. reflexivity.
  - destruct (f b); [exact IH|reflexivity].
Qed.

Lemma trim_tidy (t : Text) : tidy (trim t).
Proof.
  unfold tidy, trim.
  pose proof (dropWhile_head is_white t) as Hd.
  destruct (dropWhile is_white t) as [|a d] eqn:Ed.
  - left. reflexivity.
  - right.
    assert (Hrev : dropWhile is_white (rev (a :: d))
                   = dropWhile is_white (rev d) ++ [a]).
    { simpl rev. apply dropWhile_snoc, Hd. }
    rewrite Hrev, rev_app_distr. simpl.
    split.
    + exists a, (rev (dropWhile is_white (rev d))). auto.
    + pose proof (dropWhile_head is_white (rev d)) as Hh.
      destruct (dropWhile is_white (rev d)) as [|b e] eqn:Ee.
      * exists a, []. auto.
      * exists b, (a :: rev e). simpl. rewrite app_comm_cons. auto.
Qed.

Lemma tidy_trim (t : Text) : tidy t -> trim t = t.
Proof.
  intros H. unfold tidy in H.
  destruct H as [->|[(a & r & H1 & Ha) (b & r' & H2 & Hb)]]; [reflexivity|].
  unfold trim.
  assert (E1 : dropWhile is_white t = t)
    by (rewrite H1; apply dropWhile_fixed, Ha).
  assert (E2 : dropWhile is_white (rev t) = rev t).
  { rewrite H2, rev_app_distr. apply dropWhile_fixed, Hb. }
  rewrite E1, E2. apply rev_involutive.
Qed.

Lemma nbsp_tidy (t : Text) : tidy t -> tidy (map nbsp t).
Proof.
  assert (Hn : forall c, is_white c = false -> nbsp c = c).
  { intros c Hc. unfold nbsp. destruct (N.eqb c 32) eqn:E; [|reflexivity].
    apply N.eqb_eq in E. subst c. discriminate Hc. }
  intros H. unfold tidy in *.
  destruct H as [->|[(a & r & H1 & Ha) (b & r' & H2 & Hb)]]; [left; reflexivity|].
  right. split.
  - exists a, (map nbsp r). rewrite H1. simpl. rewrite (Hn a Ha). auto.
  - exists b, (map nbsp r'). rewrite H2, map_app. simpl. rewrite (Hn b Hb). auto.
Qed.

(** X17. [enhanceSecretLogoText] runs once: a second call changes nothing.
    On a logo with a main line it sets [dataset.enhanced], even when the
    trimmed text is empty (the line is then left alone); otherwise the line
    becomes one [span.ch] per code point of the trimmed text, each holding
    that code point with a space turned into a no-break space; the text of
    the line is then the trimmed text with that replacement, and trimming
    it again gives it back unchanged. *)
Theorem logo_letters (logo : option LogoEl) :
  enhanceSecretLogoText (enhanceSecretLogoText logo)
    = enhanceSecretLogoText logo /\
  (forall l, logo = Some l -> logoMain l = None ->
     enhanceSecretLogoText logo = logo) /\
  (forall l m, logo = Some l -> logoMain l = Some m -> enhanced l = false ->
     let text := trim (textContent m) in
     exists l', enhanceSecretLogoText logo = Some l' /\ enhanced l' = true /\
       (text = [] -> logoMain l' = Some m) /\
       (text <> [] ->
        exists m', logoMain l' = Some m' /\
          m_split m' = true /\ m_text m' = [] /\
          length (m_spans m') = length text /\
          map sp_text (m_spans m') = map (fun c => [nbsp c]) text /\
          Forall (fun sp => sp_class sp = "ch"%string /\
                            sp_text sp <> [32%N]) (m_spans m') /\
          textContent m' = map nbsp text /\
          trim (textContent m') = textContent m')).
Proof.
  split; [|split].
  - destruct logo as [l|]; [|reflexivity]. simpl.
    destruct (logoMain l) as [m|] eqn:Em; [|simpl; rewrite Em; reflexivity].
    destruct (enhanced l) eqn:Ee; [simpl; rewrite Em, Ee; reflexivity|].
    destruct (trim (textContent m)); reflexivity.
  - intros l -> Hm. simpl. rewrite Hm. reflexivity.
  - intros l m -> Hm He text. simpl. rewrite Hm, He. fold text.
    destruct text as [|c r] eqn:Et.
    + eexists. split; [reflexivity|]. split; [reflexivity|].
      split; [reflexivity|]. intros H. contradiction.
    + eexists. split; [reflexivity|]. split; [reflexivity|].
      split; [discriminate|]. intros _.
      eexists. split; [reflexivity|]. cbn [m_split m_text m_spans].
      split; [reflexivity|]. split; [reflexivity|].
      split; [apply length_map|].
      split.
      { rewrite map_map. apply map_ext. intros c0. unfold letterSpan, nbsp.
        simpl. destruct (N.eqb c0 32); reflexivity. }
      split.
      { apply Forall_forall. intros sp Hin. apply in_map_iff in Hin.
        destruct Hin as (c0 & <- & _). unfold letterSpan. simpl.
        split; [reflexivity|].
        destruct (N.eqb c0 32) eqn:E; [discriminate|].
        intros Heq. injection Heq as ->. discriminate E. }
      assert (Htc : textContent (mkMain [] true (map letterSpan (c :: r)))
                    = map nbsp (c :: r)).
      { unfold textContent. cbn [m_text m_spans app]. apply letterSpan_text. }
      split; [exact Htc|].
      rewrite Htc. apply tidy_trim, nbsp_tidy.
      rewrite <- Et. apply trim_tidy.
Qed.

Lemma logo_letters_witness :
  exists l', enhanceSecretLogoText
               (Some (mkLogo false (Some (mkMain [32; 72; 32; 73; 10]%N false []))))
             = Some l' /\
    exists m', logoMain l' = Some m' /\ textContent m' = [72; 160; 73]%N.
Proof.
  destruct (logo_letters
              (Some (mkLogo false (Some (mkMain [32; 72; 32; 73; 10]%N false [])))))
    as (_ & _ & H).
  destruct (H _ _ eq_refl eq_refl eq_refl) as (l' & H1 & _ & _ & H2).
  exists l'. split; [exact H1|].
  destruct H2 as (m' & Hm & _ & _ & _ & _ & _ & Ht & _); [discriminate|].
  exists m'. split; [exact Hm|]. rewrite Ht. reflexivity.
Defined.

(** ** The doors *)

Lemma doors_closed_count (ds : list Doors.Door) :
  Doors.openCount (map Doors.close ds) = 0%nat.
Proof.
  unfold Doors.openCount. induction ds as [|d r IH]; simpl; auto.
Qed.

Lemma doors_update_length i f (ds : list Doors.Door) :
  length (Doors.update i f ds) = length ds.
Proof.
  revert i. induction ds as [|d r IH]; intros [|i]; simpl; auto.
Qed.

Lemma doors_update_nth i f (ds : list Doors.Door) j :
  nth_error (Doors.update i f ds) j =
  if Nat.eqb j i then option_map f (nth_error ds j) else nth_error ds j.
Proof.
  revert i j. induction ds as [|d r IH]; intros i j.
  - destruct i, j; simpl; try reflexivity.
    destruct (Nat.eqb j i); reflexivity.
  - destruct i, j; simpl; try reflexivity. apply IH.
Qed.

Lemma doors_update_count i f (ds : list Doors.Door) :
  (forall d, Doors.is_open (f d) = Doors.is_open d) ->
  Doors.openCount (Doors.update i f ds) = Doors.openCount ds.
Proof.
  intros Hf. unfold Doors.openCount.
  revert i. induction ds as [|d r IH]; intros [|i]; simpl; auto.
  - rewrite Hf. destruct (Doors.is_open d); reflexivity.
  - specialize (IH i). destruct (Doors.is_open d); simpl; auto.
Qed.

Lemma doors_open_one i (ds : list Doors.Door) :
  (i < length ds)%nat ->
  Doors.openCount
    (Doors.update i (fun d => Doors.mkDoor (Doors.rig d) true (Doors.hover d))
       (map Doors.close ds)) = 1%nat.
Proof.
  unfold Doors.openCount.
  revert i. induction ds as [|d r IH]; intros [|i] Hi; simpl in *; try lia.
  - f_equal. apply (doors_closed_count r).
  - apply IH. lia.
Qed.

Lemma doors_touch_count i ds :
  (Doors.openCount (fst (Doors.touchstart i ds)) <= 1)%nat \/
  fst (Doors.touchstart i ds) = ds.
Proof.
  unfold Doors.touchstart.
  destruct (nth_error ds i) as [d|] eqn:E; [|right; reflexivity].
  destruct (Doors.rig d && negb (Doors.is_open d)); [|right; reflexivity].
  left. simpl. rewrite doors_open_one; [lia|].
  apply nth_error_Some. congruence.
Qed.

(** X18. The doors on a touch screen: the first tap on a closed door (one
    with a rig) swallows the tap, closes every door and opens that one, so
    exactly one door is open and it is the tapped one; a tap on an open
    door is let through and changes nothing; a click outside every door
    closes them all, a click on a door none.  So from a page with at most
    one door open, at most one is open after any sequence of taps, clicks
    and hovers, and the number of doors never changes. *)
Theorem doors_one_open (ds : list Doors.Door) :
  (forall i d, nth_error ds i = Some d ->
     Doors.rig d = true -> Doors.is_open d = false ->
     let ds' := fst (Doors.touchstart i ds) in
     snd (Doors.touchstart i ds) = true /\
     Doors.openCount ds' = 1%nat /\
     option_map Doors.is_open (nth_error ds' i) = Some true /\
     (forall j, j <> i ->
        option_map Doors.is_open (nth_error ds' j)
        = option_map (fun _ => false) (nth_error ds j))) /\
  (forall i d, nth_error ds i = Some d ->
     Doors.is_open d = true \/ Doors.rig d = false ->
     Doors.touchstart i ds = (ds, false)) /\
  (forall i, nth_error ds i = None -> Doors.touchstart i ds = (ds, false)) /\
  Doors.openCount (Doors.click None ds) = 0%nat /\
  (forall j, Doors.click (Some j) ds = ds) /\
  (forall es,
     length (fold_left (fun acc e => Doors.handle e acc) es ds) = length ds /\
     ((Doors.openCount ds <= 1)%nat ->
      (Doors.openCount
         (fold_left (fun acc e => Doors.handle e acc) es ds) <= 1)%nat)).
Proof.
  split; [|split; [|split; [|split; [|split]]]].
  - intros i d Hn Hr Ho ds'. unfold ds', Doors.touchstart.
    rewrite Hn, Hr, Ho. cbn [andb negb fst snd].
    assert (Hi : (i < length ds)%nat) by (apply nth_error_Some; congruence).
    split; [reflexivity|]. split; [apply doors_open_one, Hi|].
    split.
    + rewrite doors_update_nth, Nat.eqb_refl, nth_error_map, Hn. reflexivity.
    + intros j Hj. rewrite doors_update_nth.
      apply Nat.eqb_neq in Hj. rewrite Hj, nth_error_map.
      destruct (nth_error ds j); reflexivity.
  - intros i d Hn H. unfold Doors.touchstart. rewrite Hn.
    destruct H as [H|H]; rewrite H; [rewrite andb_false_r|]; reflexivity.
  - intros i Hn. unfold Doors.touchstart. rewrite Hn. reflexivity.
  - apply doors_closed_count.
  - reflexivity.
  - assert (Hstep : forall e l,
              length (Doors.handle e l) = length l /\
              ((Doors.openCount l <= 1)%nat ->
               (Doors.openCount (Doors.handle e l) <= 1)%nat)).
    { intros e l. destruct e as [i|t|i|i]; simpl.
      - split.
        + unfold Doors.touchstart.
          destruct (nth_error l i) as [d|]; [|reflexivity].
          destruct (_ && _); [|reflexivity].
          simpl. rewrite doors_update_length. apply length_map.
        + intros H. destruct (doors_touch_count i l) as [Hc|Hc];
            [exact Hc|rewrite Hc; exact H].
      - destruct t; simpl; [auto|].
        split; [apply length_map|]. rewrite doors_closed_count. lia.
      - split; [apply doors_update_length|].
        rewrite doors_update_count; [auto|].
        intros d. unfold Doors.setHover. destruct (Doors.rig d); reflexivity.
      - split; [apply doors_update_length|].
        rewrite doors_update_count; [auto|].
        intros d. unfold Doors.setHover. destruct (Doors.rig d); reflexivity. }
    intros es. revert ds. induction es as [|e es IH]; intros l; simpl.
    + auto.
    + destruct (Hstep e l) as [H1 H2]. destruct (IH (Doors.handle e l)) as [G1 G2].
      split; [rewrite G1; exact H1|]. intros H. apply G2, H2, H.
Qed.

Lemma doors_one_open_witness :
  let ds := [Doors.mkDoor true false false; Doors.mkDoor true true false] in
  Doors.openCount (fst (Doors.touchstart 0 ds)) = 1%nat /\
  Doors.touchstart 1 ds = (ds, false) /\
  (Doors.openCount
     (fold_left (fun acc e => Doors.handle e acc)
        [Doors.Touch 0; Doors.Enter 1; Doors.Touch 1] ds) <= 1)%nat.
Proof.
  intros ds.
  destruct (doors_one_open ds) as (H1 & H2 & _ & _ & _ & H3).
  split; [|split].
  - apply (H1 0%nat (Doors.mkDoor true false false)); reflexivity.
  - apply (H2 1%nat (Doors.mkDoor true true false)); [reflexivity|].
    left. reflexivity.
  - apply H3. unfold Doors.openCount, ds. simpl. lia.
Defined.

Lemma scaled_bound (u k K : R) :
  -1 <= u <= 1 -> 0 <= k <= K -> Rabs (u * k) <= K.
Proof.
  intros Hu Hk.
  assert (H1 : 0 <= (1 - u) * k) by (apply Rmult_le_pos; lra).
  assert (H2 : 0 <= (1 + u) * k) by (apply Rmult_le_pos; lra).
  apply Rabs_le. lra.
Qed.

(** X19. The tremble of a door: under reduced motion [step] writes nothing
    and schedules nothing.  Otherwise, for draws in [[0, 1)] and an anxiety
    in [[0, 1]], the offsets stay within 1.7825 px, the rotation within
    0.4902 degrees, the scale is 1 or 1.03 (hovered), and the next run is
    between 120 and 280 ms away; a hovered door trembles exactly 1.15 times
    as far as the same draws would move it otherwise. *)
Theorem door_tremble (d : Doors.Door) (a r1 r2 r3 r4 : R) :
  Doors.step true d a r1 r2 r3 r4 = None /\
  (0 <= a <= 1 -> unitDraw r1 -> unitDraw r2 -> unitDraw r3 -> unitDraw r4 ->
   exists j, Doors.step false d a r1 r2 r3 r4 = Some j /\
     Rabs (Doors.jx j) <= 1.7825 /\ Rabs (Doors.jy j) <= 1.7825 /\
     Rabs (Doors.jr j) <= 0.4902 /\
     (Doors.js j = 1 \/ Doors.js j = 1.03) /\
     120 <= Doors.delay j < 280) /\
  (forall rg op j0 j1,
     Doors.step false (Doors.mkDoor rg op false) a r1 r2 r3 r4 = Some j0 ->
     Doors.step false (Doors.mkDoor rg op true) a r1 r2 r3 r4 = Some j1 ->
     Doors.jx j1 = 1.15 * Doors.jx j0 /\ Doors.jy j1 = 1.15 * Doors.jy j0 /\
     Doors.jr j1 = 1.15 * Doors.jr j0).
Proof.
  split; [reflexivity|]. split.
  - intros Ha [H1 H1'] [H2 H2'] [H3 H3'] [H4 H4'].
    eexists. split; [reflexivity|]. cbn.
    set (k := (if Doors.hover d then 1.15 else 1.0) * (1 + a * 0.55)).
    assert (Hk : 1 <= k <= 1.7825)
      by (unfold k; destruct (Doors.hover d); split; nra).
    split; [apply scaled_bound; lra|].
    split; [apply scaled_bound; lra|].
    split.
    { replace ((r3 * 0.55 - 0.275) * k)
        with ((r3 * 2 - 1) * (0.275 * k)) by nra.
      apply scaled_bound; lra. }
    split; [destruct (Doors.hover d); [right|left]; lra|].
    lra.
  - intros rg op j0 j1 E0 E1. unfold Doors.step in E0, E1. cbn in E0, E1.
    injection E0 as <-. injection E1 as <-. cbn.
    repeat split; lra.
Qed.

Lemma door_tremble_witness :
  exists j, Doors.step false (Doors.mkDoor true false true) 0.5 0 0.5 0.9 0.25
            = Some j /\ 120 <= Doors.delay j < 280.
Proof.
  destruct (door_tremble (Doors.mkDoor true false true) 0.5 0 0.5 0.9 0.25)
    as (_ & H & _).
  destruct H as (j & Hj & _ & _ & _ & _ & Hd); unfold unitDraw; try lra.
  exists j. split; [exact Hj|exact Hd].
Defined.

(** ** The dust and the glitch *)

Lemma floor_range (x : R) (n : Z) :
  0 <= x < IZR n -> (0 <= Math_floor x <= n - 1)%Z.
Proof.
  intros [H0 H1]. unfold Math_floor.
  destruct (base_Int_part x) as [Hl Hu].
  assert (Ha : (Int_part x < n)%Z) by (apply lt_IZR; lra).
  assert (Hb : (-1 < Int_part x)%Z) by (apply lt_IZR; lra).
  lia.
Qed.

Lemma floor_nonneg (x : R) : 0 <= x -> 0 <= IZR (Math_floor x) <= x.
Proof.
  intros H0. unfold Math_floor.
  destruct (base_Int_part x) as [Hl Hu].
  split; [|exact Hl].
  assert (Hb : (-1 < Int_part x)%Z) by (apply lt_IZR; lra).
  apply IZR_le. lia.
Qed.

Lemma startGlitch_range (rnd : R) :
  unitDraw rnd -> (3 <= Dust.startGlitch rnd <= 8)%Z.
Proof.
  intros [H0 H1]. unfold Dust.startGlitch, Dust.GLITCH_FRAMES_MIN,
    Dust.GLITCH_FRAMES_MAX.
  change (8 - 3 + 1)%Z with 6%Z.
  pose proof (floor_range (rnd * 6) 6) as H.
  assert (Hr : 0 <= rnd * 6 < 6) by lra.
  specialize (H Hr). lia.
Qed.

Lemma draw_served (t : R) (rnd : nat -> R) (m : MoodState) (c : Dust.Canvas) :
  1000 / 60 <= t - Dust.last c -> rippleOff m = false ->
  let gf := Dust.glitchFrames c in
  let started :=
    Z.eqb gf 0 && num_lt (rnd O) (Dust.GLITCH_RATE_BASE + anx m * 0.11) in
  let gf1 := if started then Dust.startGlitch (rnd 1%nat) else gf in
  let k1 := if Z.eqb gf 0 then (if started then 2 else 1)%nat else O in
  let glitch := Z.ltb 0 gf1 in
  let c1 := Dust.mkCanvas (Dust.w c) (Dust.h c) (Dust.dpr c) (Dust.pts c)
              gf t in
  fst (Dust.draw t rnd m c) =
    Dust.mkCanvas (Dust.w c) (Dust.h c) (Dust.dpr c)
      (fst (Dust.moveAll (glitch || num_lt t (blackoutUntil m)) (anx m) c1
              rnd k1 (Dust.pts c)))
      (if glitch then (gf1 - 1)%Z else gf1) t /\
  shownGlitch (snd (Dust.draw t rnd m c)) = Some glitch.
Proof.
  intros Ht Hr. cbv zeta. unfold Dust.draw.
  assert (Et : num_lt (t - Dust.last c) (1000 / 60) = false)
    by (apply num_lt_false; exact Ht).
  rewrite Et, Hr.
  cbn [Dust.glitchFrames Dust.pts Dust.w Dust.h Dust.dpr].
  destruct (Z.eqb (Dust.glitchFrames c) 0);
    [destruct (num_lt (rnd O) _)|]; cbn [andb];
    destruct (Dust.moveAll _ _ _ _ _ _) as [ps k]; split; reflexivity.
Qed.

Lemma glitch_burst_skip (t : R) (rnd : nat -> R) (m : MoodState)
  (c : Dust.Canvas) :
  t - Dust.last c < 1000 / 60 ->
  fst (Dust.draw t rnd m c) = c /\ snd (Dust.draw t rnd m c) = Dust.Skipped.
Proof.
  intros Ht. unfold Dust.draw. apply num_lt_true in Ht. rewrite Ht. auto.
Qed.

(** X20. The glitch of the dust canvas: a call of [draw] less than 1/60 s
    after the last one it served changes nothing; with the ripple switched
    off it only clears the canvas and notes the time.  Otherwise a running
    burst is shown and loses one frame, without a new draw of the dice; a
    new burst can start only when none is running, with probability
    [0.03 + anx * 0.11] per frame, and then covers this frame and 2 to 7
    more; so the counter stays in [[0, 7]] between calls. *)
Theorem glitch_bursts (t : R) (rnd : nat -> R) (m : MoodState)
  (c : Dust.Canvas) :
  let c' := fst (Dust.draw t rnd m c) in
  let shown := snd (Dust.draw t rnd m c) in
  (t - Dust.last c < 1000 / 60 -> c' = c /\ shown = Dust.Skipped) /\
  (1000 / 60 <= t - Dust.last c -> rippleOff m = true ->
   shown = Dust.Cleared /\ Dust.pts c' = Dust.pts c /\
   Dust.glitchFrames c' = Dust.glitchFrames c /\ Dust.last c' = t) /\
  (1000 / 60 <= t - Dust.last c -> rippleOff m = false ->
   Dust.last c' = t /\
   ((0 < Dust.glitchFrames c)%Z ->
    shownGlitch shown = Some true /\
    Dust.glitchFrames c' = (Dust.glitchFrames c - 1)%Z) /\
   (Dust.glitchFrames c = 0%Z -> rnd O < 0.03 + anx m * 0.11 ->
    unitDraw (rnd 1%nat) ->
    shownGlitch shown = Some true /\
    Dust.glitchFrames c' = (2 + Math_floor (rnd 1%nat * 6))%Z /\
    (2 <= Dust.glitchFrames c' <= 7)%Z) /\
   (Dust.glitchFrames c = 0%Z -> 0.03 + anx m * 0.11 <= rnd O ->
    shownGlitch shown = Some false /\ Dust.glitchFrames c' = 0%Z) /\
   ((0 <= Dust.glitchFrames c <= 7)%Z -> unitDraw (rnd 1%nat) ->
    (0 <= Dust.glitchFrames c' <= 7)%Z)).
Proof.
  intros c' shown.
  split; [|split].
  - intros Ht. unfold c', shown, Dust.draw.
    apply num_lt_true in Ht. rewrite Ht. auto.
  - intros Ht Hr. unfold c', shown, Dust.draw.
    apply num_lt_false in Ht. rewrite Ht, Hr. repeat split; reflexivity.
  - intros Ht Hr.
    destruct (draw_served t rnd m c Ht Hr) as [Hc Hs].
    fold c' in Hc. fold shown in Hs. rewrite Hc, Hs.
    cbn [Dust.last Dust.glitchFrames]. unfold Dust.GLITCH_RATE_BASE.
    assert (Hsg : Dust.startGlitch (rnd 1%nat)
                  = (3 + Math_floor (rnd 1%nat * 6))%Z) by reflexivity.
    pose proof (startGlitch_range (rnd 1%nat)) as Hrange.
    split; [reflexivity|].
    split; [|split; [|split]].
    + intros Hpos.
      assert (E : Z.eqb (Dust.glitchFrames c) 0 = false)
        by (apply Z.eqb_neq; lia).
      rewrite E. cbn [andb].
      assert (E2 : Z.ltb 0 (Dust.glitchFrames c) = true)
        by (apply Z.ltb_lt; exact Hpos).
      rewrite E2. auto.
    + intros H0 Hd Hu. specialize (Hrange Hu).
      rewrite H0. cbn [Z.eqb andb].
      assert (E : num_lt (rnd O) (0.03 + anx m * 0.11) = true)
        by (apply num_lt_true; exact Hd).
      rewrite E.
      assert (E2 : Z.ltb 0 (Dust.startGlitch (rnd 1%nat)) = true)
        by (apply Z.ltb_lt; lia).
      rewrite E2. split; [reflexivity|]. split; lia.
    + intros H0 Hd. rewrite H0. cbn [Z.eqb andb].
      assert (E : num_lt (rnd O) (0.03 + anx m * 0.11) = false)
        by (apply num_lt_false; exact Hd).
      rewrite E. cbn [Z.ltb Z.compare]. auto.
    + intros Hb Hu. specialize (Hrange Hu).
      destruct (Z.eqb (Dust.glitchFrames c) 0 && _) eqn:Es.
      * assert (E2 : Z.ltb 0 (Dust.startGlitch (rnd 1%nat)) = true)
          by (apply Z.ltb_lt; lia).
        rewrite E2. lia.
      * destruct (Z.ltb 0 (Dust.glitchFrames c)) eqn:E2; lia.
Qed.

Lemma glitch_bursts_witness :
  let c := Dust.mkCanvas 800 600 1 [] 0 0 in
  Dust.glitchFrames
    (fst (Dust.draw 20 (fun k => if Nat.eqb k 0 then 0.01 else 0.5)
            state0 c)) = 5%Z /\
  fst (Dust.draw 5 (fun _ => 0) state0 c) = c.
Proof.
  intros c.
  destruct (glitch_bursts 20 (fun k => if Nat.eqb k 0 then 0.01 else 0.5)
              state0 c) as (_ & _ & H).
  destruct (glitch_bursts 5 (fun _ => 0) state0 c) as (H0 & _).
  split.
  - destruct H as (_ & _ & Hs & _).
    + simpl. lra.
    + reflexivity.
    + destruct Hs as (_ & Hg & _).
      * reflexivity.
      * simpl. lra.
      * unfold unitDraw. simpl. lra.
      * rewrite Hg. cbn [Nat.eqb]. unfold Math_floor.
        replace (0.5 * 6) with (IZR 3) by lra.
        rewrite <- (Int_part_spec (IZR 3) 3); [reflexivity|lra].
  - apply H0. simpl. lra.
Defined.

Lemma wrap_range (pad size v : R) :
  0 <= pad -> 0 <= size -> - pad <= Dust.wrap pad size v <= size + pad.
Proof.
  intros Hp Hs. unfold Dust.wrap.
  destruct (num_lt v (- pad)) eqn:E1.
  - assert (E2 : num_gt (size + pad) (size + pad) = false)
      by (apply num_gt_false; lra).
    rewrite E2. lra.
  - apply num_lt_false in E1.
    destruct (num_gt v (size + pad)) eqn:E2.
    + lra.
    + apply num_gt_false in E2. lra.
Qed.

Lemma wrap_inside (pad size v : R) :
  - pad <= v <= size + pad -> Dust.wrap pad size v = v.
Proof.
  intros [H1 H2]. unfold Dust.wrap.
  assert (E1 : num_lt v (- pad) = false) by (apply num_lt_false; lra).
  rewrite E1.
  assert (E2 : num_gt v (size + pad) = false) by (apply num_gt_false; lra).
  rewrite E2. reflexivity.
Qed.

Lemma moveParticle_spec shaken anx c rnd k p :
  0 <= Dust.w c -> 0 <= Dust.h c -> 0 <= Dust.dpr c ->
  nearCanvas c (fst (Dust.moveParticle shaken anx c rnd k p)) /\
  sameGrain p (fst (Dust.moveParticle shaken anx c rnd k p)).
Proof.
  intros Hw Hh Hd. unfold Dust.moveParticle.
  destruct shaken; [destruct (num_lt (rnd k) _)|]; cbn;
    (split; [split; apply wrap_range; lra|repeat split]).
Qed.

Lemma moveAll_spec shaken anx c rnd :
  0 <= Dust.w c -> 0 <= Dust.h c -> 0 <= Dust.dpr c ->
  forall ps k,
    Forall (nearCanvas c) (fst (Dust.moveAll shaken anx c rnd k ps)) /\
    Forall2 sameGrain ps (fst (Dust.moveAll shaken anx c rnd k ps)).
Proof.
  intros Hw Hh Hd ps. induction ps as [|p rest IH]; intros k; simpl.
  - split; constructor.
  - destruct (moveParticle_spec shaken anx c rnd k p Hw Hh Hd) as [Hn Hg].
    destruct (Dust.moveParticle shaken anx c rnd k p) as [p' k1].
    destruct (IH k1) as [Hn' Hg'].
    destruct (Dust.moveAll shaken anx c rnd k1 rest) as [rest' k2].
    cbn [fst] in *. split; constructor; assumption.
Qed.

Lemma moveAll_still anx c rnd :
  forall ps k,
    Forall2 (fun p p' =>
               Dust.x p' = Dust.wrap (20 * Dust.dpr c) (Dust.w c)
                             (Dust.x p + Dust.vx p) /\
               Dust.y p' = Dust.wrap (20 * Dust.dpr c) (Dust.h c)
                             (Dust.y p + Dust.vy p))
      ps (fst (Dust.moveAll false anx c rnd k ps)).
Proof.
  intros ps. induction ps as [|p rest IH]; intros k; simpl.
  - constructor.
  - specialize (IH k).
    destruct (Dust.moveAll false anx c rnd k rest) as [rest' k2].
    cbn [fst] in *. constructor; [split; reflexivity|exact IH].
Qed.

(** X21. The dust never drifts away: on a canvas of non-negative size,
    after every call of [draw] that moves the particles each of them lies
    within the canvas and its border of [20 * dpr] pixels, whatever the
    jumps of a glitch or a blackout; their number, sizes, drifts and
    opacities never change; in a quiet frame (no glitch, no blackout) a
    particle advances by its drift and wraps at the border; and a call that
    is skipped or finds the ripple off leaves the particles where they
    are. *)
Theorem dust_stays_near_canvas (t : R) (rnd : nat -> R) (m : MoodState)
  (c : Dust.Canvas) :
  0 <= Dust.w c -> 0 <= Dust.h c -> 0 <= Dust.dpr c ->
  let c' := fst (Dust.draw t rnd m c) in
  Dust.w c' = Dust.w c /\ Dust.h c' = Dust.h c /\ Dust.dpr c' = Dust.dpr c /\
  Forall2 sameGrain (Dust.pts c) (Dust.pts c') /\
  length (Dust.pts c') = length (Dust.pts c) /\
  (t - Dust.last c < 1000 / 60 \/ rippleOff m = true ->
   Dust.pts c' = Dust.pts c) /\
  (1000 / 60 <= t - Dust.last c -> rippleOff m = false ->
   Forall (nearCanvas c') (Dust.pts c') /\
   (shownGlitch (snd (Dust.draw t rnd m c)) = Some false ->
    blackoutUntil m <= t ->
    Forall2 (fun p p' =>
               Dust.x p' = Dust.wrap (20 * Dust.dpr c) (Dust.w c)
                             (Dust.x p + Dust.vx p) /\
               Dust.y p' = Dust.wrap (20 * Dust.dpr c) (Dust.h c)
                             (Dust.y p + Dust.vy p))
      (Dust.pts c) (Dust.pts c'))).
Proof.
  intros Hw Hh Hd c'.
  assert (Hrefl : Forall2 sameGrain (Dust.pts c) (Dust.pts c)).
  { induction (Dust.pts c); constructor; [repeat split|assumption]. }
  destruct (Rlt_dec (t - Dust.last c) (1000 / 60)) as [Ht|Ht].
  { destruct (glitch_burst_skip t rnd m c Ht) as [Hc _]. fold c' in Hc.
    rewrite Hc.
    split; [reflexivity|]. split; [reflexivity|]. split; [reflexivity|].
    split; [exact Hrefl|]. split; [reflexivity|]. split; [reflexivity|].
    intros Hge. lra. }
  assert (Ht' : 1000 / 60 <= t - Dust.last c) by lra.
  destruct (rippleOff m) eqn:Er.
  { assert (Hc : c' = Dust.mkCanvas (Dust.w c) (Dust.h c) (Dust.dpr c)
                        (Dust.pts c) (Dust.glitchFrames c) t).
    { unfold c', Dust.draw.
      assert (E : num_lt (t - Dust.last c) (1000 / 60) = false)
        by (apply num_lt_false; exact Ht').
      rewrite E, Er. reflexivity. }
    rewrite Hc. cbn [Dust.w Dust.h Dust.dpr Dust.pts].
    split; [reflexivity|]. split; [reflexivity|]. split; [reflexivity|].
    split; [exact Hrefl|]. split; [reflexivity|]. split; [reflexivity|].
    intros _ Hf. discriminate Hf. }
  destruct (draw_served t rnd m c Ht' Er) as [Hc Hs].
  fold c' in Hc. cbv zeta in Hc, Hs.
  set (glitch := Z.ltb 0 _) in *.
  set (k1 := if Z.eqb _ 0 then _ else O) in *.
  set (c1 := Dust.mkCanvas (Dust.w c) (Dust.h c) (Dust.dpr c) (Dust.pts c)
               (Dust.glitchFrames c) t) in *.
  destruct (moveAll_spec (glitch || num_lt t (blackoutUntil m)) (anx m) c1 rnd
              Hw Hh Hd (Dust.pts c) k1) as [Hn Hg].
  rewrite Hc. cbn [Dust.w Dust.h Dust.dpr Dust.pts].
  split; [reflexivity|]. split; [reflexivity|]. split; [reflexivity|].
  split; [exact Hg|].
  split; [symmetry; apply (Forall2_length Hg)|].
  split; [intros [H|H]; [lra|discriminate H]|].
  intros _ _. split.
  - eapply Forall_impl; [|exact Hn]. intros p Hp. exact Hp.
  - rewrite Hs. intros Hgl Hb. injection Hgl as Hgl. rewrite Hgl.
    assert (Eb : num_lt t (blackoutUntil m) = false)
      by (apply num_lt_false; exact Hb).
    rewrite Eb. cbn [orb]. apply (moveAll_still (anx m) c1 rnd).
Qed.

Lemma dust_stays_near_canvas_witness :
  let c := Dust.mkCanvas 800 600 1
             [Dust.mkParticle 819.95 (-19.99) 1 0.09 (-0.09) 0.5] 0 0 in
  Forall (nearCanvas (fst (Dust.draw 20 (fun _ => 0.5) state0 c)))
    (Dust.pts (fst (Dust.draw 20 (fun _ => 0.5) state0 c))).
Proof.
  intros c.
  destruct (dust_stays_near_canvas 20 (fun _ => 0.5) state0 c)
    as (_ & _ & _ & _ & _ & _ & H); try (simpl; lra).
  apply H; [simpl; lra|reflexivity].
Defined.

(** X22. The size of the dust canvas: [resize] keeps the pixel ratio
    between 1 and 2, taking a missing or zero ratio as 1; for a window of
    non-negative size the canvas is a whole number of pixels, not negative
    and not above the window's size times the ratio; the particles and the
    glitch counter are kept.  The number of particles is between 220 and
    620, and a particle spawned from draws in [[0, 1)] lies on the canvas,
    with a radius from 0.6 to 1.8 and a drift of at most 0.09 per frame
    (times the ratio), and an opacity from 0.18 to 0.73. *)
Theorem dust_canvas_sizes (innerWidth innerHeight : R) (ratio : option R)
  (c : Dust.Canvas) :
  let c' := Dust.resize innerWidth innerHeight ratio c in
  1 <= Dust.dpr c' <= 2 /\
  (ratio = None \/ ratio = Some 0 -> Dust.dpr c' = 1) /\
  (forall v, ratio = Some v -> 1 <= v <= 2 -> Dust.dpr c' = v) /\
  (0 <= innerWidth -> 0 <= Dust.w c' <= innerWidth * Dust.dpr c') /\
  (0 <= innerHeight -> 0 <= Dust.h c' <= innerHeight * Dust.dpr c') /\
  Dust.pts c' = Dust.pts c /\ Dust.glitchFrames c' = Dust.glitchFrames c /\
  (220 <= Dust.particleCount innerWidth innerHeight <= 620)%Z /\
  (forall r1 r2 r3 r4 r5 r6,
     0 <= Dust.w c -> 0 <= Dust.h c -> 0 <= Dust.dpr c ->
     unitDraw r1 -> unitDraw r2 -> unitDraw r3 -> unitDraw r4 ->
     unitDraw r5 -> unitDraw r6 ->
     let p := Dust.spawn c r1 r2 r3 r4 r5 r6 in
     nearCanvas c p /\
     0 <= Dust.x p <= Dust.w c /\ 0 <= Dust.y p <= Dust.h c /\
     0.6 * Dust.dpr c <= Dust.r p <= 1.8 * Dust.dpr c /\
     Rabs (Dust.vx p) <= 0.09 * Dust.dpr c /\
     Rabs (Dust.vy p) <= 0.09 * Dust.dpr c /\
     0.18 <= Dust.a p <= 0.73).
Proof.
  intros c'. unfold c', Dust.resize. cbn [Dust.dpr Dust.w Dust.h Dust.pts
    Dust.glitchFrames].
  assert (Hd : 1 <= Rmax 1 (Rmin 2 (Dust.ratioOrOne ratio)) <= 2).
  { unfold Rmax, Rmin. destruct (Rle_dec 2 _); destruct (Rle_dec 1 _); lra. }
  split; [exact Hd|]. split; [|split; [|split; [|split]]].
  - intros [->| ->]; unfold Dust.ratioOrOne;
      [|destruct (Req_dec_T 0 0); [|lra]];
      unfold Rmax, Rmin; destruct (Rle_dec 2 1); destruct (Rle_dec 1 _); lra.
  - intros v -> Hv. unfold Dust.ratioOrOne.
    destruct (Req_dec_T v 0); [lra|].
    unfold Rmax, Rmin. destruct (Rle_dec 2 v); destruct (Rle_dec 1 _); lra.
  - intros H. apply floor_nonneg. apply Rmult_le_pos; lra.
  - intros H. apply floor_nonneg. apply Rmult_le_pos; lra.
  - split; [reflexivity|]. split; [reflexivity|]. split.
    + unfold Dust.particleCount. lia.
    + intros r1 r2 r3 r4 r5 r6 Hw Hh Hdp [A1 A2] [B1 B2] [C1 C2] [D1 D2]
        [E1 E2] [F1 F2].
      unfold Dust.spawn, nearCanvas. cbn.
      assert (0 <= r1 * Dust.w c <= Dust.w c) by (split; nra).
      assert (0 <= r2 * Dust.h c <= Dust.h c) by (split; nra).
      split; [split; split; nra|].
      split; [assumption|]. split; [assumption|].
      split; [split; nra|].
      split; [apply Rabs_le; split; nra|].
      split; [apply Rabs_le; split; nra|].
      lra.
Qed.

Lemma dust_canvas_sizes_witness :
  let c := Dust.resize 1280.5 720 (Some 1.5) (Dust.mkCanvas 0 0 1 [] 0 0) in
  Dust.dpr c = 1.5 /\ 0 <= Dust.w c <= 1280.5 * Dust.dpr c /\
  0.18 <= Dust.a (Dust.spawn c 0.1 0.2 0.3 0.4 0.5 0.6) <= 0.73.
Proof.
  intros c.
  destruct (dust_canvas_sizes 1280.5 720 (Some 1.5) (Dust.mkCanvas 0 0 1 [] 0 0))
    as (Hd & _ & H1 & H2 & H3 & _).
  fold c in Hd, H1, H2, H3.
  destruct (dust_canvas_sizes 0 0 None c) as (_ & _ & _ & _ & _ & _ & _ & _ & Hs).
  split; [apply (H1 1.5 eq_refl); lra|].
  split; [apply H2; lra|].
  assert (Hw : 0 <= Dust.w c) by (apply H2; lra).
  assert (Hh : 0 <= Dust.h c) by (apply H3; lra).
  destruct (Hs 0.1 0.2 0.3 0.4 0.5 0.6) as (_ & _ & _ & _ & _ & _ & Ha);
    unfold unitDraw; lra.
Defined.

(** ** The breathing of the wobble filter *)

(** X23. The wobble filter: after every tick [base] is within
    [[0.009, 0.016]], and from inside that range it moves by at most 0.001
    for a draw in [[0, 1)]; for an anxiety in [[0, 1]] the frequency
    written is exactly [base + anx * 0.004], within [[0.009, 0.020]] (its
    clamp is never active); the scale is written only when the
    displacement map exists, and is then between 2 and 11.4. *)
Theorem wobble_ranges (hasDisp : bool) (anx r1 r2 base : R) :
  let base' := fst (fst (wobbleTick hasDisp anx r1 r2 base)) in
  let bf := snd (fst (wobbleTick hasDisp anx r1 r2 base)) in
  let sc := snd (wobbleTick hasDisp anx r1 r2 base) in
  0.009 <= base' <= 0.016 /\
  0.009 <= bf <= 0.020 /\
  (unitDraw r1 -> 0.009 <= base <= 0.016 -> Rabs (base' - base) <= 0.001) /\
  (0 <= anx <= 1 -> bf = base' + anx * 0.004) /\
  (hasDisp = false -> sc = None) /\
  (hasDisp = true -> 0 <= anx <= 1 -> unitDraw r2 ->
   exists v, sc = Some v /\ 2 <= v < 11.4 /\
             v = 2 + anx * 7 + r2 * (0.8 + anx * 1.6)).
Proof.
  intros base' bf sc. unfold base', bf, sc, wobbleTick. cbn [fst snd].
  pose proof (clamp_bounds (base + (r1 * 0.002 - 0.001)) 0.009 0.016) as Hb.
  assert (Hb' : 0.009 <= clamp (base + (r1 * 0.002 - 0.001)) 0.009 0.016
                <= 0.016) by (apply Hb; lra).
  clear Hb. set (b2 := clamp (base + (r1 * 0.002 - 0.001)) 0.009 0.016) in *.
  split; [exact Hb'|].
  split; [apply clamp_bounds; lra|].
  split; [|split; [|split]].
  - intros [H1 H2] Hbase. unfold b2. split_clamps; apply Rabs_le; lra.
  - intros Ha. apply clamp_id. nra.
  - intros ->. reflexivity.
  - intros -> Ha [H1 H2]. eexists. split; [reflexivity|].
    split; [split; nra|reflexivity].
Qed.

Lemma wobble_ranges_witness :
  snd (fst (wobbleTick true 1 0.999 0.5 0.016)) =
    fst (fst (wobbleTick true 1 0.999 0.5 0.016)) + 1 * 0.004 /\
  Rabs (fst (fst (wobbleTick true 1 0.999 0.5 0.016)) - 0.016) <= 0.001.
Proof.
  destruct (wobble_ranges true 1 0.999 0.5 0.016) as (_ & _ & H1 & H2 & _).
  split.
  - apply H2. lra.
  - apply H1; unfold unitDraw; lra.
Defined.

(** ** Revealing the items of the first script *)

Lemma to_int32_small (x : R) (n : Z) :
  0 <= x < IZR n -> (n <= 2 ^ 31)%Z ->
  Site.to_int32 x = Math_floor x /\ (0 <= Site.to_int32 x <= n - 1)%Z.
Proof.
  intros Hx Hn.
  pose proof (floor_range x n Hx) as Hf.
  assert (E : Site.to_int32 x = Math_floor x).
  { unfold Site.to_int32, Site.trunc.
    destruct (Rle_dec 0 x) as [_|Hneg]; [|lra].
    fold (Math_floor x).
    rewrite Z.mod_small; lia. }
  rewrite E. split; [reflexivity|exact Hf].
Qed.

Lemma site_update_length {A : Type} (f : A -> A) (l : list A) :
  forall i, length (Site.update i f l) = length l.
Proof.
  induction l as [|a r IH]; intros [|j]; simpl; try reflexivity.
  now rewrite IH.
Qed.

Lemma site_update_nth {A : Type} (f : A -> A) (l : list A) :
  forall i j,
    nth_error (Site.update i f l) j =
    if Nat.eqb i j then option_map f (nth_error l j) else nth_error l j.
Proof.
  induction l as [|a r IH]; intros i j.
  - destruct i, j; simpl; try reflexivity; destruct (Nat.eqb _ _); reflexivity.
  - destruct i as [|i], j as [|j]; simpl; try reflexivity.
    apply IH.
Qed.

Lemma site_update_Forall {A : Type} (P : A -> Prop) (f : A -> A) (l : list A) :
  (forall a, P a -> P (f a)) ->
  forall i, Forall P l -> Forall P (Site.update i f l).
Proof.
  intros Hf. induction l as [|a r IH]; intros i H; destruct i; simpl;
    try constructor; inversion H; subst; auto.
Qed.

Lemma site_update_Forall2 {A : Type} (Q : A -> A -> Prop) (f : A -> A) :
  (forall a b, Q a b -> Q a (f b)) ->
  forall l l' i, Forall2 Q l l' -> Forall2 Q l (Site.update i f l').
Proof.
  intros Hf l l' i H. revert i.
  induction H as [|a b l l' Hab H IH]; intros [|j]; simpl;
    constructor; auto.
Qed.

Lemma grown_refl (a : Site.Item) : grown a a.
Proof. unfold grown. auto. Qed.

Lemma grown_reveal (r : R) (a b : Site.Item) :
  unitDraw r -> grown a b -> grown a (Site.reveal r b).
Proof.
  intros [H0 H1] (Hs & Hi & Hd). unfold grown, Site.reveal. cbn.
  split; [exact Hs|]. split; [reflexivity|].
  destruct (Site.stagger b) eqn:Eb.
  - right. split; [congruence|]. split; [reflexivity|].
    destruct (to_int32_small (r * 160) 160) as [_ Hr]; [lra|lia|].
    eexists. split; [reflexivity|]. lia.
  - destruct Hd as [Hd|(Hsa & _)]; [left; exact Hd|congruence].
Qed.

Lemma callback_length entries :
  forall items, length (Site.callback entries items) = length items.
Proof.
  unfold Site.callback.
  induction entries as [|e es IH]; intros items; simpl; [reflexivity|].
  rewrite IH. unfold Site.onEntry.
  destruct (Site.isIntersecting e); [apply site_update_length|reflexivity].
Qed.

Lemma callback_Forall (P : Site.Item -> Prop) entries :
  (forall r a, P a -> P (Site.reveal r a)) ->
  forall items, Forall P items -> Forall P (Site.callback entries items).
Proof.
  intros HP. unfold Site.callback.
  induction entries as [|e es IH]; intros items H; simpl; [exact H|].
  apply IH. unfold Site.onEntry.
  destruct (Site.isIntersecting e); [|exact H].
  apply site_update_Forall; auto.
Qed.

Lemma callback_grown entries :
  Forall (fun e => unitDraw (Site.rnd e)) entries ->
  forall items0 items,
    Forall2 grown items0 items ->
    Forall2 grown items0 (Site.callback entries items).
Proof.
  unfold Site.callback.
  induction 1 as [|e es He Hes IH]; intros items0 items H; simpl;
    [exact H|].
  apply IH. unfold Site.onEntry.
  destruct (Site.isIntersecting e); [|exact H].
  apply site_update_Forall2; [|exact H].
  intros a b. apply grown_reveal. exact He.
Qed.

Lemma callback_nth (P : Site.Item -> Prop) entries :
  (forall r a, P a -> P (Site.reveal r a)) ->
  forall items j,
    (exists x, nth_error items j = Some x /\ P x) ->
    exists x, nth_error (Site.callback entries items) j = Some x /\ P x.
Proof.
  intros HP. unfold Site.callback.
  induction entries as [|e es IH]; intros items j H; simpl; [exact H|].
  apply IH. unfold Site.onEntry.
  destruct (Site.isIntersecting e); [|exact H].
  destruct H as (x & Hx & Px).
  rewrite site_update_nth, Hx.
  destruct (Nat.eqb (Site.target e) j); simpl; eauto.
Qed.

Lemma callback_revealed entries :
  forall items e,
    In e entries -> Site.isIntersecting e = true ->
    (Site.target e < length items)%nat ->
    exists x, nth_error (Site.callback entries items) (Site.target e) = Some x
              /\ Site.is_in x = true /\ Site.observed x = false.
Proof.
  induction entries as [|e' es IH]; intros items e Hin Hi Hlt; [destruct Hin|].
  destruct Hin as [->|Hin].
  - unfold Site.callback. simpl. fold (Site.callback es (Site.onEntry items e)).
    apply (callback_nth (fun x => Site.is_in x = true /\ Site.observed x = false)).
    + intros r a _. split; reflexivity.
    + unfold Site.onEntry. rewrite Hi, site_update_nth, Nat.eqb_refl.
      destruct (nth_error items (Site.target e)) as [x|] eqn:Ex.
      * simpl. eexists. split; [reflexivity|]. split; reflexivity.
      * apply nth_error_None in Ex. lia.
  - unfold Site.callback. simpl. fold (Site.callback es (Site.onEntry items e')).
    apply IH; try assumption.
    unfold Site.onEntry. destruct (Site.isIntersecting e');
      [rewrite site_update_length|]; exact Hlt.
Qed.

Lemma setupReveal_grown (prefersReduce hasObserver : bool) items0 :
  Forall2 grown items0 (Site.setupReveal prefersReduce hasObserver items0).
Proof.
  unfold Site.setupReveal.
  destruct (prefersReduce || negb hasObserver);
    induction items0 as [|a r IH]; simpl; constructor; try exact IH;
    unfold grown; cbn; auto.
Qed.

(** X24. The reveal of the first script.  Under reduced motion, or
    without an [IntersectionObserver], every item is revealed at once.
    Otherwise, whatever entries the observer hands over, with draws in
    [[0, 1)]: the items stay as many; each is watched or revealed; an item
    once revealed stays so; a delay is written only on a revealed item with
    [data-stagger], and lies between 0 and 159 milliseconds, so that the
    cap of 220 never applies; and the target of an intersecting entry ends
    revealed and no longer watched. *)
Theorem reveal_once (prefersReduce hasObserver : bool)
  (items0 : list Site.Item) (entries : list Site.Entry) :
  Forall (fun e => unitDraw (Site.rnd e)) entries ->
  let items := Site.setupReveal prefersReduce hasObserver items0 in
  let after := Site.callback entries items in
  (prefersReduce || negb hasObserver = true ->
   Forall (fun el => Site.is_in el = true) items) /\
  length after = length items0 /\
  (prefersReduce || negb hasObserver = false ->
   Forall (fun el => Site.is_in el || Site.observed el = true) after) /\
  Forall2 grown items0 after /\
  (forall e, In e entries -> Site.isIntersecting e = true ->
     (Site.target e < length items0)%nat ->
     exists x, nth_error after (Site.target e) = Some x /\
               Site.is_in x = true /\ Site.observed x = false).
Proof.
  intros Hd items after.
  assert (Hlen : length items = length items0).
  { unfold items, Site.setupReveal.
    destruct (prefersReduce || negb hasObserver); apply length_map. }
  split; [|split; [|split; [|split]]].
  - intros E. unfold items, Site.setupReveal. rewrite E.
    apply Forall_forall. intros el Hel.
    apply in_map_iff in Hel. destruct Hel as (x & <- & _). reflexivity.
  - unfold after. rewrite callback_length. exact Hlen.
  - intros E. unfold after. apply callback_Forall.
    + intros r a _. reflexivity.
    + unfold items, Site.setupReveal. rewrite E.
      apply Forall_forall. intros el Hel.
      apply in_map_iff in Hel. destruct Hel as (x & <- & _).
      cbn. apply orb_true_r.
  - unfold after. apply callback_grown; [exact Hd|].
    apply setupReveal_grown.
  - intros e Hin Hi Hlt. unfold after.
    apply callback_revealed; try assumption. rewrite Hlen. exact Hlt.
Qed.

Lemma reveal_once_witness :
  Forall2 grown
    [Site.mkItem true false None false; Site.mkItem false false None false]
    (Site.callback [Site.mkEntry 0 true 0.999; Site.mkEntry 1 false 0.5]
       (Site.setupReveal false true
          [Site.mkItem true false None false;
           Site.mkItem false false None false])).
Proof.
  apply (reveal_once false true
           [Site.mkItem true false None false;
            Site.mkItem false false None false]
           [Site.mkEntry 0 true 0.999; Site.mkEntry 1 false 0.5]).
  repeat constructor; simpl; lra.
Defined.

(** ** The dust of the first script *)

Lemma grain_fresh (w h dpr : R) (rnd : nat -> R) (i : nat) :
  0 <= w -> 0 <= h -> 0 <= dpr -> (forall k, unitDraw (rnd k)) ->
  freshGrain (Site.mkCanvas w h dpr []) (Site.grain w h dpr rnd i).
Proof.
  intros Hw Hh Hd Hr. unfold freshGrain, Site.grain, Site.rand.
  cbn [Dust.x Dust.y Dust.r Dust.vx Dust.vy Dust.a Site.w Site.h Site.dpr].
  pose proof (Hr (6 * i)%nat) as [A1 A2].
  pose proof (Hr (6 * i + 1)%nat) as [B1 B2].
  pose proof (Hr (6 * i + 2)%nat) as [C1 C2].
  pose proof (Hr (6 * i + 3)%nat) as [D1 D2].
  pose proof (Hr (6 * i + 4)%nat) as [E1 E2].
  pose proof (Hr (6 * i + 5)%nat) as [F1 F2].
  split; [split; nra|]. split; [split; nra|]. split; [split; nra|].
  split; [apply Rabs_le; split; nra|].
  split; [apply Rabs_le; split; nra|].
  lra.
Qed.

Lemma moveGrain_spec (c : Site.Canvas) (p : Dust.Particle) :
  0 <= Site.w c -> 0 <= Site.h c -> 0 <= Site.dpr c ->
  0.08 <= Dust.a p <= 0.22 ->
  nearSite c (Site.moveGrain c p) /\ sameGrain p (Site.moveGrain c p).
Proof.
  intros Hw Hh Hd Ha. unfold nearSite, sameGrain, Site.moveGrain. cbn.
  split.
  - split; [apply wrap_range; lra|]. split; [apply wrap_range; lra|exact Ha].
  - split; [reflexivity|]. split; [reflexivity|]. split; reflexivity.
Qed.

Lemma sameGrain_trans (p q r : Dust.Particle) :
  sameGrain p q -> sameGrain q r -> sameGrain p r.
Proof.
  unfold sameGrain. intros (A1 & A2 & A3 & A4) (B1 & B2 & B3 & B4).
  repeat split; congruence.
Qed.

Lemma sameGrain_all (ps : list Dust.Particle) : Forall2 sameGrain ps ps.
Proof.
  induction ps as [|p r IH]; constructor; [|exact IH].
  unfold sameGrain. auto.
Qed.

Lemma sameGrain_move (c : Site.Canvas) :
  0 <= Site.w c -> 0 <= Site.h c -> 0 <= Site.dpr c ->
  forall ps0 ps,
    Forall (nearSite c) ps -> Forall2 sameGrain ps0 ps ->
    Forall2 sameGrain ps0 (map (Site.moveGrain c) ps).
Proof.
  intros Hw Hh Hd ps0 ps Hn Hs.
  induction Hs as [|p q l l' Hpq Hs IH]; simpl; [constructor|].
  inversion Hn as [|? ? Hq Hn2]; subst.
  constructor; [|apply IH; exact Hn2].
  destruct Hq as (_ & _ & Ha).
  eapply sameGrain_trans; [exact Hpq|].
  apply moveGrain_spec; assumption.
Qed.

Lemma site_frame_spec (c : Site.Canvas) (ps0 : list Dust.Particle) :
  0 <= Site.w c -> 0 <= Site.h c -> 0 <= Site.dpr c ->
  Forall (nearSite c) (Site.pts c) -> Forall2 sameGrain ps0 (Site.pts c) ->
  let c' := fst (Site.frame c) in
  Site.w c' = Site.w c /\ Site.h c' = Site.h c /\ Site.dpr c' = Site.dpr c /\
  Forall (nearSite c) (Site.pts c') /\ Forall2 sameGrain ps0 (Site.pts c') /\
  Forall (fun a => 0.08 <= a <= 0.22) (snd (Site.frame c)).
Proof.
  intros Hw Hh Hd Hn Hs c'. unfold c', Site.frame. cbn [fst snd Site.w Site.h
    Site.dpr Site.pts].
  split; [reflexivity|]. split; [reflexivity|]. split; [reflexivity|].
  assert (Hn' : Forall (nearSite c) (map (Site.moveGrain c) (Site.pts c))).
  { apply Forall_forall. intros q Hq. apply in_map_iff in Hq.
    destruct Hq as (p & <- & Hp).
    rewrite Forall_forall in Hn. destruct (Hn p Hp) as (_ & _ & Ha).
    apply moveGrain_spec; assumption. }
  split; [exact Hn'|]. split.
  - apply sameGrain_move; assumption.
  - apply Forall_forall. intros v Hv. apply in_map_iff in Hv.
    destruct Hv as (q & <- & Hq).
    rewrite Forall_forall in Hn'. destruct (Hn' q Hq) as (_ & _ & Ha).
    exact Ha.
Qed.

(** X25. The dust of the first script.  For a window of non-negative size
    and draws in [[0, 1)], [resize] leaves between 110 and 220 particles,
    each on the canvas, with a radius from 0.6 to 1.5 and a drift of at
    most 0.05 per frame (times the pixel ratio, itself between 1 and 2)
    and an opacity from 0.08 to 0.22.  After any number of frames the
    particles are as many, each has kept its radius, drift and opacity and
    lies within the canvas and its border of 10 scaled pixels, and every
    alpha given to the context is between 0.08 and 0.22. *)
Theorem site_dust_regenerated (innerWidth innerHeight : R) (ratio : option R)
  (rnd : nat -> R) (n : nat) :
  0 <= innerWidth -> 0 <= innerHeight -> (forall k, unitDraw (rnd k)) ->
  let c := Site.resize innerWidth innerHeight ratio rnd in
  let c' := Nat.iter n (fun c => fst (Site.frame c)) c in
  1 <= Site.dpr c <= 2 /\
  (110 <= length (Site.pts c) <= 220)%nat /\
  Forall (freshGrain c) (Site.pts c) /\
  length (Site.pts c') = length (Site.pts c) /\
  Forall2 sameGrain (Site.pts c) (Site.pts c') /\
  Forall (nearSite c) (Site.pts c') /\
  Forall (fun a => 0.08 <= a <= 0.22) (snd (Site.frame c')).
Proof.
  intros Hw Hh Hr c c'.
  assert (Hd : 1 <= Site.dpr c <= 2).
  { unfold c, Site.resize. cbn [Site.dpr]. unfold Rmax, Rmin.
    destruct (Rle_dec 2 _); destruct (Rle_dec 1 _); lra. }
  assert (Hcw : 0 <= Site.w c).
  { unfold c, Site.resize. cbn [Site.w]. apply floor_nonneg.
    apply Rmult_le_pos; [exact Hw|]. unfold Rmax, Rmin.
    destruct (Rle_dec 2 _); destruct (Rle_dec 1 _); lra. }
  assert (Hch : 0 <= Site.h c).
  { unfold c, Site.resize. cbn [Site.h]. apply floor_nonneg.
    apply Rmult_le_pos; [exact Hh|]. unfold Rmax, Rmin.
    destruct (Rle_dec 2 _); destruct (Rle_dec 1 _); lra. }
  assert (Hfresh : Forall (freshGrain c) (Site.pts c)).
  { apply Forall_forall. intros p Hp.
    unfold c, Site.resize in Hp. cbn [Site.pts] in Hp.
    apply in_map_iff in Hp. destruct Hp as (i & <- & _).
    apply (grain_fresh (Site.w c) (Site.h c) (Site.dpr c) rnd i); try assumption.
    lra. }
  assert (Hinv : Site.w c' = Site.w c /\ Site.h c' = Site.h c /\
                 Site.dpr c' = Site.dpr c /\
                 Forall (nearSite c) (Site.pts c') /\
                 Forall2 sameGrain (Site.pts c) (Site.pts c')).
  { unfold c'. clear c'. induction n as [|n IH].
    - simpl. split; [reflexivity|]. split; [reflexivity|].
      split; [reflexivity|]. split.
      + eapply Forall_impl; [|exact Hfresh].
        intros p (Hx & Hy & _ & _ & _ & Ha). unfold nearSite.
        split; [lra|]. split; [lra|exact Ha].
      + apply sameGrain_all.
    - destruct IH as (Iw & Ih & Id & In_ & Is).
      rewrite Nat.iter_succ.
      set (cn := Nat.iter n (fun c0 => fst (Site.frame c0)) c) in *.
      assert (Hn' : Forall (nearSite cn) (Site.pts cn)).
      { eapply Forall_impl; [|exact In_]. intros p. unfold nearSite.
        rewrite Iw, Ih, Id. auto. }
      destruct (site_frame_spec cn (Site.pts c)) as (Jw & Jh & Jd & Jn & Js & _);
        try assumption; try lra.
      split; [congruence|]. split; [congruence|]. split; [congruence|].
      split; [|exact Js].
      eapply Forall_impl; [|exact Jn]. intros p. unfold nearSite.
      rewrite Iw, Ih, Id. auto. }
  destruct Hinv as (Iw & Ih & Id & In_ & Is).
  split; [exact Hd|]. split.
  { unfold c, Site.resize. cbn [Site.pts].
    rewrite length_map, length_seq. unfold Site.particleCount. lia. }
  split; [exact Hfresh|]. split.
  { symmetry. eapply Forall2_length. exact Is. }
  split; [exact Is|]. split; [exact In_|].
  assert (Hn' : Forall (nearSite c') (Site.pts c')).
  { eapply Forall_impl; [|exact In_]. intros p. unfold nearSite.
    rewrite Iw, Ih, Id. auto. }
  destruct (site_frame_spec c' (Site.pts c)) as (_ & _ & _ & _ & _ & Ja);
    try assumption; lra.
Qed.

Lemma site_dust_regenerated_witness :
  let c := Site.resize 1280 720 (Some 2) (fun _ => 0.5) in
  (110 <= length (Site.pts c) <= 220)%nat /\
  Forall (fun a => 0.08 <= a <= 0.22)
    (snd (Site.frame (Nat.iter 3 (fun c => fst (Site.frame c)) c))).
Proof.
  intros c. unfold c.
  destruct (site_dust_regenerated 1280 720 (Some 2) (fun _ => 0.5) 3)
    as (_ & H1 & _ & _ & _ & _ & H2); try lra.
  - intros k. unfold unitDraw. lra.
  - split; [exact H1|exact H2].
Defined.
